(** * Angular core: after-render manager and signal-graph debug extraction

    Shallow embedding of
    - [packages/core/src/render3/after_render/manager.ts]
      ([AfterRenderImpl], [AfterRenderSequence]), and
    - [packages/core/src/render3/util/signal_debug.ts]
      ([extractSignalNodesAndEdgesFromRoots], [getNodesAndEdgesFromSignalMap],
      [getSignalGraph]).

    JavaScript objects are identified by a natural number (their identity);
    object fields live in a store indexed by identity.  An ECMAScript [Set]
    is the list of its entries in insertion order, where a deleted entry
    leaves an empty slot behind, exactly as in the language specification:
    this is what makes iteration over a set that is mutated meanwhile well
    defined. *)

From Stdlib Require Import String Ascii ZArith.
From Stdlib Require Import List Arith Lia Bool Sorted.
Import ListNotations.

(** ** JavaScript values and identity-keyed sets *)

Inductive JsValue : Type :=
| JsUndefined
| JsNumber (z : Z)
| JsString (s : string).

(** Store of objects indexed by identity, updated pointwise. *)
Definition upd {A : Type} (f : nat -> A) (k : nat) (v : A) : nat -> A :=
  fun j => if Nat.eqb j k then v else f j.

Module JsSet.

(** [SetData]: entries in insertion order; [None] is an emptied slot. *)
Definition t : Type := list (option nat).

Definition empty : t := [].

Definition slot_is (x : nat) (e : option nat) : bool :=
  match e with
  | Some y => Nat.eqb x y
  | None => false
  end.

(** [Set.prototype.has] *)
Definition has (s : t) (x : nat) : bool := existsb (slot_is x) s.

(** [Set.prototype.add]: appends unless already present. *)
Definition add (s : t) (x : nat) : t :=
  if has s x then s else s ++ [Some x].

(** [Set.prototype.delete]: the entry is replaced by an empty slot. *)
Definition delete (s : t) (x : nat) : t :=
  map (fun e => if slot_is x e then None else e) s.

(** [Set.prototype.clear]: every entry is replaced by an empty slot. *)
Definition clear (s : t) : t := map (fun _ => None) s.

(** The live members, in iteration order. *)
Fixpoint elements (s : t) : list nat :=
  match s with
  | [] => []
  | Some x :: s' => x :: elements s'
  | None :: s' => elements s'
  end.

(** [Set.prototype.size] *)
Definition size (s : t) : nat := length (elements s).

(** Representation invariant: no member occupies two slots. *)
Definition wf (s : t) : Prop := NoDup (elements s).

End JsSet.

(** ** The after-render manager *)

Module AfterRender.

(** [AfterRenderPhase] (enum of [./api]); the numeric value of a member is
    its index into [AfterRenderHooks]. *)
Inductive AfterRenderPhase : Type :=
| EarlyRead
| Write
| MixedReadWrite
| Read.

Definition phase_index (p : AfterRenderPhase) : nat :=
  match p with
  | EarlyRead => 0
  | Write => 1
  | MixedReadWrite => 2
  | Read => 3
  end.

Definition AFTER_RENDER_PHASES : list AfterRenderPhase :=
  [EarlyRead; Write; MixedReadWrite; Read].

(** [NotificationSource] members used by the manager. *)
Inductive NotificationSource : Type :=
| RenderHook
| DeferredRenderHook.

(** How a hook invocation ends. *)
Inductive Outcome : Type :=
| Return (v : JsValue)
| Throw (err : JsValue).

(** Calls into the manager that user code (a hook body) can make. *)
Inductive Call : Type :=
| CallRegister (sequence : nat)
| CallQueueRegistration (sequence : nat)
| CallUnregister (sequence : nat)
| CallDestroy (sequence : nat).

(** Observable actions, in the order they happen.  [EvHook] is recorded when
    the hook is entered, with the argument it receives and the way it will
    end, [EvHandleError] when the error handler is entered.  [EvRegister s
    deferred] and [EvUnregister s marked] record the calls of [register] and
    [unregister] together with the branch taken, [EvDestroy] the calls of
    [AfterRenderSequence.destroy].  [EvNotify] records the calls of
    [scheduler.notify] the manager makes, and [EvMarkAncestorsForTraversal]
    its call of that function of [util/view_utils]; what the scheduler and
    that function do in turn is theirs. *)
Inductive Event : Type :=
| EvHook (sequence : nat) (phase : AfterRenderPhase) (arg : JsValue) (res : Outcome)
| EvHandleError (err : JsValue)
| EvNotify (source : NotificationSource)
| EvRegister (sequence : nat) (deferred : bool)
| EvUnregister (sequence : nat) (marked : bool)
| EvDestroy (sequence : nat)
| EvUnregisterOnDestroy (sequence : nat)
| EvMarkAncestorsForTraversal (view : nat).

Section Manager.

(** State owned by user code (closures, the DOM, ...), opaque to the manager. *)
Context {W : Type}.

(** What one invocation of a hook does: it updates the user state, calls into
    the manager, and returns or throws. *)
Record HookRun : Type := {
  world' : W;
  calls : list Call;
  outcome : Outcome
}.

Definition AfterRenderHook : Type := JsValue -> W -> HookRun.

(** What one call of [ErrorHandler.handleError] does: it updates the user
    state, and returns or throws. *)
Record HandlerRun : Type := {
  afterHandler : W;
  handlerThrows : option JsValue
}.

Definition ErrorHandler : Type := JsValue -> W -> HandlerRun.

(** [AfterRenderHooks]: a 4-tuple of optional hooks. *)
Record AfterRenderHooks : Type := {
  earlyRead : option AfterRenderHook;
  write : option AfterRenderHook;
  mixedReadWrite : option AfterRenderHook;
  read : option AfterRenderHook
}.

(** [hooks[phase]] *)
Definition hookAt (h : AfterRenderHooks) (phase : AfterRenderPhase)
  : option AfterRenderHook :=
  match phase with
  | EarlyRead => earlyRead h
  | Write => write h
  | MixedReadWrite => mixedReadWrite h
  | Read => read h
  end.

(** [class AfterRenderSequence].  [unregisterOnDestroy] tells whether the
    private callback of that name is defined. *)
Record AfterRenderSequence : Type := {
  hooks : AfterRenderHooks;
  view : option nat;
  once : bool;
  erroredOrDestroyed : bool;
  pipelinedValue : JsValue;
  unregisterOnDestroy : bool
}.

(** The part of an [LView] the manager touches. *)
Record LView : Type := {
  afterRenderSequencesToRegister : option (list nat);
  hasChildViewsToRefresh : bool
}.

(** [class AfterRenderImpl] together with the objects it reaches. *)
Record State : Type := {
  sequences : JsSet.t;
  deferredRegistrations : JsSet.t;
  executing : bool;
  errorHandler : option ErrorHandler;
  heap : nat -> AfterRenderSequence;
  views : nat -> LView;
  world : W;
  trace : list Event
}.

Definition set_sequences (v : JsSet.t) (st : State) : State :=
  {| sequences := v; deferredRegistrations := deferredRegistrations st;
     executing := executing st; errorHandler := errorHandler st;
     heap := heap st; views := views st; world := world st;
     trace := trace st |}.

Definition set_deferredRegistrations (v : JsSet.t) (st : State) : State :=
  {| sequences := sequences st; deferredRegistrations := v;
     executing := executing st; errorHandler := errorHandler st;
     heap := heap st; views := views st; world := world st;
     trace := trace st |}.

Definition set_executing (v : bool) (st : State) : State :=
  {| sequences := sequences st;
     deferredRegistrations := deferredRegistrations st;
     executing := v; errorHandler := errorHandler st;
     heap := heap st; views := views st; world := world st;
     trace := trace st |}.

Definition set_heap (v : nat -> AfterRenderSequence) (st : State) : State :=
  {| sequences := sequences st;
     deferredRegistrations := deferredRegistrations st;
     executing := executing st; errorHandler := errorHandler st;
     heap := v; views := views st; world := world st;
     trace := trace st |}.

Definition set_views (v : nat -> LView) (st : State) : State :=
  {| sequences := sequences st;
     deferredRegistrations := deferredRegistrations st;
     executing := executing st; errorHandler := errorHandler st;
     heap := heap st; views := v; world := world st;
     trace := trace st |}.

Definition set_world (v : W) (st : State) : State :=
  {| sequences := sequences st;
     deferredRegistrations := deferredRegistrations st;
     executing := executing st; errorHandler := errorHandler st;
     heap := heap st; views := views st; world := v;
     trace := trace st |}.

Definition emit (e : Event) (st : State) : State :=
  {| sequences := sequences st;
     deferredRegistrations := deferredRegistrations st;
     executing := executing st; errorHandler := errorHandler st;
     heap := heap st; views := views st; world := world st;
     trace := trace st ++ [e] |}.

(** Field assignments on a sequence object. *)
Definition with_erroredOrDestroyed (b : bool) (q : AfterRenderSequence) :=
  {| hooks := hooks q; view := view q; once := once q;
     erroredOrDestroyed := b; pipelinedValue := pipelinedValue q;
     unregisterOnDestroy := unregisterOnDestroy q |}.

Definition with_pipelinedValue (v : JsValue) (q : AfterRenderSequence) :=
  {| hooks := hooks q; view := view q; once := once q;
     erroredOrDestroyed := erroredOrDestroyed q; pipelinedValue := v;
     unregisterOnDestroy := unregisterOnDestroy q |}.

Definition with_once (b : bool) (q : AfterRenderSequence) :=
  {| hooks := hooks q; view := view q; once := b;
     erroredOrDestroyed := erroredOrDestroyed q;
     pipelinedValue := pipelinedValue q;
     unregisterOnDestroy := unregisterOnDestroy q |}.

Definition modify (x : nat) (f : AfterRenderSequence -> AfterRenderSequence)
    (st : State) : State :=
  set_heap (upd (heap st) x (f (heap st x))) st.

(** [this.scheduler.notify(source)] *)
Definition notify (source : NotificationSource) (st : State) : State :=
  emit (EvNotify source) st.

(** How a statement ends: normally, or abruptly with a thrown value that
    nothing has caught yet.  Either way it leaves a state behind. *)
Inductive Completion : Type :=
| Normal (st : State)
| Abrupt (thrown : JsValue) (st : State).

Definition stateOf (c : Completion) : State :=
  match c with
  | Normal st => st
  | Abrupt _ st => st
  end.

Definition hasHandler (st : State) : bool :=
  match errorHandler st with
  | Some _ => true
  | None => false
  end.

(** [this.errorHandler?.handleError(err)]: what the handler throws is not
    caught. *)
Definition handleError (err : JsValue) (st : State) : Completion :=
  match errorHandler st with
  | Some handler =>
      let r := handler err (world st) in
      let st := set_world (afterHandler r) (emit (EvHandleError err) st) in
      match handlerThrows r with
      | Some thrown => Abrupt thrown st
      | None => Normal st
      end
  | None => Normal st
  end.

(** [AfterRenderImpl.register] *)
Definition register (x : nat) (st : State) : State :=
  let st := emit (EvRegister x (executing st)) st in
  if negb (executing st) then
    notify RenderHook (set_sequences (JsSet.add (sequences st) x) st)
  else
    set_deferredRegistrations (JsSet.add (deferredRegistrations st) x) st.

(** [AfterRenderImpl.unregister] *)
Definition unregister (x : nat) (st : State) : State :=
  let marked := executing st && JsSet.has (sequences st) x in
  let st := emit (EvUnregister x marked) st in
  if marked then
    modify x (with_once true)
      (modify x (with_pipelinedValue JsUndefined)
         (modify x (with_erroredOrDestroyed true) st))
  else
    set_deferredRegistrations (JsSet.delete (deferredRegistrations st) x)
      (set_sequences (JsSet.delete (sequences st) x) st).

(** [AfterRenderImpl.queueRegistration] *)
Definition queueRegistration (x : nat) (st : State) : State :=
  match view (heap st x) with
  | Some v =>
      if negb (executing st) then
        let lv := views st v in
        let queue :=
          match afterRenderSequencesToRegister lv with
          | Some q => q
          | None => []
          end in
        let st :=
          set_views
            (upd (views st) v
               {| afterRenderSequencesToRegister := Some (queue ++ [x]);
                  hasChildViewsToRefresh := hasChildViewsToRefresh lv |}) st in
        let st := emit (EvMarkAncestorsForTraversal v) st in
        set_views
          (upd (views st) v
             {| afterRenderSequencesToRegister :=
                  afterRenderSequencesToRegister (views st v);
                hasChildViewsToRefresh := true |}) st
      else register x st
  | None => register x st
  end.

(** [AfterRenderSequence.afterRun] *)
Definition afterRun (x : nat) (st : State) : State :=
  modify x (with_pipelinedValue JsUndefined)
    (modify x (with_erroredOrDestroyed false) st).

(** [AfterRenderSequence.destroy] *)
Definition destroy (x : nat) (st : State) : State :=
  let st := emit (EvDestroy x) st in
  let st := unregister x st in
  let st :=
    if unregisterOnDestroy (heap st x)
    then emit (EvUnregisterOnDestroy x) st else st in
  match view (heap st x) with
  | Some v =>
      match afterRenderSequencesToRegister (views st v) with
      | Some scheduled =>
          set_views
            (upd (views st) v
               {| afterRenderSequencesToRegister :=
                    Some (filter (fun s => negb (Nat.eqb s x)) scheduled);
                  hasChildViewsToRefresh :=
                    hasChildViewsToRefresh (views st v) |}) st
      | None => st
      end
  | None => st
  end.

Definition runCall (c : Call) (st : State) : State :=
  match c with
  | CallRegister x => register x st
  | CallQueueRegistration x => queueRegistration x st
  | CallUnregister x => unregister x st
  | CallDestroy x => destroy x st
  end.

Definition runCalls (cs : list Call) (st : State) : State :=
  fold_left (fun s c => runCall c s) cs st.

(** Body of the inner loop of [execute], lines 67-78: one sequence at one
    phase.  What the hook throws is caught; what the error handler throws
    leaves the loop. *)
Definition runHook (phase : AfterRenderPhase) (x : nat) (st : State)
  : Completion :=
  if erroredOrDestroyed (heap st x) then Normal st
  else
    match hookAt (hooks (heap st x)) phase with
    | None => Normal st
    | Some hook =>
        let arg := pipelinedValue (heap st x) in
        let r := hook arg (world st) in
        let st := emit (EvHook x phase arg (outcome r)) st in
        let st := runCalls (calls r) (set_world (world' r) st) in
        match outcome r with
        | Return v => Normal (modify x (with_pipelinedValue v) st)
        | Throw err =>
            handleError err (modify x (with_erroredOrDestroyed true) st)
        end
    end.

(** A loop body that cannot throw. *)
Definition completes (body : nat -> State -> State) (x : nat) (st : State)
  : Completion :=
  Normal (body x st).

(** [for (const x of set) body], following the set iterator of the language:
    the entry list is read again at each step, so entries appended by the
    body are visited and entries emptied before they are reached are
    skipped.  A body that ends abruptly ends the loop.  [None] is returned
    when the fuel runs out. *)
Fixpoint forOf (fuel : nat) (set : State -> JsSet.t)
    (body : nat -> State -> Completion) (index : nat) (st : State)
  : option Completion :=
  match fuel with
  | O => None
  | S fuel' =>
      match nth_error (set st) index with
      | None => Some (Normal st)
      | Some None => forOf fuel' set body (S index) st
      | Some (Some x) =>
          match body x st with
          | Normal st' => forOf fuel' set body (S index) st'
          | Abrupt thrown st' => Some (Abrupt thrown st')
          end
      end
  end.

(** Lines 65-80: the phases, each over the active sequences. *)
Fixpoint runPhases (fuel : nat) (phases : list AfterRenderPhase) (st : State)
  : option Completion :=
  match phases with
  | [] => Some (Normal st)
  | phase :: rest =>
      match forOf fuel sequences (runHook phase) 0 st with
      | Some (Normal st') => runPhases fuel rest st'
      | Some (Abrupt thrown st') => Some (Abrupt thrown st')
      | None => None
      end
  end.

(** Body of the cleanup loop, lines 85-91. *)
Definition cleanupOne (x : nat) (st : State) : State :=
  let st := afterRun x st in
  if once (heap st x) then
    destroy x (set_sequences (JsSet.delete (sequences st) x) st)
  else st.

(** Body of the loop of line 94. *)
Definition addDeferred (x : nat) (st : State) : State :=
  set_sequences (JsSet.add (sequences st) x) st.

(** Lines 94-100. *)
Definition flushDeferred (fuel : nat) (st : State) : option Completion :=
  match forOf fuel deferredRegistrations (completes addDeferred) 0 st with
  | Some (Normal st) =>
      let st :=
        if 0 <? JsSet.size (deferredRegistrations st)
        then notify DeferredRenderHook st else st in
      Some (Normal (set_deferredRegistrations
                      (JsSet.clear (deferredRegistrations st)) st))
  | Some (Abrupt thrown st) => Some (Abrupt thrown st)
  | None => None
  end.

(** Lines 64-92: everything up to and including the cleanup step. *)
Definition executeUntilCleanup (fuel : nat) (st : State)
  : option Completion :=
  match runPhases fuel AFTER_RENDER_PHASES (set_executing true st) with
  | Some (Normal st) =>
      forOf fuel sequences (completes cleanupOne) 0 (set_executing false st)
  | Some (Abrupt thrown st) => Some (Abrupt thrown st)
  | None => None
  end.

(** [AfterRenderImpl.execute]: [Normal] when it returns, [Abrupt] when it
    throws. *)
Definition execute (fuel : nat) (st : State) : option Completion :=
  match executeUntilCleanup fuel st with
  | Some (Normal st) => flushDeferred fuel st
  | Some (Abrupt thrown st) => Some (Abrupt thrown st)
  | None => None
  end.

(** *** The state an execution that returns leaves

    The state the error handler leaves, whether it returns or throws, and
    the state one turn of the inner loop leaves. *)
Definition handlerState (err : JsValue) (st : State) : State :=
  stateOf (handleError err st).

Definition hookState (phase : AfterRenderPhase) (x : nat) (st : State)
  : State :=
  stateOf (runHook phase x st).

(** The error handler of the manager never throws. *)
Definition handlerSafe (st : State) : Prop :=
  forall handler err w,
    errorHandler st = Some handler -> handlerThrows (handler err w) = None.

(** The loops of [execute] run over a snapshot of the members the set has
    when the loop starts, every turn taken to its end.  They are what
    [execute] computes on a well-formed manager when it returns (see
    [execute_snapshot] below) and carry the proofs. *)
Definition forEach (body : nat -> State -> State) (xs : list nat)
    (st : State) : State :=
  fold_left (fun s x => body x s) xs st.

Definition phaseSnapshot (phase : AfterRenderPhase) (st : State) : State :=
  forEach (hookState phase) (JsSet.elements (sequences st)) st.

Definition phasesSnapshot (phases : list AfterRenderPhase) (st : State)
  : State :=
  fold_left (fun s p => phaseSnapshot p s) phases st.

Definition cleanupSnapshot (st : State) : State :=
  forEach cleanupOne (JsSet.elements (sequences st)) st.

Definition untilCleanupSnapshot (st : State) : State :=
  cleanupSnapshot
    (set_executing false
       (phasesSnapshot AFTER_RENDER_PHASES (set_executing true st))).

Definition flushSnapshot (st : State) : State :=
  let st :=
    forEach addDeferred (JsSet.elements (deferredRegistrations st)) st in
  let st :=
    if 0 <? JsSet.size (deferredRegistrations st)
    then notify DeferredRenderHook st else st in
  set_deferredRegistrations (JsSet.clear (deferredRegistrations st)) st.

Definition executeSnapshot (st : State) : State :=
  flushSnapshot (untilCleanupSnapshot st).

(** Fuel that lets [execute] run to completion from [st]. *)
Definition enoughFuel (st : State) : nat :=
  S (Nat.max (length (sequences st))
       (length (deferredRegistrations (untilCleanupSnapshot st)))).

(** *** Reading the state off the events

    While [executing] holds, what the calls made by a hook do to the sequence
    objects and to the deferred registrations can be read off the events
    they record. *)

(** The three assignments of the first branch of [unregister]. *)
Definition mark (q : AfterRenderSequence) : AfterRenderSequence :=
  with_once true
    (with_pipelinedValue JsUndefined (with_erroredOrDestroyed true q)).

Definition isMarkOf (t : nat) (e : Event) : bool :=
  match e with
  | EvUnregister s true => Nat.eqb s t
  | _ => false
  end.

Definition isHook (e : Event) : bool :=
  match e with
  | EvHook _ _ _ _ => true
  | _ => false
  end.

Definition isHookOf (t : nat) (e : Event) : bool :=
  match e with
  | EvHook s _ _ _ => Nat.eqb s t
  | _ => false
  end.

(** The events calls made while [executing] holds can record. *)
Definition isCallEvent (e : Event) : bool :=
  match e with
  | EvRegister _ true
  | EvUnregister _ _
  | EvDestroy _
  | EvUnregisterOnDestroy _ => true
  | _ => false
  end.

Definition replayDeferred (s : JsSet.t) (e : Event) : JsSet.t :=
  match e with
  | EvRegister t true => JsSet.add s t
  | EvUnregister t false => JsSet.delete s t
  | _ => s
  end.

(** The events of [handleError] after a hook that ended with [r]. *)
Definition errorEvents (handler : bool) (r : Outcome) : list Event :=
  match r with
  | Throw err => if handler then [EvHandleError err] else []
  | Return _ => []
  end.

(** What the end of a hook invocation assigns on its own sequence. *)
Definition finish (r : Outcome) (q : AfterRenderSequence)
  : AfterRenderSequence :=
  match r with
  | Return v => with_pipelinedValue v q
  | Throw _ => with_erroredOrDestroyed true q
  end.

(** [callsSpec st st' evs]: [st'] is [st] after calls that recorded [evs]. *)
Definition callsSpec (st st' : State) (evs : list Event) : Prop :=
  trace st' = trace st ++ evs /\
  Forall (fun e => isCallEvent e = true) evs /\
  (forall y, heap st' y =
             if existsb (isMarkOf y) evs then mark (heap st y)
             else heap st y) /\
  deferredRegistrations st' =
    fold_left replayDeferred evs (deferredRegistrations st) /\
  (forall y, existsb (isMarkOf y) evs = true ->
             In y (JsSet.elements (sequences st))) /\
  (forall y, In (EvUnregister y false) evs ->
             ~ In y (JsSet.elements (sequences st))).

(** [hookSpec phase x st st' hook evs]: [st'] is [st] after sequence [x] ran
    [hook] at [phase], the calls of the hook having recorded [evs]. *)
Definition hookSpec (phase : AfterRenderPhase) (x : nat) (st st' : State)
    (hook : AfterRenderHook) (evs : list Event) : Prop :=
  let arg := pipelinedValue (heap st x) in
  let r := outcome (hook arg (world st)) in
  erroredOrDestroyed (heap st x) = false /\
  hookAt (hooks (heap st x)) phase = Some hook /\
  trace st' =
    trace st ++ EvHook x phase arg r :: evs ++ errorEvents (hasHandler st) r /\
  Forall (fun e => isCallEvent e = true) evs /\
  (forall y, heap st' y =
             let q := if existsb (isMarkOf y) evs then mark (heap st y)
                      else heap st y in
             if Nat.eqb y x then finish r q else q) /\
  deferredRegistrations st' =
    fold_left replayDeferred evs (deferredRegistrations st) /\
  (forall y, existsb (isMarkOf y) evs = true ->
             In y (JsSet.elements (sequences st))) /\
  (forall y, In (EvUnregister y false) evs ->
             ~ In y (JsSet.elements (sequences st))).

(** [hookOrder e1 e2]: if both events are hook invocations, the first may
    come before the second: its phase is earlier, or the phase is the same
    and the sequences differ. *)
Definition hookOrder (e1 e2 : Event) : Prop :=
  match e1, e2 with
  | EvHook s p _ _, EvHook t q _ _ =>
      phase_index p < phase_index q \/ (p = q /\ s <> t)
  | _, _ => True
  end.

(** During phase [p], with the hooks of [done] already run: the sequences
    and phases hook events can mention. *)
Definition hookWithin (p : AfterRenderPhase) (done : list nat) (e : Event)
  : Prop :=
  match e with
  | EvHook s q _ _ =>
      phase_index q < phase_index p \/ (q = p /\ In s done)
  | _ => True
  end.

(** The two assignments of [afterRun]. *)
Definition resetSequence (q : AfterRenderSequence) : AfterRenderSequence :=
  with_pipelinedValue JsUndefined (with_erroredOrDestroyed false q).

(** The events of the cleanup of a one-shot sequence [x]. *)
Definition destroyEvents (x : nat) (q : AfterRenderSequence) : list Event :=
  EvDestroy x :: EvUnregister x false ::
  (if unregisterOnDestroy q then [EvUnregisterOnDestroy x] else []).

Definition memb (y : nat) (xs : list nat) : bool := existsb (Nat.eqb y) xs.

(** [cleanupSpec st done st' evs]: [st'] is [st] after the cleanup step went
    over the sequences [done], recording [evs]. *)
Definition cleanupSpec (st : State) (done : list nat) (st' : State)
    (evs : list Event) : Prop :=
  executing st' = executing st /\
  trace st' = trace st ++ evs /\
  evs = flat_map (fun y => if once (heap st y)
                           then destroyEvents y (heap st y) else []) done /\
  (forall y, heap st' y =
             if memb y done then resetSequence (heap st y) else heap st y) /\
  (forall y, In y (JsSet.elements (sequences st')) <->
             In y (JsSet.elements (sequences st)) /\
             ~ (In y done /\ once (heap st y) = true)) /\
  (forall y, In y (JsSet.elements (deferredRegistrations st')) <->
             In y (JsSet.elements (deferredRegistrations st)) /\
             ~ (In y done /\ once (heap st y) = true)) /\
  JsSet.wf (sequences st').

(** Hook events of phases before the one of index [k] only. *)
Definition beforePhase (k : nat) (e : Event) : Prop :=
  match e with
  | EvHook _ q _ _ => phase_index q < k
  | _ => True
  end.

(** Hook events of the sequences [xs] only. *)
Definition hookOfMember (xs : list nat) (e : Event) : Prop :=
  match e with
  | EvHook s _ _ _ => In s xs
  | _ => True
  end.

(** What holds of the events [d] recorded since [st0] when the phases before
    the one of index [k] have run. *)
Definition phasesRan (st0 : State) (k : nat) (s : State) : Prop :=
  executing s = true /\
  sequences s = sequences st0 /\
  exists d, trace s = trace st0 ++ d /\
            StronglySorted hookOrder d /\
            Forall (beforePhase k) d /\
            Forall (hookOfMember (JsSet.elements (sequences st0))) d.

(** The state when the four phases have run, before [executing] is reset. *)
Definition afterPhases (st : State) : State :=
  phasesSnapshot AFTER_RENDER_PHASES (set_executing true st).

(** Fields no call assigns. *)
Definition sameConfig (st st' : State) : Prop :=
  executing st' = executing st /\
  errorHandler st' = errorHandler st /\
  world st' = world st.

(** [isThrowOf t e]: [e] is a hook invocation of sequence [t] that throws. *)
Definition isThrowOf (t : nat) (e : Event) : bool :=
  match e with
  | EvHook s _ _ (Throw _) => Nat.eqb s t
  | _ => false
  end.

(** The events after which sequence [t] must run no hook any more during the
    phases: it was unregistered while active, or one of its hooks threw. *)
Definition stops (t : nat) (e : Event) : bool :=
  isMarkOf t e || isThrowOf t e.

(** No hook of [t] is invoked after an event that stops [t]. *)
Fixpoint quietAfter (t : nat) (d : list Event) : Prop :=
  match d with
  | [] => True
  | e :: d' =>
      (stops t e = true -> Forall (fun e' => isHookOf t e' = false) d') /\
      quietAfter t d'
  end.

(** What holds for sequence [t] while the phases run from [st0]. *)
Definition stoppedInv (t : nat) (st0 s : State) : Prop :=
  exists d,
    trace s = trace st0 ++ d /\
    quietAfter t d /\
    (existsb (stops t) d = true -> erroredOrDestroyed (heap s t) = true) /\
    (existsb (isMarkOf t) d = true ->
     once (heap s t) = true /\ In t (JsSet.elements (sequences st0))).

(** The events the cleanup step and the move of the deferred registrations
    can record. *)
Definition isEpilogueEvent (e : Event) : bool :=
  match e with
  | EvDestroy _
  | EvUnregister _ false
  | EvUnregisterOnDestroy _
  | EvNotify DeferredRenderHook => true
  | _ => false
  end.

(** Every hook invocation that throws is followed, after the events of the
    calls the hook made, by the report of its error to the handler. *)
Fixpoint forwarded (d : list Event) : Prop :=
  match d with
  | [] => True
  | e :: d' =>
      match e with
      | EvHook _ _ _ (Throw err) =>
          exists cs rest,
            d' = cs ++ EvHandleError err :: rest /\
            Forall (fun c => isCallEvent c = true) cs
      | _ => True
      end /\ forwarded d'
  end.

(** Sequence [u] ran its hook of phase [q], or was stopped. *)
Definition ranOrStopped (u : nat) (q : AfterRenderPhase) (d : list Event)
  : Prop :=
  (exists b r, In (EvHook u q b r) d) \/ existsb (stops u) d = true.

(** While the phases run from [st0], having recorded [d]: the hooks of [u]
    are those it had, and if [u] is flagged then [d] tells why. *)
Definition causeInv (u : nat) (st0 s : State) (d : list Event) : Prop :=
  trace s = trace st0 ++ d /\
  hooks (heap s u) = hooks (heap st0 u) /\
  (erroredOrDestroyed (heap s u) = true -> existsb (stops u) d = true).

(** [u] ran or was stopped at each of the phases [qs] where it has a hook. *)
Definition phasesGoal (u : nat) (st0 : State) (qs : list AfterRenderPhase)
    (d : list Event) : Prop :=
  forall q, In q qs -> hookAt (hooks (heap st0 u)) q <> None ->
            ranOrStopped u q d.




(** While the phases run from [st0]: the deferred registrations can be read
    off the events. *)
Definition deferredInv (st0 s : State) : Prop :=
  exists d,
    trace s = trace st0 ++ d /\
    deferredRegistrations s =
      fold_left replayDeferred d (deferredRegistrations st0).

(** *** Registration through a view

    [lView[AFTER_RENDER_SEQUENCES_TO_REGISTER]] *)
Definition queueOf (v : nat) (st : State) : option (list nat) :=
  afterRenderSequencesToRegister (views st v).

(** [registerAfterRendersInView] (after_render/view.ts): as long as [shift]
    takes a sequence off the queue of the view, the sequence is registered.
    [None] is returned when the fuel runs out. *)
Fixpoint registerAfterRendersInView (fuel : nat) (v : nat) (st : State)
  : option State :=
  match fuel with
  | O => None
  | S fuel' =>
      match afterRenderSequencesToRegister (views st v) with
      | Some (x :: rest) =>
          let st :=
            set_views
              (upd (views st) v
                 {| afterRenderSequencesToRegister := Some rest;
                    hasChildViewsToRefresh :=
                      hasChildViewsToRefresh (views st v) |}) st in
          registerAfterRendersInView fuel' v (register x st)
      | Some [] => Some st
      | None => Some st
      end
  end.

(** The events of [register], called for each of [q] in turn. *)
Definition registerEvents (running : bool) (q : list nat) : list Event :=
  flat_map (fun x => EvRegister x running ::
                     (if running then [] else [EvNotify RenderHook])) q.

(** *** What the phases keep

    The events the phases can record: hook invocations, the calls hooks make
    while [executing] holds, and reports to the error handler. *)
Definition isPhaseEvent (e : Event) : bool :=
  match e with
  | EvHook _ _ _ _ => true
  | EvHandleError _ => true
  | _ => isCallEvent e
  end.

Definition isNotify (e : Event) : bool :=
  match e with
  | EvNotify _ => true
  | _ => false
  end.

(** While the phases run from [st0]: only phase events are recorded;
    [unregister] takes its second branch for sequences that are not active
    only; a sequence is one-shot if it was at the start or has been
    unregistered while active; the hooks of sequences do not change; the
    sequences that are not active are not touched. *)
Definition ledgerInv (st0 s : State) : Prop :=
  exists d,
    trace s = trace st0 ++ d /\
    Forall (fun e => isPhaseEvent e = true) d /\
    (forall y, In (EvUnregister y false) d ->
               ~ In y (JsSet.elements (sequences st0))) /\
    (forall t, once (heap s t) =
               once (heap st0 t) || existsb (isMarkOf t) d) /\
    (forall t, hooks (heap s t) = hooks (heap st0 t)) /\
    (forall t, ~ In t (JsSet.elements (sequences st0)) ->
               heap s t = heap st0 t).


(** While the phases run from [st0]: what no turn of the inner loop
    changes, and the trace grows. *)
Definition running (st0 s : State) : Prop :=
  executing s = true /\
  sequences s = sequences st0 /\
  errorHandler s = errorHandler st0 /\
  exists d, trace s = trace st0 ++ d.

(** [hookDefined u hs e]: if [e] is a hook invocation of sequence [u], then
    [hs] has a hook for its phase. *)
Definition hookDefined (u : nat) (hs : AfterRenderHooks) (e : Event) : Prop :=
  match e with
  | EvHook s q _ _ => s = u -> hookAt hs q <> None
  | _ => True
  end.

(** Sequence [u] was stopped by the time its turn at phase [q] came: [d] has
    an event that stops [u], and up to that event only hooks of the phases
    up to [q] were invoked. *)
Definition stoppedBy (u : nat) (q : AfterRenderPhase) (d : list Event)
  : Prop :=
  exists d1 e d2,
    d = d1 ++ e :: d2 /\
    stops u e = true /\
    Forall (beforePhase (S (phase_index q))) (d1 ++ [e]).

(** Sequence [u] ran its hook of phase [q], or was stopped by then. *)
Definition ranOrStoppedBy (u : nat) (q : AfterRenderPhase) (d : list Event)
  : Prop :=
  (exists b r, In (EvHook u q b r) d) \/ stoppedBy u q d.

(** The events a run from [st] to [st'] added to the trace. *)
Definition newEvents (st st' : State) : list Event :=
  skipn (length (trace st)) (trace st').

End Manager.

End AfterRender.

(** A small manager used to run the definitions: sequence 0 pipelines a
    number through three phases, sequence 1 throws in [Write], the one-shot
    sequence 2 registers sequence 3, unregisters sequence 4 and registers
    and destroys sequence 5 from its [EarlyRead] hook.  The user state counts
    the hook invocations. *)
Module Demo.

Import AfterRender.

Definition ret (v : JsValue) (cs : list Call) (w : nat) : @HookRun nat :=
  {| world' := S w; calls := cs; outcome := Return v |}.

Definition succ (v : JsValue) : JsValue :=
  match v with
  | JsNumber z => JsNumber (z + 1)
  | _ => JsUndefined
  end.

(** An error handler that returns, and one that throws what it is given. *)
Definition quietHandler : @ErrorHandler nat :=
  fun _ w => {| afterHandler := w; handlerThrows := None |}.

Definition rethrowingHandler : @ErrorHandler nat :=
  fun err w => {| afterHandler := w; handlerThrows := Some err |}.

Definition noHooks : @AfterRenderHooks nat :=
  {| earlyRead := None; write := None; mixedReadWrite := None; read := None |}.

Definition hooks0 : @AfterRenderHooks nat :=
  {| earlyRead := Some (fun _ w => ret (JsNumber 1) [] w);
     write := Some (fun v w => ret (succ v) [] w);
     mixedReadWrite := None;
     read := Some (fun v w => ret v [] w) |}.

Definition hooks1 : @AfterRenderHooks nat :=
  {| earlyRead := None;
     write := Some (fun _ w =>
                {| world' := S w; calls := [];
                   outcome := Throw (JsString "boom") |});
     mixedReadWrite := None;
     read := Some (fun _ w => ret (JsNumber 0) [] w) |}.

Definition hooks2 : @AfterRenderHooks nat :=
  {| earlyRead :=
       Some (fun _ w =>
               ret JsUndefined
                 [CallRegister 3; CallUnregister 4;
                  CallQueueRegistration 5; CallDestroy 5] w);
     write := None; mixedReadWrite := None; read := None |}.

Definition hooks3 : @AfterRenderHooks nat :=
  {| earlyRead := None; write := None; mixedReadWrite := None;
     read := Some (fun _ w => ret (JsNumber 3) [] w) |}.

Definition hooks4 : @AfterRenderHooks nat :=
  {| earlyRead := Some (fun _ w => ret (JsNumber 4) [] w);
     write := Some (fun v w => ret v [] w);
     mixedReadWrite := None; read := None |}.

Definition sequenceOf (h : @AfterRenderHooks nat) (oneShot : bool)
  : @AfterRenderSequence nat :=
  {| hooks := h; view := None; once := oneShot; erroredOrDestroyed := false;
     pipelinedValue := JsUndefined; unregisterOnDestroy := oneShot |}.

Definition objects (x : nat) : @AfterRenderSequence nat :=
  match x with
  | 0 => sequenceOf hooks0 false
  | 1 => sequenceOf hooks1 false
  | 2 => sequenceOf hooks2 true
  | 3 => sequenceOf hooks3 false
  | 4 => sequenceOf hooks4 false
  | _ => sequenceOf noHooks false
  end.

Definition manager : @State nat :=
  {| sequences := [Some 0; Some 1; Some 2; Some 4];
     deferredRegistrations := [];
     executing := false;
     errorHandler := Some quietHandler;
     heap := objects;
     views := fun _ => {| afterRenderSequencesToRegister := None;
                          hasChildViewsToRefresh := false |};
     world := 0;
     trace := [] |}.




(** The manager [manager] with an error handler that throws. *)
Definition managerRethrow : @State nat :=
  {| sequences := [Some 0; Some 1; Some 2; Some 4];
     deferredRegistrations := [];
     executing := false;
     errorHandler := Some rethrowingHandler;
     heap := objects;
     views := fun _ => {| afterRenderSequencesToRegister := None;
                          hasChildViewsToRefresh := false |};
     world := 0;
     trace := [] |}.

(** An idle manager whose sequences 6 and 7 belong to the view 9; sequence
    7 is queued on the view already. *)
Definition objectsView (x : nat) : @AfterRenderSequence nat :=
  match x with
  | 6 | 7 =>
      {| hooks := hooks3; view := Some 9; once := true;
         erroredOrDestroyed := false; pipelinedValue := JsUndefined;
         unregisterOnDestroy := false |}
  | _ => objects x
  end.

Definition managerView : @State nat :=
  {| sequences := [Some 0];
     deferredRegistrations := [];
     executing := false;
     errorHandler := Some quietHandler;
     heap := objectsView;
     views := fun v =>
                match v with
                | 9 => {| afterRenderSequencesToRegister := Some [7];
                          hasChildViewsToRefresh := false |}
                | _ => {| afterRenderSequencesToRegister := None;
                          hasChildViewsToRefresh := false |}
                end;
     world := 0;
     trace := [] |}.

(** A manager whose only sequence throws from its [Write] hook the first
    time any hook runs, and returns afterwards. *)
Definition hooksFlaky : @AfterRenderHooks nat :=
  {| earlyRead := None;
     write := Some (fun _ w =>
                {| world' := S w; calls := [];
                   outcome := if Nat.eqb w 0 then Throw (JsString "once")
                              else Return (JsNumber 1) |});
     mixedReadWrite := None;
     read := Some (fun v w => ret v [] w) |}.

Definition managerFlaky : @State nat :=
  {| sequences := [Some 0];
     deferredRegistrations := [];
     executing := false;
     errorHandler := None;
     heap := fun _ => sequenceOf hooksFlaky false;
     views := fun _ => {| afterRenderSequencesToRegister := None;
                          hasChildViewsToRefresh := false |};
     world := 0;
     trace := [] |}.

End Demo.

(** ** Signal-graph debug extraction *)

Module SignalDebug.

(** The prototypes [signal_debug.ts] compares [Object.getPrototypeOf(node)]
    with. *)
Inductive Prototype : Type :=
| SIGNAL_NODE
| ROOT_EFFECT_NODE
| VIEW_EFFECT_NODE
| REACTIVE_LVIEW_CONSUMER_NODE
| TEMPORARY_CONSUMER_NODE
| OtherPrototype.

Definition Prototype_eqb (a b : Prototype) : bool :=
  match a, b with
  | SIGNAL_NODE, SIGNAL_NODE
  | ROOT_EFFECT_NODE, ROOT_EFFECT_NODE
  | VIEW_EFFECT_NODE, VIEW_EFFECT_NODE
  | REACTIVE_LVIEW_CONSUMER_NODE, REACTIVE_LVIEW_CONSUMER_NODE
  | TEMPORARY_CONSUMER_NODE, TEMPORARY_CONSUMER_NODE
  | OtherPrototype, OtherPrototype => true
  | _, _ => false
  end.

(** The fields of a [ReactiveNode] (of [@angular/core/primitives/signals])
    that [signal_debug.ts] reads.  [computation] tells whether the property
    is defined; [hostTagName] is [lView?.[HOST]?.tagName]. *)
Record ReactiveNode : Type := {
  prototype : Prototype;
  producerNode : option (list nat);
  debugName : option string;
  value : JsValue;
  computation : bool;
  sourceValue : JsValue;
  hostTagName : option string
}.

(** The reactive graph: node objects by identity. *)
Definition Store : Type := nat -> ReactiveNode.

Record DebugSignalGraphNode : Type := {
  kind : string;
  label : option string;
  nodeValue : option JsValue
}.

Record DebugSignalGraphEdge : Type := {
  consumer : Z;
  producer : Z
}.

Record DebugSignalGraph : Type := {
  nodes : list DebugSignalGraphNode;
  edges : list DebugSignalGraphEdge
}.

(** [Map<ReactiveNode, ReactiveNode[]>]: entries in insertion order. *)
Definition JsMap : Type := list (nat * list nat).

Definition map_has (m : JsMap) (k : nat) : bool :=
  existsb (fun e => Nat.eqb k (fst e)) m.

(** [Map.prototype.set]: an existing key keeps its position. *)
Definition map_set (m : JsMap) (k : nat) (v : list nat) : JsMap :=
  if map_has m k
  then map (fun e => if Nat.eqb k (fst e) then (k, v) else e) m
  else m ++ [(k, v)].

Definition map_keys (m : JsMap) : list nat := map fst m.

(** [Array.prototype.indexOf], from position [i]. *)
Fixpoint indexOfFrom (i : Z) (l : list nat) (x : nat) : Z :=
  match l with
  | [] => (-1)%Z
  | y :: l' => if Nat.eqb y x then i else indexOfFrom (i + 1)%Z l' x
  end.

Definition indexOf (l : list nat) (x : nat) : Z := indexOfFrom 0%Z l x.

Definition isUndefined (v : JsValue) : bool :=
  match v with
  | JsUndefined => true
  | _ => false
  end.

Definition isComputedNode (n : ReactiveNode) : bool :=
  let hasComputedProperties := computation n in
  let isNotLinkedSignalNode := isUndefined (sourceValue n) in
  hasComputedProperties && isNotLinkedSignalNode.

Definition isTemplateNode (n : ReactiveNode) : bool :=
  Prototype_eqb (prototype n) REACTIVE_LVIEW_CONSUMER_NODE
  || Prototype_eqb (prototype n) TEMPORARY_CONSUMER_NODE.

Definition isEffectNode (n : ReactiveNode) : bool :=
  Prototype_eqb (prototype n) ROOT_EFFECT_NODE
  || Prototype_eqb (prototype n) VIEW_EFFECT_NODE.

Definition isSignalNode (n : ReactiveNode) : bool :=
  Prototype_eqb (prototype n) SIGNAL_NODE.

(** Reading a node object out of the store leaves the store as it is. *)
Definition readNode (x : nat) (h : Store) : ReactiveNode * Store := (h x, h).

(** [Result] of a function that returns or throws: [ThrowError] is
    [throwError(msg)] of [util/assert]; [AssertionError] is what [assertTNode]
    and [assertLView] of [../assert] throw, whose message is theirs. *)
Inductive Assertion : Type :=
| NotATNode
| NotAnLView.

Inductive Result (A : Type) : Type :=
| Ok (a : A)
| ThrowError (msg : string)
| AssertionError (failed : Assertion).

Arguments Ok {A} a.
Arguments ThrowError {A} msg.
Arguments AssertionError {A} failed.

(** What [getTemplateConsumer] can find in an injector and in the slots of
    an [LView]: a [TNode] with its [index], an [LView] (by identity), or
    something else ([null], a DOM node, a component instance, ...). *)
Inductive ViewValue : Type :=
| VTNode (index : nat)
| VLView (id : nat)
| VOther.

(** The [LView]s: [slot id i] is [lView[i]] and [reactiveTemplateConsumer id]
    is [lView[REACTIVE_TEMPLATE_CONSUMER]] ([null] is [None]). *)
Record LViews : Type := {
  slot : nat -> nat -> ViewValue;
  reactiveTemplateConsumer : nat -> option nat
}.

(** The injectors [getSignalGraph] distinguishes.  A [NodeInjector] is given
    by what [getNodeInjectorTNode] and [getNodeInjectorLView] return for
    it. *)
Inductive Injector : Type :=
| R3Injector
| NodeInjector (tNode lView : ViewValue)
| OtherInjector.

(** [assertTNode] and [assertLView] ([../assert], not part of these
    sources) throw unless their argument is a [TNode], respectively an
    [LView]. *)
Definition assertTNode (v : ViewValue) : bool :=
  match v with
  | VTNode _ => true
  | _ => false
  end.

Definition assertLView (v : ViewValue) : bool :=
  match v with
  | VLView _ => true
  | _ => false
  end.

(** [getTemplateConsumer] *)
Definition getTemplateConsumer (lViews : LViews) (tNode lView : ViewValue)
  : Result (option nat) :=
  match tNode with
  | VTNode index =>
      match lView with
      | VLView id =>
          let templateLView := slot lViews id index in
          match templateLView with
          | VLView templateId => Ok (reactiveTemplateConsumer lViews templateId)
          | _ => AssertionError NotAnLView
          end
      | _ => AssertionError NotAnLView
      end
  | _ => AssertionError NotATNode
  end.

Section Graph.

(** [String.prototype.toLowerCase], a function of the language's library. *)
Variable toLowerCase : string -> string.

(** The callback of [nodes.map] in [getNodesAndEdgesFromSignalMap]. *)
Definition describeNode (x : nat) (h : Store) : DebugSignalGraphNode * Store :=
  let '(n, h) := readNode x h in
  if isComputedNode n then
    ({| kind := "computed"; label := debugName n;
        nodeValue := Some (value n) |}, h)
  else if isTemplateNode n then
    ({| kind := "template"; label := option_map toLowerCase (hostTagName n);
        nodeValue := None |}, h)
  else if isEffectNode n then
    ({| kind := "effect"; label := debugName n; nodeValue := None |}, h)
  else if isSignalNode n then
    ({| kind := "signal"; label := debugName n;
        nodeValue := Some (value n) |}, h)
  else
    ({| kind := "unknown"; label := debugName n; nodeValue := None |}, h).

Fixpoint describeNodes (xs : list nat) (h : Store)
  : list DebugSignalGraphNode * Store :=
  match xs with
  | [] => ([], h)
  | x :: xs' =>
      let '(d, h) := describeNode x h in
      let '(ds, h) := describeNodes xs' h in
      (d :: ds, h)
  end.

(** The inner loop of lines 141-143. *)
Definition edgesOf (keys : list nat) (entry : nat * list nat)
  : list DebugSignalGraphEdge :=
  let consumerNode := indexOf keys (fst entry) in
  map (fun p => {| consumer := consumerNode; producer := indexOf keys p |})
    (snd entry).

Definition getNodesAndEdgesFromSignalMap (signalMap : JsMap) (h : Store)
  : DebugSignalGraph * Store :=
  let keys := map_keys signalMap in
  let '(debugSignalGraphNodes, h) := describeNodes keys h in
  ({| nodes := debugSignalGraphNodes;
      edges := flat_map (edgesOf keys) signalMap |}, h).

(** [extractSignalNodesAndEdgesFromRoots]; [None] when the fuel runs out. *)
Fixpoint extractSignalNodesAndEdgesFromRoots (fuel : nat) (roots : list nat)
    (signalDependenciesMap : JsMap) (h : Store) : option (JsMap * Store) :=
  match fuel with
  | O => None
  | S fuel' =>
      match roots with
      | [] => Some (signalDependenciesMap, h)
      | node :: rest =>
          if map_has signalDependenciesMap node then
            extractSignalNodesAndEdgesFromRoots fuel' rest
              signalDependenciesMap h
          else
            let '(n, h) := readNode node h in
            let producerNodes :=
              match producerNode n with
              | Some ps => ps
              | None => []
              end in
            match
              extractSignalNodesAndEdgesFromRoots fuel' producerNodes
                (map_set signalDependenciesMap node producerNodes) h
            with
            | Some (m, h) => extractSignalNodesAndEdgesFromRoots fuel' rest m h
            | None => None
            end
      end
  end.

(** [extractEffectsFromInjector] for a [NodeInjector], whose resolver is its
    [LView]; [resolverToEffects] is the map of that name of the DI debug
    data, from [LView]s to the signal nodes of their effects.  A resolver
    that is no [LView] is no key of it. *)
Definition extractEffectsFromInjector
    (resolverToEffects : nat -> option (list nat)) (lView : ViewValue)
  : list nat :=
  match lView with
  | VLView id =>
      match resolverToEffects id with
      | Some effects => effects
      | None => []
      end
  | _ => []
  end.

(** [getSignalGraph]; [None] when the fuel runs out. *)
Definition getSignalGraph (fuel : nat)
    (resolverToEffects : nat -> option (list nat)) (lViews : LViews)
    (injector : Injector) (h : Store)
  : option (Result DebugSignalGraph * Store) :=
  match injector with
  | R3Injector =>
      Some (ThrowError
              "getSignalGraph does not currently support environment injectors",
            h)
  | OtherInjector =>
      Some (ThrowError
              "getSignalGraph must be called with a NodeInjector or an R3Injector",
            h)
  | NodeInjector tNode lView =>
      match getTemplateConsumer lViews tNode lView with
      | Ok templateConsumer =>
          let nonTemplateEffectNodes :=
            extractEffectsFromInjector resolverToEffects lView in
          let signalNodes :=
            match templateConsumer with
            | Some c => c :: nonTemplateEffectNodes
            | None => nonTemplateEffectNodes
            end in
          match extractSignalNodesAndEdgesFromRoots fuel signalNodes [] h with
          | Some (signalDependenciesMap, h) =>
              let '(g, h) :=
                getNodesAndEdgesFromSignalMap signalDependenciesMap h in
              Some (Ok g, h)
          | None => None
          end
      | ThrowError msg => Some (ThrowError msg, h)
      | AssertionError failed => Some (AssertionError failed, h)
      end
  end.

(** [node.producerNode ?? []] *)
Definition producersOf (h : Store) (x : nat) : list nat :=
  match producerNode (h x) with
  | Some ps => ps
  | None => []
  end.

(** [closed h U]: the producers of every node of [U] are in [U]; a reactive
    graph is finite when its roots lie in such a list. *)
Definition closed (h : Store) (U : list nat) : Prop :=
  forall x, In x U -> incl (producersOf h x) U.

(** The nodes of [U] the map has no key for yet. *)
Definition unvisited (U : list nat) (m : JsMap) : list nat :=
  filter (fun x => negb (map_has m x)) U.

(** [extends h m m']: [m'] has the entries of [m] and new entries, each one
    holding the producers of its key, all of them keys of [m']. *)
Definition extends (h : Store) (m m' : JsMap) : Prop :=
  incl m m' /\
  forall k ps, In (k, ps) m' ->
    In (k, ps) m \/ (ps = producersOf h k /\ incl ps (map_keys m')).

(** The roots [getSignalGraph] starts from (its [signalNodes]). *)
Definition signalNodes (resolverToEffects : nat -> option (list nat))
    (lView : ViewValue) (templateConsumer : option nat) : list nat :=
  match templateConsumer with
  | Some c => c :: extractEffectsFromInjector resolverToEffects lView
  | None => extractEffectsFromInjector resolverToEffects lView
  end.

(** What the callback of [nodes.map] returns for the node [x]. *)
Definition describe (h : Store) (x : nat) : DebugSignalGraphNode :=
  fst (describeNode x h).

End Graph.

(** [reachable h avoid roots x]: some path along producer lists leads from a
    root to [x], and no node of the path, [x] included, is in [avoid]. *)
Inductive reachable (h : Store) (avoid roots : list nat) : nat -> Prop :=
| reach_root (x : nat) :
    In x roots -> ~ In x avoid -> reachable h avoid roots x
| reach_step (x y : nat) :
    reachable h avoid roots x -> In y (producersOf h x) -> ~ In y avoid ->
    reachable h avoid roots y.

(** A template consumer 0 reading the computed nodes 1 and 2, which read each
    other (a cycle) and the signal 3; an effect 4 reading 3 and 1; node 5
    reads itself. *)
Definition demoNode (proto : Prototype) (ps : option (list nat))
    (name : option string) (v : JsValue) (isComputed : bool) : ReactiveNode :=
  {| prototype := proto; producerNode := ps; debugName := name; value := v;
     computation := isComputed; sourceValue := JsUndefined;
     hostTagName := Some "APP-ROOT"%string |}.

Definition demoStore : Store :=
  fun x =>
    match x with
    | 0 => demoNode REACTIVE_LVIEW_CONSUMER_NODE (Some [1; 2]) None
             JsUndefined false
    | 1 => demoNode OtherPrototype (Some [2; 3]) (Some "double"%string)
             (JsNumber 4) true
    | 2 => demoNode OtherPrototype (Some [1]) (Some "again"%string)
             (JsNumber 4) true
    | 3 => demoNode SIGNAL_NODE None (Some "count"%string) (JsNumber 2) false
    | 4 => demoNode ROOT_EFFECT_NODE (Some [3; 1]) (Some "log"%string)
             JsUndefined false
    | 5 => demoNode OtherPrototype (Some [5]) None JsUndefined false
    | _ => demoNode OtherPrototype None None JsUndefined false
    end.

(** The effects registered for the [LView] 7 are the nodes 4 and 5. *)
Definition demoEffects (lView : nat) : option (list nat) :=
  match lView with
  | 7 => Some [4; 5]
  | _ => None
  end.

(** Slot 2 of the [LView] 7 holds the [LView] 8 of a component, whose
    template consumer is the node 0; its slot 3 holds a DOM element. *)
Definition demoLViews : LViews :=
  {| slot := fun id i =>
       match id, i with
       | 7, 2 => VLView 8
       | _, _ => VOther
       end;
     reactiveTemplateConsumer := fun id =>
       match id with
       | 8 => Some 0
       | _ => None
       end |}.

Definition demoInjector : Injector := NodeInjector (VTNode 2) (VLView 7).

(** The injector of the plain element in slot 3. *)
Definition demoElementInjector : Injector :=
  NodeInjector (VTNode 3) (VLView 7).

(** Lower case of the letters A to Z, which is what [toLowerCase] does on
    the tag names of the demo store. *)
Definition lowerAscii (c : Ascii.ascii) : Ascii.ascii :=
  let n := Ascii.nat_of_ascii c in
  if (65 <=? n) && (n <=? 90) then Ascii.ascii_of_nat (n + 32) else c.

Fixpoint demoLowerCase (s : string) : string :=
  match s with
  | EmptyString => EmptyString
  | String c s' => String (lowerAscii c) (demoLowerCase s')
  end.

(** The dependency map and the graph of the demo store, from the roots 0, 4
    and 5. *)
Definition demoMap : JsMap :=
  [(0, [1; 2]); (1, [2; 3]); (2, [1]); (3, []); (4, [3; 1]); (5, [5])].

Definition demoGraph : DebugSignalGraph :=
  {| nodes :=
       [ {| kind := "template"; label := Some "app-root"%string;
            nodeValue := None |};
         {| kind := "computed"; label := Some "double"%string;
            nodeValue := Some (JsNumber 4) |};
         {| kind := "computed"; label := Some "again"%string;
            nodeValue := Some (JsNumber 4) |};
         {| kind := "signal"; label := Some "count"%string;
            nodeValue := Some (JsNumber 2) |};
         {| kind := "effect"; label := Some "log"%string;
            nodeValue := None |};
         {| kind := "unknown"; label := None; nodeValue := None |} ];
     edges :=
       [ {| consumer := 0; producer := 1 |};
         {| consumer := 0; producer := 2 |};
         {| consumer := 1; producer := 2 |};
         {| consumer := 1; producer := 3 |};
         {| consumer := 2; producer := 1 |};
         {| consumer := 4; producer := 3 |};
         {| consumer := 4; producer := 1 |};
         {| consumer := 5; producer := 5 |} ] |}.

End SignalDebug.

(** * Properties *)

(** ** Facts about identity-keyed sets *)

Module JsSetFacts.

Import JsSet.

Lemma elements_app (a b : t) : elements (a ++ b) = elements a ++ elements b.
Proof.
  induction a as [|[x|] a IH]; simpl; auto.
  now rewrite IH.
Qed.

Lemma has_In (s : t) (x : nat) : has s x = true <-> In x (elements s).
Proof.
  unfold has.
  induction s as [|[y|] s IH]; simpl.
  - split; [discriminate | tauto].
  - rewrite orb_true_iff, IH, Nat.eqb_eq. intuition congruence.
  - exact IH.
Qed.

Lemma has_false_In (s : t) (x : nat) : has s x = false <-> ~ In x (elements s).
Proof.
  rewrite <- has_In. destruct (has s x); intuition congruence.
Qed.

Lemma elements_add (s : t) (x : nat) :
  elements (add s x) = if has s x then elements s else elements s ++ [x].
Proof.
  unfold add. destruct (has s x); auto.
  now rewrite elements_app.
Qed.

Lemma In_elements_add (s : t) (x y : nat) :
  In y (elements (add s x)) <-> y = x \/ In y (elements s).
Proof.
  rewrite elements_add. destruct (has s x) eqn:E.
  - apply has_In in E. intuition congruence.
  - rewrite in_app_iff. simpl. intuition congruence.
Qed.

Lemma wf_add (s : t) (x : nat) : wf s -> wf (add s x).
Proof.
  unfold wf. rewrite elements_add. destruct (has s x) eqn:E; auto.
  intros H. apply has_false_In in E.
  apply NoDup_rev in H. rewrite <- (rev_involutive (elements s ++ [x])).
  apply NoDup_rev. rewrite rev_app_distr. simpl. constructor; auto.
  now rewrite <- in_rev.
Qed.

Lemma elements_delete (s : t) (x : nat) :
  elements (delete s x) = filter (fun y => negb (Nat.eqb x y)) (elements s).
Proof.
  unfold delete.
  induction s as [|[y|] s IH]; simpl; auto.
  destruct (Nat.eqb x y); simpl; auto. now rewrite IH.
Qed.

Lemma In_elements_delete (s : t) (x y : nat) :
  In y (elements (delete s x)) <-> y <> x /\ In y (elements s).
Proof.
  rewrite elements_delete, filter_In, negb_true_iff, Nat.eqb_neq.
  intuition congruence.
Qed.

Lemma wf_delete (s : t) (x : nat) : wf s -> wf (delete s x).
Proof.
  unfold wf. rewrite elements_delete. apply NoDup_filter.
Qed.

Lemma length_delete (s : t) (x : nat) : length (delete s x) = length s.
Proof. unfold delete. apply length_map. Qed.

(** Deleting a value that is not a member changes nothing. *)
Lemma delete_absent (s : t) (x : nat) : ~ In x (elements s) -> delete s x = s.
Proof.
  unfold delete.
  induction s as [|[y|] s IH]; simpl; intros H; auto.
  - destruct (Nat.eqb_spec x y) as [->|_]; [tauto|].
    f_equal. apply IH. tauto.
  - f_equal. now apply IH.
Qed.

Lemma skipn_delete (s : t) (x : nat) (i : nat) :
  skipn i (delete s x) = delete (skipn i s) x.
Proof. unfold delete. apply skipn_map. Qed.

Lemma elements_clear (s : t) : elements (clear s) = [].
Proof. unfold clear. induction s; simpl; auto. Qed.

(** The entry list seen from a position where iteration stands. *)
Lemma skipn_nth_error_cons {A : Type} (l : list A) (i : nat) (a : A) :
  nth_error l i = Some a -> skipn i l = a :: skipn (S i) l.
Proof.
  revert i. induction l as [|b l IH]; intros [|i]; simpl; try discriminate.
  - now intros [= ->].
  - intros H. now rewrite (IH _ H).
Qed.

Lemma skipn_nth_error_nil {A : Type} (l : list A) (i : nat) :
  nth_error l i = None -> skipn i l = [].
Proof.
  intros H. apply skipn_all2. now apply nth_error_None.
Qed.

(** A well-formed set does not hold the member found at slot [i] at any
    later slot. *)
Lemma wf_later_slots (s : t) (i x : nat) :
  wf s -> nth_error s i = Some (Some x) ->
  ~ In x (elements (skipn (S i) s)).
Proof.
  unfold wf. intros H E.
  rewrite <- (firstn_skipn i s), (skipn_nth_error_cons _ _ _ E) in H.
  rewrite elements_app in H. simpl in H.
  apply NoDup_remove_2 in H. rewrite in_app_iff in H. tauto.
Qed.

End JsSetFacts.

(** ** The after-render manager: loops and snapshots *)

Module AfterRenderLoops.

Import JsSet JsSetFacts AfterRender.

Section Loops.

Context {W : Type}.

(** *** Completions *)

Lemma handlerState_eq (err : JsValue) (st : @State W) :
  handlerState err st =
  match errorHandler st with
  | Some handler =>
      set_world (afterHandler (handler err (world st)))
        (emit (EvHandleError err) st)
  | None => st
  end.
Proof.
  unfold handlerState, handleError.
  destruct (errorHandler st) as [handler|]; [|reflexivity].
  cbn zeta. destruct (handlerThrows _); reflexivity.
Qed.

Lemma hookState_eq (phase : AfterRenderPhase) (x : nat) (st : @State W) :
  hookState phase x st =
  if erroredOrDestroyed (heap st x) then st
  else
    match hookAt (hooks (heap st x)) phase with
    | None => st
    | Some hook =>
        let arg := pipelinedValue (heap st x) in
        let r := hook arg (world st) in
        let st := emit (EvHook x phase arg (outcome r)) st in
        let st := runCalls (calls r) (set_world (world' r) st) in
        match outcome r with
        | Return v => modify x (with_pipelinedValue v) st
        | Throw err =>
            handlerState err (modify x (with_erroredOrDestroyed true) st)
        end
    end.
Proof.
  unfold hookState, runHook, handlerState.
  destruct (erroredOrDestroyed (heap st x)); [reflexivity|].
  destruct (hookAt (hooks (heap st x)) phase) as [hook|]; [|reflexivity].
  cbn zeta. destruct (outcome _); reflexivity.
Qed.

(** The error handler touches the user state and the trace only. *)
Lemma handlerState_fields (err : JsValue) (st : @State W) :
  sequences (handlerState err st) = sequences st /\
  deferredRegistrations (handlerState err st) = deferredRegistrations st /\
  executing (handlerState err st) = executing st /\
  errorHandler (handlerState err st) = errorHandler st /\
  heap (handlerState err st) = heap st /\
  views (handlerState err st) = views st /\
  trace (handlerState err st) =
    trace st ++ (if hasHandler st then [EvHandleError err] else []).
Proof.
  rewrite handlerState_eq. unfold hasHandler.
  destruct (errorHandler st) as [handler|] eqn:E; cbn.
  - rewrite E. repeat split.
  - rewrite E, app_nil_r. repeat split.
Qed.

(** With an error handler that never throws, [handleError] returns. *)
Lemma handleError_safe (err : JsValue) (st : @State W) :
  handlerSafe st -> handleError err st = Normal (handlerState err st).
Proof.
  intros Hs. unfold handlerState, handleError.
  destruct (errorHandler st) as [handler|] eqn:E; [|reflexivity].
  cbn zeta. rewrite (Hs handler err (world st) E). reflexivity.
Qed.

(** Iteration over a live set agrees with iteration over a snapshot as long
    as the body leaves the slots after the current one alone: when the loop
    comes to its end, it has computed what the snapshot loop computes. *)
Lemma forOf_normal (I : @State W -> Prop) (set : @State W -> JsSet.t)
    (body : nat -> @State W -> Completion)
    (pure : nat -> @State W -> @State W) :
  (forall i x st, I st -> nth_error (set st) i = Some (Some x) ->
     stateOf (body x st) = pure x st /\
     I (pure x st) /\
     skipn (S i) (set (pure x st)) = skipn (S i) (set st)) ->
  forall fuel i st st', I st ->
    forOf fuel set body i st = Some (Normal st') ->
    st' = forEach pure (elements (skipn i (set st))) st.
Proof.
  intros Hbody. induction fuel as [|fuel IH]; intros i st st' HI H;
    [discriminate|].
  simpl forOf in H. destruct (nth_error (set st) i) as [[x|]|] eqn:E.
  - destruct (Hbody i x st HI E) as (Hp & HI' & Hs).
    rewrite (skipn_nth_error_cons _ _ _ E). cbn [elements forEach fold_left].
    fold (forEach pure (elements (skipn (S i) (set st))) (pure x st)).
    destruct (body x st) as [s1|thrown s1]; [|discriminate].
    cbn [stateOf] in Hp. subst s1.
    rewrite (IH (S i) _ _ HI' H), Hs. reflexivity.
  - rewrite (IH (S i) _ _ HI H).
    rewrite (skipn_nth_error_cons _ _ _ E). reflexivity.
  - injection H as <-. apply nth_error_None in E.
    rewrite skipn_all2 by lia. reflexivity.
Qed.

(** A loop whose body always completes comes to its end, given the fuel. *)
Lemma forOf_snapshot (I : @State W -> Prop) (set : @State W -> JsSet.t)
    (body : nat -> @State W -> Completion)
    (pure : nat -> @State W -> @State W) :
  (forall i x st, I st -> nth_error (set st) i = Some (Some x) ->
     body x st = Normal (pure x st) /\
     I (pure x st) /\
     skipn (S i) (set (pure x st)) = skipn (S i) (set st)) ->
  forall fuel i st, I st ->
    forOf fuel set body i st =
    if length (set st) - i <? fuel
    then Some (Normal (forEach pure (elements (skipn i (set st))) st))
    else None.
Proof.
  intros Hbody. induction fuel as [|fuel IH]; intros i st HI.
  - cbn [forOf]. destruct (Nat.ltb_spec (length (set st) - i) 0); [lia|reflexivity].
  - simpl forOf. destruct (nth_error (set st) i) as [[x|]|] eqn:E.
    + destruct (Hbody i x st HI E) as (-> & HI' & Hs).
      rewrite (IH (S i) _ HI'), Hs.
      assert (Hlen : length (set (pure x st)) - S i = length (set st) - S i).
      { rewrite <- !length_skipn. now rewrite Hs. }
      rewrite Hlen.
      assert (Hi : i < length (set st))
        by (apply nth_error_Some; congruence).
      replace (length (set st) - i <? S fuel)
        with (length (set st) - S i <? fuel)
        by (destruct (Nat.ltb_spec (length (set st) - S i) fuel);
            destruct (Nat.ltb_spec (length (set st) - i) (S fuel)); lia).
      rewrite (skipn_nth_error_cons _ _ _ E). reflexivity.
    + rewrite (IH (S i) _ HI).
      assert (Hi : i < length (set st))
        by (apply nth_error_Some; congruence).
      replace (length (set st) - i <? S fuel)
        with (length (set st) - S i <? fuel)
        by (destruct (Nat.ltb_spec (length (set st) - S i) fuel);
            destruct (Nat.ltb_spec (length (set st) - i) (S fuel)); lia).
      rewrite (skipn_nth_error_cons _ _ _ E). reflexivity.
    + apply nth_error_None in E.
      replace (length (set st) - i) with 0 by lia.
      rewrite skipn_all2 by lia. reflexivity.
Qed.

(** *** What a call into the manager leaves alone *)

Lemma sameConfig_trans (st1 st2 st3 : @State W) :
  sameConfig st1 st2 -> sameConfig st2 st3 -> sameConfig st1 st3.
Proof. unfold sameConfig. intuition congruence. Qed.

Lemma register_sameConfig (x : nat) (st : @State W) :
  sameConfig st (register x st).
Proof.
  unfold register, sameConfig.
  destruct (negb (executing (emit (EvRegister x (executing st)) st)));
    repeat split.
Qed.

Lemma unregister_sameConfig (x : nat) (st : @State W) :
  sameConfig st (unregister x st).
Proof.
  unfold unregister, sameConfig.
  destruct (executing st && has (sequences st) x); repeat split.
Qed.

Lemma queueRegistration_sameConfig (x : nat) (st : @State W) :
  sameConfig st (queueRegistration x st).
Proof.
  unfold queueRegistration.
  destruct (view (heap st x)); [|apply register_sameConfig].
  destruct (negb (executing st)); [|apply register_sameConfig].
  repeat split.
Qed.

Lemma destroy_sameConfig (x : nat) (st : @State W) :
  sameConfig st (destroy x st).
Proof.
  unfold destroy.
  set (st1 := unregister x (emit (EvDestroy x) st)).
  assert (H1 : sameConfig st st1).
  { apply (sameConfig_trans st (emit (EvDestroy x) st));
      [repeat split | apply unregister_sameConfig]. }
  set (st2 := if unregisterOnDestroy (heap st1 x)
              then emit (EvUnregisterOnDestroy x) st1 else st1).
  assert (H2 : sameConfig st st2).
  { unfold st2. destruct (unregisterOnDestroy (heap st1 x)); exact H1. }
  destruct (view (heap st2 x)); [|exact H2].
  destruct (afterRenderSequencesToRegister (views st2 n)); exact H2.
Qed.

Lemma runCall_sameConfig (c : Call) (st : @State W) :
  sameConfig st (runCall c st).
Proof.
  destruct c; cbn [runCall];
    auto using register_sameConfig, queueRegistration_sameConfig,
      unregister_sameConfig, destroy_sameConfig.
Qed.

Lemma runCall_executing (c : Call) (st : @State W) :
  executing (runCall c st) = executing st.
Proof. apply runCall_sameConfig. Qed.

Lemma runCall_errorHandler (c : Call) (st : @State W) :
  errorHandler (runCall c st) = errorHandler st.
Proof. apply runCall_sameConfig. Qed.

Lemma runCall_world (c : Call) (st : @State W) :
  world (runCall c st) = world st.
Proof. apply runCall_sameConfig. Qed.

Lemma unregister_sequences (x : nat) (st : @State W) :
  executing st = true ->
  sequences (unregister x st) = sequences st.
Proof.
  intros E. unfold unregister. rewrite E. cbn.
  destruct (has (sequences st) x) eqn:H; cbn; auto.
  apply delete_absent. now apply has_false_In.
Qed.

Lemma runCall_sequences (c : Call) (st : @State W) :
  executing st = true ->
  sequences (runCall c st) = sequences st.
Proof.
  intros E. destruct c as [x|x|x|x]; cbn [runCall].
  - unfold register. cbn. rewrite E. reflexivity.
  - unfold queueRegistration, register. rewrite E. cbn.
    destruct (view (heap st x)); cbn; rewrite E; reflexivity.
  - now apply unregister_sequences.
  - unfold destroy.
    pose proof (unregister_sequences x (emit (EvDestroy x) st) E) as H.
    change (sequences (emit (EvDestroy x) st)) with (sequences st) in H.
    destruct (unregisterOnDestroy _);
      cbn; destruct (view _); cbn; auto;
      destruct (afterRenderSequencesToRegister _); cbn; auto.
Qed.

Lemma runCalls_executing (cs : list Call) (st : @State W) :
  executing (runCalls cs st) = executing st.
Proof.
  revert st. induction cs as [|c cs IH]; intros st; cbn; auto.
  fold (runCalls cs (runCall c st)). now rewrite IH, runCall_executing.
Qed.

Lemma runCalls_errorHandler (cs : list Call) (st : @State W) :
  errorHandler (runCalls cs st) = errorHandler st.
Proof.
  revert st. induction cs as [|c cs IH]; intros st; cbn; auto.
  fold (runCalls cs (runCall c st)). now rewrite IH, runCall_errorHandler.
Qed.

Lemma runCalls_sequences (cs : list Call) (st : @State W) :
  executing st = true ->
  sequences (runCalls cs st) = sequences st.
Proof.
  revert st. induction cs as [|c cs IH]; intros st E; cbn; auto.
  fold (runCalls cs (runCall c st)).
  rewrite IH by now rewrite runCall_executing.
  now apply runCall_sequences.
Qed.

Lemma hookState_executing (p : AfterRenderPhase) (x : nat) (st : @State W) :
  executing (hookState p x st) = executing st.
Proof.
  rewrite hookState_eq.
  destruct (erroredOrDestroyed (heap st x)); auto.
  destruct (hookAt (hooks (heap st x)) p) as [h|]; auto.
  cbn zeta. destruct (outcome _) as [v|err].
  - cbn. now rewrite runCalls_executing.
  - destruct (handlerState_fields err
                (modify x (with_erroredOrDestroyed true)
                   (runCalls (calls (h (pipelinedValue (heap st x)) (world st)))
                      (set_world
                         (world' (h (pipelinedValue (heap st x)) (world st)))
                         (emit (EvHook x p (pipelinedValue (heap st x))
                                  (Throw err)) st)))))
      as (_ & _ & -> & _).
    cbn. now rewrite runCalls_executing.
Qed.

Lemma hookState_errorHandler (p : AfterRenderPhase) (x : nat) (st : @State W) :
  errorHandler (hookState p x st) = errorHandler st.
Proof.
  rewrite hookState_eq.
  destruct (erroredOrDestroyed (heap st x)); auto.
  destruct (hookAt (hooks (heap st x)) p) as [h|]; auto.
  cbn zeta. destruct (outcome _) as [v|err].
  - cbn. now rewrite runCalls_errorHandler.
  - destruct (handlerState_fields err
                (modify x (with_erroredOrDestroyed true)
                   (runCalls (calls (h (pipelinedValue (heap st x)) (world st)))
                      (set_world
                         (world' (h (pipelinedValue (heap st x)) (world st)))
                         (emit (EvHook x p (pipelinedValue (heap st x))
                                  (Throw err)) st)))))
      as (_ & _ & _ & -> & _).
    cbn. now rewrite runCalls_errorHandler.
Qed.

Lemma hookState_sequences (p : AfterRenderPhase) (x : nat) (st : @State W) :
  executing st = true ->
  sequences (hookState p x st) = sequences st.
Proof.
  intros E. rewrite hookState_eq.
  destruct (erroredOrDestroyed (heap st x)); auto.
  destruct (hookAt (hooks (heap st x)) p) as [h|]; auto.
  cbn zeta. destruct (outcome _) as [v|err].
  - cbn. now rewrite runCalls_sequences.
  - destruct (handlerState_fields err
                (modify x (with_erroredOrDestroyed true)
                   (runCalls (calls (h (pipelinedValue (heap st x)) (world st)))
                      (set_world
                         (world' (h (pipelinedValue (heap st x)) (world st)))
                         (emit (EvHook x p (pipelinedValue (heap st x))
                                  (Throw err)) st)))))
      as (-> & _).
    cbn. now rewrite runCalls_sequences.
Qed.

Lemma handlerSafe_same (st st' : @State W) :
  errorHandler st' = errorHandler st -> handlerSafe st -> handlerSafe st'.
Proof. unfold handlerSafe. intros ->. auto. Qed.

Lemma hookState_handlerSafe (p : AfterRenderPhase) (x : nat)
    (st : @State W) :
  handlerSafe st -> handlerSafe (hookState p x st).
Proof. apply handlerSafe_same, hookState_errorHandler. Qed.

(** With an error handler that never throws, a turn of the inner loop
    completes. *)
Lemma runHook_safe (p : AfterRenderPhase) (x : nat) (st : @State W) :
  handlerSafe st -> runHook p x st = Normal (hookState p x st).
Proof.
  intros Hs. unfold hookState, runHook.
  destruct (erroredOrDestroyed (heap st x)); [reflexivity|].
  destruct (hookAt (hooks (heap st x)) p) as [h|]; [|reflexivity].
  cbn zeta. destruct (outcome _); [reflexivity|].
  rewrite handleError_safe; [reflexivity|].
  apply (handlerSafe_same st); [|exact Hs].
  cbn [modify set_heap errorHandler]. now rewrite runCalls_errorHandler.
Qed.

Lemma forEach_hookState_frame (p : AfterRenderPhase) (xs : list nat)
    (st : @State W) :
  executing st = true ->
  executing (forEach (hookState p) xs st) = true /\
  sequences (forEach (hookState p) xs st) = sequences st.
Proof.
  revert st. induction xs as [|x xs IH]; intros st E; cbn; auto.
  fold (forEach (hookState p) xs (hookState p x st)).
  destruct (IH (hookState p x st)) as [IH1 IH2].
  { now rewrite hookState_executing. }
  split; auto. now rewrite IH2, hookState_sequences.
Qed.

Lemma phasesSnapshot_frame (phases : list AfterRenderPhase) (st : @State W) :
  executing st = true ->
  executing (phasesSnapshot phases st) = true /\
  sequences (phasesSnapshot phases st) = sequences st.
Proof.
  revert st. induction phases as [|p ps IH]; intros st E; cbn; auto.
  fold (phasesSnapshot ps (phaseSnapshot p st)).
  destruct (forEach_hookState_frame p (elements (sequences st)) st E)
    as [F1 F2].
  destruct (IH (phaseSnapshot p st) F1) as [IH1 IH2].
  split; auto. rewrite IH2. exact F2.
Qed.

(** *** The loops of [execute] and their snapshots *)

Lemma forOf_hookState_normal (fuel : nat) (p : AfterRenderPhase)
    (st st' : @State W) :
  executing st = true ->
  forOf fuel sequences (runHook p) 0 st = Some (Normal st') ->
  st' = phaseSnapshot p st.
Proof.
  intros E H.
  apply (forOf_normal (fun s => executing s = true) sequences (runHook p)
           (hookState p)) in H; auto.
  intros i x s Hs _. split; [reflexivity|]. split.
  - now rewrite hookState_executing.
  - now rewrite hookState_sequences.
Qed.

Lemma forOf_hookState (fuel : nat) (p : AfterRenderPhase) (st : @State W) :
  executing st = true -> handlerSafe st ->
  forOf fuel sequences (runHook p) 0 st =
  if length (sequences st) <? fuel
  then Some (Normal (phaseSnapshot p st)) else None.
Proof.
  intros E Hs.
  rewrite (forOf_snapshot (fun s => executing s = true /\ handlerSafe s)
             sequences (runHook p) (hookState p)); auto.
  - now rewrite Nat.sub_0_r.
  - intros i x s [He Hh] _. split; [now apply runHook_safe|]. split.
    + split; [now rewrite hookState_executing|].
      now apply hookState_handlerSafe.
    + now rewrite hookState_sequences.
Qed.

Lemma forEach_hookState_handlerSafe (p : AfterRenderPhase) (xs : list nat)
    (st : @State W) :
  handlerSafe st -> handlerSafe (forEach (hookState p) xs st).
Proof.
  revert st. induction xs as [|x xs IH]; intros st Hs; cbn; auto.
  fold (forEach (hookState p) xs (hookState p x st)).
  apply IH. now apply hookState_handlerSafe.
Qed.

Lemma runPhases_normal (fuel : nat) (phases : list AfterRenderPhase)
    (st st' : @State W) :
  executing st = true ->
  runPhases fuel phases st = Some (Normal st') ->
  st' = phasesSnapshot phases st.
Proof.
  revert st. induction phases as [|p ps IH]; intros st E H;
    cbn [runPhases] in H.
  - now injection H as <-.
  - destruct (forOf fuel sequences (runHook p) 0 st) as [[s1|thrown s1]|]
      eqn:F; try discriminate.
    apply (forOf_hookState_normal fuel p st s1 E) in F. subst s1.
    destruct (forEach_hookState_frame p (elements (sequences st)) st E)
      as [F1 _].
    apply (IH _ F1 H).
Qed.

Lemma runPhases_snapshot (fuel : nat) (phases : list AfterRenderPhase)
    (st : @State W) :
  executing st = true -> handlerSafe st ->
  runPhases fuel phases st =
  match phases with
  | [] => Some (Normal st)
  | _ :: _ =>
      if length (sequences st) <? fuel
      then Some (Normal (phasesSnapshot phases st)) else None
  end.
Proof.
  revert st. induction phases as [|p ps IH]; intros st E Hs;
    cbn [runPhases]; auto.
  rewrite forOf_hookState by assumption.
  destruct (length (sequences st) <? fuel) eqn:F; auto.
  destruct (forEach_hookState_frame p (elements (sequences st)) st E)
    as [F1 F2].
  rewrite IH; [|exact F1|now apply forEach_hookState_handlerSafe].
  destruct ps as [|q ps]; [reflexivity|].
  unfold phaseSnapshot at 1. rewrite F2, F. reflexivity.
Qed.

Lemma cleanupOne_sequences (x : nat) (st : @State W) :
  executing st = false ->
  sequences (cleanupOne x st) = sequences st \/
  sequences (cleanupOne x st) = delete (delete (sequences st) x) x.
Proof.
  intros E. unfold cleanupOne.
  destruct (once (heap (afterRun x st) x)); [|left; reflexivity].
  right. unfold destroy, unregister. cbn. rewrite E. cbn.
  repeat match goal with
         | |- context [match ?b with _ => _ end] => destruct b; cbn
         end; reflexivity.
Qed.

Lemma cleanupOne_executing (x : nat) (st : @State W) :
  executing (cleanupOne x st) = executing st.
Proof.
  unfold cleanupOne.
  destruct (once (heap (afterRun x st) x)); [|reflexivity].
  unfold destroy, unregister. cbn.
  repeat match goal with
         | |- context [match ?b with _ => _ end] => destruct b; cbn
         end; reflexivity.
Qed.

Lemma forOf_cleanupOne (fuel : nat) (st : @State W) :
  wf (sequences st) -> executing st = false ->
  forOf fuel sequences (completes cleanupOne) 0 st =
  if length (sequences st) <? fuel
  then Some (Normal (cleanupSnapshot st)) else None.
Proof.
  intros Hwf E.
  rewrite (forOf_snapshot
             (fun s => wf (sequences s) /\ executing s = false)
             sequences (completes cleanupOne) cleanupOne); auto.
  - now rewrite Nat.sub_0_r.
  - intros i x s [Hw He] Hx. split; [reflexivity|].
    pose proof (wf_later_slots _ _ _ Hw Hx) as Hlater.
    rewrite cleanupOne_executing.
    destruct (cleanupOne_sequences x s He) as [-> | ->]; auto.
    split; [split; auto using wf_delete|].
    rewrite !skipn_delete.
    now rewrite !(delete_absent _ _ Hlater).
Qed.

Lemma forOf_addDeferred (fuel : nat) (st : @State W) :
  forOf fuel deferredRegistrations (completes addDeferred) 0 st =
  if length (deferredRegistrations st) <? fuel
  then Some (Normal
               (forEach addDeferred (elements (deferredRegistrations st)) st))
  else None.
Proof.
  rewrite (forOf_snapshot (fun _ => True) deferredRegistrations
             (completes addDeferred) addDeferred); auto.
  now rewrite Nat.sub_0_r.
Qed.

Lemma flushDeferred_snapshot (fuel : nat) (st : @State W) :
  flushDeferred fuel st =
  if length (deferredRegistrations st) <? fuel
  then Some (Normal (flushSnapshot st)) else None.
Proof.
  unfold flushDeferred. rewrite forOf_addDeferred.
  destruct (length (deferredRegistrations st) <? fuel); reflexivity.
Qed.

Lemma afterPhases_frame (st : @State W) :
  sequences (phasesSnapshot AFTER_RENDER_PHASES (set_executing true st)) =
  sequences st.
Proof.
  destruct (phasesSnapshot_frame AFTER_RENDER_PHASES
              (set_executing true st) eq_refl) as [_ F2].
  exact F2.
Qed.

(** When the phases and the cleanup step come to their end, they have
    computed what their snapshots compute. *)
Lemma executeUntilCleanup_normal (fuel : nat) (st st' : @State W) :
  wf (sequences st) ->
  executeUntilCleanup fuel st = Some (Normal st') ->
  st' = untilCleanupSnapshot st /\ length (sequences st) < fuel.
Proof.
  intros Hwf. unfold executeUntilCleanup, untilCleanupSnapshot.
  destruct (runPhases fuel AFTER_RENDER_PHASES (set_executing true st))
    as [[s1|thrown s1]|] eqn:R; try discriminate.
  apply runPhases_normal in R; [|reflexivity]. subst s1.
  set (st1 := phasesSnapshot AFTER_RENDER_PHASES (set_executing true st)).
  assert (F2 : sequences st1 = sequences st) by apply afterPhases_frame.
  rewrite forOf_cleanupOne.
  - change (sequences (set_executing false st1)) with (sequences st1).
    rewrite F2.
    destruct (Nat.ltb_spec (length (sequences st)) fuel); [|discriminate].
    intros [= <-]. split; [reflexivity|assumption].
  - change (sequences (set_executing false st1)) with (sequences st1).
    now rewrite F2.
  - reflexivity.
Qed.

Lemma executeUntilCleanup_snapshot (fuel : nat) (st : @State W) :
  wf (sequences st) -> handlerSafe st ->
  executeUntilCleanup fuel st =
  if length (sequences st) <? fuel
  then Some (Normal (untilCleanupSnapshot st)) else None.
Proof.
  intros Hwf Hs. unfold executeUntilCleanup, untilCleanupSnapshot.
  rewrite runPhases_snapshot; [|reflexivity|exact Hs].
  unfold AFTER_RENDER_PHASES at 1.
  change (sequences (set_executing true st)) with (sequences st).
  destruct (length (sequences st) <? fuel) eqn:F; auto.
  fold AFTER_RENDER_PHASES.
  set (st1 := phasesSnapshot AFTER_RENDER_PHASES (set_executing true st)).
  assert (F2 : sequences st1 = sequences st) by apply afterPhases_frame.
  rewrite forOf_cleanupOne.
  - change (sequences (set_executing false st1)) with (sequences st1).
    rewrite F2, F. reflexivity.
  - change (sequences (set_executing false st1)) with (sequences st1).
    now rewrite F2.
  - reflexivity.
Qed.

(** On a well-formed manager, when [execute] returns it returns the state
    computed over snapshots. *)
Lemma execute_snapshot (fuel : nat) (st st' : @State W) :
  wf (sequences st) ->
  execute fuel st = Some (Normal st') -> st' = executeSnapshot st.
Proof.
  intros Hwf. unfold execute.
  destruct (executeUntilCleanup fuel st) as [[s1|thrown s1]|] eqn:U;
    try discriminate.
  apply executeUntilCleanup_normal in U; [|exact Hwf].
  destruct U as [-> _].
  rewrite flushDeferred_snapshot.
  destruct (_ <? fuel); [|discriminate].
  now intros [= <-].
Qed.

(** When [execute] returns, the phases and the cleanup step came to their
    end. *)
Lemma execute_until (fuel : nat) (st st' : @State W) :
  wf (sequences st) ->
  execute fuel st = Some (Normal st') ->
  executeUntilCleanup fuel st = Some (Normal (untilCleanupSnapshot st)).
Proof.
  intros Hwf. unfold execute.
  destruct (executeUntilCleanup fuel st) as [[s1|thrown s1]|] eqn:U;
    try discriminate.
  apply executeUntilCleanup_normal in U; [|exact Hwf].
  destruct U as [-> _]. reflexivity.
Qed.

Lemma executeUntilCleanup_enough (fuel : nat) (st : @State W) :
  wf (sequences st) -> handlerSafe st -> enoughFuel st <= fuel ->
  executeUntilCleanup fuel st = Some (Normal (untilCleanupSnapshot st)).
Proof.
  intros Hwf Hs Hfuel. unfold enoughFuel in Hfuel.
  rewrite executeUntilCleanup_snapshot by assumption.
  destruct (Nat.ltb_spec (length (sequences st)) fuel); [reflexivity|lia].
Qed.

(** [execute] returns when the error handler does not throw: any fuel from
    [enoughFuel st] on is enough. *)
Lemma execute_enough (fuel : nat) (st : @State W) :
  wf (sequences st) -> handlerSafe st -> enoughFuel st <= fuel ->
  execute fuel st = Some (Normal (executeSnapshot st)).
Proof.
  intros Hwf Hs Hfuel. unfold execute.
  rewrite executeUntilCleanup_enough by assumption.
  rewrite flushDeferred_snapshot. unfold enoughFuel in Hfuel.
  destruct (Nat.ltb_spec
              (length (deferredRegistrations (untilCleanupSnapshot st)))
              fuel); [reflexivity|lia].
Qed.

End Loops.

End AfterRenderLoops.

(** ** The after-render manager: events and state *)

Module AfterRenderTrace.

Import JsSet JsSetFacts AfterRender AfterRenderLoops.

Section Trace.

Context {W : Type}.

Lemma mark_mark (q : @AfterRenderSequence W) : mark (mark q) = mark q.
Proof. reflexivity. Qed.

Lemma callsSpec_refl (st : @State W) : callsSpec st st [].
Proof.
  unfold callsSpec. cbn. rewrite app_nil_r.
  repeat split; auto; try discriminate; tauto.
Qed.

Lemma callsSpec_trans (st st1 st2 : @State W) (evs1 evs2 : list Event) :
  sequences st1 = sequences st ->
  callsSpec st st1 evs1 -> callsSpec st1 st2 evs2 ->
  callsSpec st st2 (evs1 ++ evs2).
Proof.
  intros S (T1 & C1 & H1 & D1 & M1 & U1) (T2 & C2 & H2 & D2 & M2 & U2).
  unfold callsSpec. repeat split.
  - now rewrite T2, T1, app_assoc.
  - apply Forall_app. now split.
  - intros y. rewrite H2, H1, existsb_app.
    destruct (existsb (isMarkOf y) evs1), (existsb (isMarkOf y) evs2);
      reflexivity.
  - now rewrite D2, D1, fold_left_app.
  - intros y. rewrite existsb_app, orb_true_iff. intros [H|H].
    + now apply M1.
    + rewrite <- S. now apply M2.
  - intros y. rewrite in_app_iff. intros [H|H].
    + now apply U1.
    + rewrite <- S. now apply U2.
Qed.

Lemma register_spec (x : nat) (st : @State W) :
  executing st = true ->
  callsSpec st (register x st) [EvRegister x true].
Proof.
  intros E. unfold callsSpec, register. cbn. rewrite E. cbn.
  repeat split; auto; try discriminate.
  intros y [H|[]]. discriminate.
Qed.

Lemma unregister_spec (x : nat) (st : @State W) :
  executing st = true ->
  callsSpec st (unregister x st)
    [EvUnregister x (has (sequences st) x)].
Proof.
  intros E. unfold callsSpec, unregister. rewrite E. cbn [andb].
  destruct (has (sequences st) x) eqn:H; cbn.
  - repeat split; auto; try discriminate.
    + intros y. unfold upd. rewrite (Nat.eqb_sym x y), orb_false_r.
      destruct (Nat.eqb_spec y x) as [->|N]; [|reflexivity].
      rewrite !Nat.eqb_refl. reflexivity.
    + intros y. rewrite orb_false_r. intros ->%Nat.eqb_eq.
      now apply has_In.
    + intros y [F|[]]. discriminate.
  - repeat split; auto; try discriminate.
    intros y [[= ->]|[]]. now apply has_false_In.
Qed.

Lemma destroy_spec (x : nat) (st : @State W) :
  executing st = true ->
  exists evs, callsSpec st (destroy x st) evs.
Proof.
  intros E. unfold destroy.
  set (st0 := emit (EvDestroy x) st).
  assert (S0 : callsSpec st st0 [EvDestroy x]).
  { unfold callsSpec, st0. cbn. repeat split; auto; try discriminate.
    intros y [F|[]]. discriminate. }
  assert (S1 := unregister_spec x st0 E).
  change (sequences st0) with (sequences st) in S1.
  pose proof (callsSpec_trans st st0 _ _ _ eq_refl S0 S1) as S2.
  set (st1 := unregister x st0) in *.
  assert (Q1 : sequences st1 = sequences st)
    by (apply (unregister_sequences x st0 E)).
  set (st2 := if unregisterOnDestroy (heap st1 x)
              then emit (EvUnregisterOnDestroy x) st1 else st1).
  assert (S3 : exists evs, callsSpec st1 st2 evs).
  { unfold st2. destruct (unregisterOnDestroy (heap st1 x)).
    - exists [EvUnregisterOnDestroy x]. unfold callsSpec. cbn.
      repeat split; auto; try discriminate.
      intros y [F|[]]. discriminate.
    - exists []. apply callsSpec_refl. }
  destruct S3 as [evs3 S3].
  pose proof (callsSpec_trans st st1 st2 _ _ Q1 S2 S3) as S4.
  eexists.
  destruct (view (heap st2 x)) as [v|]; [|exact S4].
  destruct (afterRenderSequencesToRegister (views st2 v)); exact S4.
Qed.

Lemma runCall_spec (c : Call) (st : @State W) :
  executing st = true ->
  exists evs, callsSpec st (runCall c st) evs.
Proof.
  intros E. destruct c as [x|x|x|x]; cbn [runCall].
  - eexists. now apply register_spec.
  - unfold queueRegistration. rewrite E. cbn [negb].
    destruct (view (heap st x)); eexists; now apply register_spec.
  - eexists. now apply unregister_spec.
  - now apply destroy_spec.
Qed.

Lemma runCalls_spec (cs : list Call) (st : @State W) :
  executing st = true ->
  exists evs, callsSpec st (runCalls cs st) evs.
Proof.
  revert st. induction cs as [|c cs IH]; intros st E.
  - exists []. apply callsSpec_refl.
  - cbn. fold (runCalls cs (runCall c st)).
    destruct (runCall_spec c st E) as [evs1 S1].
    destruct (IH (runCall c st)) as [evs2 S2].
    { now rewrite runCall_executing. }
    exists (evs1 ++ evs2).
    apply (callsSpec_trans st (runCall c st) _ evs1 evs2);
      [now apply runCall_sequences | exact S1 | exact S2].
Qed.

(** One sequence at one phase: either nothing happens, or the hook runs. *)
Lemma hookState_spec (p : AfterRenderPhase) (x : nat) (st : @State W) :
  executing st = true ->
  (hookState p x st = st /\
   (erroredOrDestroyed (heap st x) = true \/
    hookAt (hooks (heap st x)) p = None)) \/
  (exists hook evs, hookSpec p x st (hookState p x st) hook evs).
Proof.
  intros E. rewrite hookState_eq.
  destruct (erroredOrDestroyed (heap st x)) eqn:Eerr; [left; auto|].
  destruct (hookAt (hooks (heap st x)) p) as [hook|] eqn:Ehook; [|left; auto].
  right. exists hook.
  set (arg := pipelinedValue (heap st x)).
  set (r := hook arg (world st)).
  set (st1 := set_world (world' r) (emit (EvHook x p arg (outcome r)) st)).
  destruct (runCalls_spec (calls r) st1 E) as (evs & T & C & H & D & M & U).
  exists evs. unfold hookSpec. fold arg. fold r.
  rewrite Eerr.
  assert (EH : errorHandler (runCalls (calls r) st1) = errorHandler st)
    by now rewrite runCalls_errorHandler.
  change (trace st1) with (trace st ++ [EvHook x p arg (outcome r)]) in T.
  change (heap st1) with (heap st) in H.
  change (sequences st1) with (sequences st) in M, U.
  change (deferredRegistrations st1) with (deferredRegistrations st) in D.
  rewrite <- app_assoc in T. cbn [app] in T.
  set (st2 := runCalls (calls r) st1) in *.
  destruct (outcome r) as [v|err]; cbn [errorEvents finish].
  - cbn. rewrite app_nil_r. repeat split; auto.
    intros y. unfold upd. rewrite !H.
    destruct (Nat.eqb_spec y x) as [->|N]; reflexivity.
  - destruct (handlerState_fields err
                (modify x (with_erroredOrDestroyed true) st2))
      as (Fs & Fd & _ & _ & Fh & _ & Ft).
    assert (HH : hasHandler (modify x (with_erroredOrDestroyed true) st2) =
                 hasHandler st).
    { unfold hasHandler. cbn [modify set_heap errorHandler].
      now rewrite EH. }
    rewrite HH in Ft. fold st1. fold st2. rewrite Fd, Fh, Ft.
    cbn [modify set_heap trace heap deferredRegistrations].
    split; [reflexivity|]. split; [exact Ehook|].
    split; [rewrite T, <- app_assoc; reflexivity|].
    split; [exact C|]. split; [|split; [exact D|split; [exact M|exact U]]].
    intros y. unfold upd. rewrite !H.
    destruct (Nat.eqb_spec y x) as [->|N]; reflexivity.
Qed.

(** *** Loops with an invariant that knows the position *)

Lemma forEach_app (body : nat -> @State W -> @State W) (xs ys : list nat)
    (st : @State W) :
  forEach body (xs ++ ys) st = forEach body ys (forEach body xs st).
Proof. unfold forEach. apply fold_left_app. Qed.

Lemma forEach_invariant (body : nat -> @State W -> @State W)
    (Inv : list nat -> @State W -> Prop) (xs : list nat) (st : @State W) :
  Inv [] st ->
  (forall done x todo s, xs = done ++ x :: todo ->
     Inv done s -> Inv (done ++ [x]) (body x s)) ->
  Inv xs (forEach body xs st).
Proof.
  intros H0 Hstep.
  enough (G : forall todo done s, xs = done ++ todo -> Inv done s ->
                Inv (done ++ todo) (forEach body todo s)).
  { apply (G xs [] st); auto. }
  induction todo as [|x todo IH]; intros done s Hxs Hs.
  - now rewrite app_nil_r.
  - cbn. fold (forEach body todo (body x s)).
    replace (done ++ x :: todo) with ((done ++ [x]) ++ todo)
      by now rewrite <- app_assoc.
    apply IH.
    + now rewrite <- app_assoc.
    + eapply Hstep; eauto.
Qed.

Lemma phasesSnapshot_invariant (Inv : list AfterRenderPhase -> @State W -> Prop)
    (phases : list AfterRenderPhase) (st : @State W) :
  Inv [] st ->
  (forall done p todo s, phases = done ++ p :: todo ->
     Inv done s -> Inv (done ++ [p]) (phaseSnapshot p s)) ->
  Inv phases (phasesSnapshot phases st).
Proof.
  intros H0 Hstep.
  enough (G : forall todo done s, phases = done ++ todo -> Inv done s ->
                Inv (done ++ todo) (phasesSnapshot todo s)).
  { apply (G phases [] st); auto. }
  induction todo as [|x todo IH]; intros done s Hxs Hs.
  - now rewrite app_nil_r.
  - cbn. fold (phasesSnapshot todo (phaseSnapshot x s)).
    replace (done ++ x :: todo) with ((done ++ [x]) ++ todo)
      by now rewrite <- app_assoc.
    apply IH.
    + now rewrite <- app_assoc.
    + eapply Hstep; eauto.
Qed.

(** *** Sorted event lists *)

Lemma StronglySorted_app {A : Type} (R : A -> A -> Prop) (l1 l2 : list A) :
  StronglySorted R l1 -> StronglySorted R l2 ->
  (forall x y, In x l1 -> In y l2 -> R x y) ->
  StronglySorted R (l1 ++ l2).
Proof.
  induction l1 as [|a l1 IH]; intros S1 S2 H; cbn; auto.
  apply StronglySorted_inv in S1. destruct S1 as [S1 F1].
  constructor.
  - apply IH; auto. intros x y Hx Hy. apply H; cbn; auto.
  - apply Forall_app. split; auto.
    apply Forall_forall. intros y Hy. apply H; cbn; auto.
Qed.

Lemma StronglySorted_nth {A : Type} (R : A -> A -> Prop) (l : list A) :
  StronglySorted R l ->
  forall i j x y, i < j -> nth_error l i = Some x -> nth_error l j = Some y ->
                  R x y.
Proof.
  induction 1 as [|a l S IH F]; intros i j x y Hij Hi Hj.
  - destruct i; discriminate.
  - destruct j as [|j]; [lia|]. cbn in Hj.
    destruct i as [|i]; cbn in Hi.
    + injection Hi as <-. rewrite Forall_forall in F.
      apply F. eapply nth_error_In; eauto.
    + apply (IH i j); auto. lia.
Qed.

Lemma isCallEvent_not_hook (e : Event) :
  isCallEvent e = true -> isHook e = false.
Proof. destruct e; cbn; auto; discriminate. Qed.

Lemma errorEvents_not_hook (b : bool) (r : Outcome) :
  Forall (fun e => isHook e = false) (errorEvents b r).
Proof. destruct r, b; cbn; auto. Qed.

Lemma hookOrder_not_hook_r (e1 e2 : Event) : isHook e2 = false -> hookOrder e1 e2.
Proof. destruct e1, e2; cbn; auto; discriminate. Qed.

Lemma hookOrder_not_hook_l (e1 e2 : Event) : isHook e1 = false -> hookOrder e1 e2.
Proof. destruct e1, e2; cbn; auto; discriminate. Qed.

Lemma StronglySorted_not_hook (evs : list Event) :
  Forall (fun e => isHook e = false) evs -> StronglySorted hookOrder evs.
Proof.
  induction 1 as [|e evs He F IH]; constructor; auto.
  apply Forall_forall. intros y _. now apply hookOrder_not_hook_l.
Qed.

(** Appending events that are not hook invocations keeps the order. *)
Lemma StronglySorted_snoc_not_hook (d evs : list Event) :
  StronglySorted hookOrder d -> Forall (fun e => isHook e = false) evs ->
  StronglySorted hookOrder (d ++ evs).
Proof.
  intros S F. apply StronglySorted_app; auto.
  - now apply StronglySorted_not_hook.
  - intros x y _ Hy. rewrite Forall_forall in F.
    apply hookOrder_not_hook_r. now apply F.
Qed.

Lemma hookWithin_not_hook (p : AfterRenderPhase) (done : list nat) (e : Event) :
  isHook e = false -> hookWithin p done e.
Proof. destruct e; cbn; auto; discriminate. Qed.

(** The events of one sequence at one phase: nothing, or the hook invocation
    followed by events that are not hook invocations. *)
Lemma hookState_events (p : AfterRenderPhase) (x : nat) (st : @State W) :
  executing st = true ->
  exists evs,
    trace (hookState p x st) = trace st ++ evs /\
    (evs = [] \/
     exists a r rest, evs = EvHook x p a r :: rest /\
                      Forall (fun e => isHook e = false) rest).
Proof.
  intros E. destruct (hookState_spec p x st E) as [[-> _]|(h & evs & H)].
  - exists []. rewrite app_nil_r. auto.
  - destruct H as (_ & _ & T & C & _).
    eexists. split; [exact T|]. right. do 3 eexists. split; [reflexivity|].
    apply Forall_app. split.
    + eapply Forall_impl; [|exact C]. apply isCallEvent_not_hook.
    + apply errorEvents_not_hook.
Qed.

(** *** The cleanup step *)

Lemma memb_In (y : nat) (xs : list nat) : memb y xs = true <-> In y xs.
Proof.
  unfold memb. rewrite existsb_exists. split.
  - intros (z & Hz & ->%Nat.eqb_eq). exact Hz.
  - intros H. exists y. split; auto. apply Nat.eqb_refl.
Qed.

Lemma memb_false_In (y : nat) (xs : list nat) : memb y xs = false <-> ~ In y xs.
Proof. rewrite <- memb_In. destruct (memb y xs); intuition congruence. Qed.

Lemma memb_app (y : nat) (xs ys : list nat) :
  memb y (xs ++ ys) = memb y xs || memb y ys.
Proof. unfold memb. apply existsb_app. Qed.

Lemma cleanupOne_spec (x : nat) (st : @State W) :
  executing st = false -> wf (sequences st) ->
  cleanupSpec st [x] (cleanupOne x st)
    (if once (heap st x) then destroyEvents x (heap st x) else []).
Proof.
  intros E Hwf. unfold cleanupSpec, cleanupOne.
  assert (Hheap : forall y, heap (afterRun x st) y =
                    if memb y [x] then resetSequence (heap st y)
                    else heap st y).
  { intros y. unfold afterRun, modify, upd, memb. cbn.
    rewrite orb_false_r.
    destruct (Nat.eqb_spec y x) as [->|N]; [|reflexivity].
    now rewrite Nat.eqb_refl. }
  assert (Honce : once (heap (afterRun x st) x) = once (heap st x)).
  { rewrite Hheap. unfold memb. cbn. now rewrite Nat.eqb_refl. }
  rewrite Honce. cbn [flat_map]. rewrite app_nil_r.
  destruct (once (heap st x)) eqn:O.
  - unfold destroy, unregister.
    cbn [executing emit set_sequences afterRun modify set_heap].
    rewrite E. cbn [andb].
    assert (Hu : unregisterOnDestroy (heap (afterRun x st) x) =
                 unregisterOnDestroy (heap st x)).
    { rewrite Hheap. unfold memb. cbn. now rewrite Nat.eqb_refl. }
    set (st3 := set_deferredRegistrations _ _).
    change (heap st3) with (heap (afterRun x st)).
    rewrite Hu.
    assert (G : forall st4 : @State W,
               executing st4 = false ->
               trace st4 = trace st ++ destroyEvents x (heap st x) ->
               heap st4 = heap (afterRun x st) ->
               sequences st4 = delete (delete (sequences st) x) x ->
               deferredRegistrations st4 =
                 delete (deferredRegistrations st) x ->
               executing st4 = false /\
               trace st4 = trace st ++ destroyEvents x (heap st x) /\
               destroyEvents x (heap st x) = destroyEvents x (heap st x) /\
               (forall y, heap st4 y =
                  if memb y [x] then resetSequence (heap st y)
                  else heap st y) /\
               (forall y, In y (elements (sequences st4)) <->
                  In y (elements (sequences st)) /\
                  ~ (In y [x] /\ once (heap st y) = true)) /\
               (forall y, In y (elements (deferredRegistrations st4)) <->
                  In y (elements (deferredRegistrations st)) /\
                  ~ (In y [x] /\ once (heap st y) = true)) /\
               wf (sequences st4)).
    { intros st4 G1 G2 G3 G4 G5. repeat split; auto.
      - intros y. rewrite G3. apply Hheap.
      - rewrite G4, !In_elements_delete in H. tauto.
      - rewrite G4, !In_elements_delete in H. cbn. intros [[->|[]] _]. tauto.
      - rewrite G4, !In_elements_delete. intros [H1 H2]. repeat split; auto.
        + intros ->. apply H2. cbn. auto.
        + intros ->. apply H2. cbn. auto.
      - rewrite G5, In_elements_delete in H. tauto.
      - rewrite G5, In_elements_delete in H. cbn. intros [[->|[]] _]. tauto.
      - rewrite G5, In_elements_delete. intros [H1 H2]. split; auto.
        intros ->. apply H2. cbn. auto.
      - rewrite G4. now apply wf_delete, wf_delete. }
    unfold destroyEvents in *.
    destruct (unregisterOnDestroy (heap st x));
      destruct (view _); try destruct (afterRenderSequencesToRegister _);
      apply G; cbn; auto; now rewrite <- ?app_assoc.
  - assert (N : forall y, ~ (In y [x] /\ once (heap st y) = true)).
    { intros y [[->|[]] F]. congruence. }
    repeat split; auto;
      try (cbn; now rewrite app_nil_r);
      try (intros H; split; [exact H | apply N]);
      tauto.
Qed.

Lemma cleanupSpec_nil (st : @State W) :
  wf (sequences st) -> cleanupSpec st [] st [].
Proof.
  intros Hwf. unfold cleanupSpec. cbn. rewrite app_nil_r.
  repeat split; auto; tauto.
Qed.

Lemma cleanupSpec_step (st s : @State W) (done : list nat) (x : nat)
    (evs : list Event) :
  executing st = false -> ~ In x done ->
  cleanupSpec st done s evs ->
  exists evs', cleanupSpec st (done ++ [x]) (cleanupOne x s) evs'.
Proof.
  intros E Hx (X & T & V & H & S & D & Hwf).
  assert (Hsx : heap s x = heap st x).
  { rewrite H. now apply memb_false_In in Hx as ->. }
  assert (Honce : forall y, once (heap s y) = once (heap st y)).
  { intros y. rewrite H. now destruct (memb y done). }
  destruct (cleanupOne_spec x s) as (X' & T' & V' & H' & S' & D' & Hwf');
    [congruence | assumption |].
  eexists. unfold cleanupSpec. split; [congruence|].
  split; [rewrite T', T, <- app_assoc; reflexivity|].
  split.
  { rewrite flat_map_app, V. cbn [flat_map]. rewrite app_nil_r.
    now rewrite Hsx. }
  split.
  { intros y. rewrite H', H, memb_app.
    destruct (memb y done) eqn:M1, (memb y [x]) eqn:M2; cbn; reflexivity. }
  split.
  { intros y. rewrite S', S, Honce, in_app_iff. tauto. }
  split; [|assumption].
  intros y. rewrite D', D, Honce, in_app_iff. tauto.
Qed.

(** The whole cleanup step. *)
Lemma cleanupSnapshot_spec (st : @State W) :
  executing st = false -> wf (sequences st) ->
  exists evs,
    cleanupSpec st (elements (sequences st)) (cleanupSnapshot st) evs.
Proof.
  intros E Hwf. unfold cleanupSnapshot.
  apply (forEach_invariant cleanupOne
           (fun done s => exists evs, cleanupSpec st done s evs)).
  - exists []. now apply cleanupSpec_nil.
  - intros done x todo s Hxs [evs Hs].
    apply (cleanupSpec_step st s done x evs); auto.
    unfold wf in Hwf. rewrite Hxs in Hwf.
    apply NoDup_remove_2 in Hwf. rewrite in_app_iff in Hwf. tauto.
Qed.

(** *** Moving the deferred registrations *)

Lemma forEach_addDeferred (xs : list nat) (st : @State W) :
  let st' := forEach addDeferred xs st in
  executing st' = executing st /\
  trace st' = trace st /\
  heap st' = heap st /\
  deferredRegistrations st' = deferredRegistrations st /\
  (forall y, In y (elements (sequences st')) <->
             In y (elements (sequences st)) \/ In y xs) /\
  (wf (sequences st) -> wf (sequences st')).
Proof.
  revert st. induction xs as [|x xs IH]; intros st; cbn.
  - repeat split; auto; tauto.
  - fold (forEach addDeferred xs (addDeferred x st)).
    destruct (IH (addDeferred x st)) as (A & B & C & D & F & G).
    cbn in *. repeat split; auto.
    + rewrite F, In_elements_add. intuition.
    + rewrite F, In_elements_add. intuition.
    + intros Hwf. apply G. now apply wf_add.
Qed.

Lemma flushSnapshot_spec (st : @State W) :
  let st' := flushSnapshot st in
  executing st' = executing st /\
  trace st' =
    trace st ++
    (if 0 <? size (deferredRegistrations st)
     then [EvNotify DeferredRenderHook] else []) /\
  heap st' = heap st /\
  elements (deferredRegistrations st') = [] /\
  (forall y, In y (elements (sequences st')) <->
             In y (elements (sequences st)) \/
             In y (elements (deferredRegistrations st))) /\
  (wf (sequences st) -> wf (sequences st')).
Proof.
  unfold flushSnapshot.
  destruct (forEach_addDeferred (elements (deferredRegistrations st)) st)
    as (A & B & C & D & F & G).
  cbn zeta in *. rewrite D.
  set (st1 := forEach addDeferred (elements (deferredRegistrations st)) st)
    in *.
  destruct (0 <? size (deferredRegistrations st)); cbn.
  - rewrite elements_clear, B. repeat split; auto; apply F.
  - rewrite elements_clear, B, app_nil_r. repeat split; auto; apply F.
Qed.

(** *** The order of hook invocations *)

Lemma phaseSnapshot_order (st0 s : @State W) (p : AfterRenderPhase) :
  wf (sequences st0) ->
  phasesRan st0 (phase_index p) s ->
  phasesRan st0 (S (phase_index p)) (phaseSnapshot p s).
Proof.
  intros Hwf (E & Q & d & T & Hs & Hb & Hm).
  unfold phaseSnapshot. rewrite Q.
  set (xs := elements (sequences st0)).
  pose (Inv := fun (done : list nat) (s' : @State W) =>
    executing s' = true /\ sequences s' = sequences st0 /\
    exists d', trace s' = trace st0 ++ d' /\
               StronglySorted hookOrder d' /\
               Forall (hookWithin p done) d' /\
               Forall (hookOfMember xs) d').
  assert (G : Inv xs (forEach (hookState p) xs s)).
  { apply forEach_invariant.
    - unfold Inv. repeat split; auto. exists d. repeat split; auto.
      eapply Forall_impl; [|exact Hb].
      intros [] H; cbn in *; auto.
    - intros done x todo s' Hxs (E' & Q' & d' & T' & Hs' & Hw' & Hm').
      assert (Hx : ~ In x done).
      { unfold wf in Hwf. fold xs in Hwf. rewrite Hxs in Hwf.
        apply NoDup_remove_2 in Hwf. rewrite in_app_iff in Hwf. tauto. }
      assert (Hxin : In x xs).
      { rewrite Hxs, in_app_iff. cbn. auto. }
      unfold Inv. rewrite hookState_executing, hookState_sequences by assumption.
      repeat split; auto.
      destruct (hookState_events p x s' E') as (evs & Te & Hevs).
      exists (d' ++ evs). split; [now rewrite Te, T', app_assoc|].
      assert (Hmono : Forall (hookWithin p (done ++ [x])) d').
      { eapply Forall_impl; [|exact Hw'].
        intros [] H; cbn in *; auto. rewrite in_app_iff. tauto. }
      destruct Hevs as [->|(a & r & rest & -> & Hrest)].
      + rewrite app_nil_r. auto.
      + repeat split.
        * apply StronglySorted_app; auto.
          -- constructor; [now apply StronglySorted_not_hook|].
             eapply Forall_impl; [|exact Hrest].
             intros e He. now apply hookOrder_not_hook_r.
          -- intros e1 e2 H1 [<-|H2].
             ++ rewrite Forall_forall in Hw'. specialize (Hw' _ H1).
                destruct e1; cbn in *; auto.
                destruct Hw' as [L|[-> I]]; auto.
                right. split; auto. congruence.
             ++ rewrite Forall_forall in Hrest.
                apply hookOrder_not_hook_r. auto.
        * apply Forall_app. split; auto. constructor.
          -- cbn. right. split; auto. rewrite in_app_iff. cbn. auto.
          -- eapply Forall_impl; [|exact Hrest].
             intros e He. now apply hookWithin_not_hook.
        * apply Forall_app. split; auto. constructor; [exact Hxin|].
          eapply Forall_impl; [|exact Hrest].
          intros [] He; cbn in *; auto; discriminate. }
  destruct G as (E' & Q' & d' & T' & Hs' & Hw' & Hm').
  unfold phasesRan. repeat split; auto.
  exists d'. repeat split; auto.
  eapply Forall_impl; [|exact Hw'].
  intros [] H; cbn in *; auto. destruct H as [H|[-> _]]; lia.
Qed.

Lemma phasesSnapshot_order (st0 : @State W) :
  wf (sequences st0) -> executing st0 = true ->
  phasesRan st0 4 (phasesSnapshot AFTER_RENDER_PHASES st0).
Proof.
  intros Hwf E.
  assert (H0 : phasesRan st0 (phase_index EarlyRead) st0).
  { unfold phasesRan. repeat split; auto. exists [].
    rewrite app_nil_r. repeat split; auto. constructor. }
  apply (phaseSnapshot_order st0 _ EarlyRead Hwf) in H0.
  apply (phaseSnapshot_order st0 _ Write Hwf) in H0.
  apply (phaseSnapshot_order st0 _ MixedReadWrite Hwf) in H0.
  apply (phaseSnapshot_order st0 _ Read Hwf) in H0.
  exact H0.
Qed.

End Trace.

End AfterRenderTrace.

(** ** The after-render manager: the execution pipeline *)

Module AfterRenderSpec.

Import JsSet JsSetFacts AfterRender AfterRenderLoops AfterRenderTrace.

Section Spec.

Context {W : Type}.

Lemma newEvents_app (st st' : @State W) (d : list Event) :
  trace st' = trace st ++ d -> newEvents st st' = d.
Proof.
  intros H. unfold newEvents. rewrite H, skipn_app, skipn_all, Nat.sub_diag.
  reflexivity.
Qed.

Lemma nth_error_app_split {A : Type} (l1 l2 : list A) (i : nat) (a : A) :
  nth_error (l1 ++ l2) i = Some a ->
  (i < length l1 /\ nth_error l1 i = Some a) \/
  (length l1 <= i /\ In a l2).
Proof.
  intros H. destruct (Nat.lt_ge_cases i (length l1)) as [L|L].
  - left. split; auto. now rewrite nth_error_app1 in H.
  - right. split; auto. rewrite nth_error_app2 in H by assumption.
    eapply nth_error_In; eauto.
Qed.

Lemma cleanupEvents_not_hook (h : nat -> @AfterRenderSequence W)
    (xs : list nat) :
  Forall (fun e => isHook e = false)
    (flat_map (fun y => if once (h y) then destroyEvents y (h y) else []) xs).
Proof.
  induction xs as [|x xs IH]; cbn; auto.
  apply Forall_app. split; auto.
  unfold destroyEvents.
  destruct (once (h x)), (unregisterOnDestroy (h x)); repeat constructor.
Qed.

(** The events of a whole execution: those of the phases, of the cleanup
    step and of the move of the deferred registrations. *)
Lemma executeSnapshot_trace (st : @State W) :
  wf (sequences st) ->
  exists dp dc df,
    trace (afterPhases st) = trace st ++ dp /\
    trace (untilCleanupSnapshot st) = trace st ++ dp ++ dc /\
    trace (executeSnapshot st) = trace st ++ dp ++ dc ++ df /\
    StronglySorted hookOrder dp /\
    Forall (hookOfMember (elements (sequences st))) dp /\
    Forall (fun e => isHook e = false) dc /\
    Forall (fun e => isHook e = false) df.
Proof.
  intros Hwf.
  destruct (phasesSnapshot_order (set_executing true st) Hwf eq_refl)
    as (E & Q & dp & T & Hs & _ & Hm).
  unfold executeSnapshot, untilCleanupSnapshot, afterPhases.
  set (st2 := phasesSnapshot AFTER_RENDER_PHASES (set_executing true st)) in *.
  change (sequences (set_executing true st)) with (sequences st) in *.
  change (trace (set_executing true st)) with (trace st) in *.
  destruct (cleanupSnapshot_spec (set_executing false st2))
    as (dc & _ & Tc & Vc & _).
  { reflexivity. }
  { change (wf (sequences st2)). now rewrite Q. }
  change (trace (set_executing false st2)) with (trace st2) in Tc.
  set (st4 := cleanupSnapshot (set_executing false st2)) in *.
  destruct (flushSnapshot_spec st4) as (_ & Tf & _).
  exists dp, dc. eexists. repeat split.
  - exact T.
  - now rewrite Tc, T, app_assoc.
  - rewrite Tf, Tc, T, <- !app_assoc. reflexivity.
  - exact Hs.
  - exact Hm.
  - rewrite Vc. apply cleanupEvents_not_hook.
  - destruct (0 <? _); repeat constructor.
Qed.

Lemma executeSnapshot_sorted (st : @State W) :
  wf (sequences st) ->
  StronglySorted hookOrder (newEvents st (executeSnapshot st)) /\
  Forall (hookOfMember (elements (sequences st)))
    (newEvents st (executeSnapshot st)).
Proof.
  intros Hwf.
  destruct (executeSnapshot_trace st Hwf)
    as (dp & dc & df & _ & _ & T & Hs & Hm & Hc & Hf).
  rewrite (newEvents_app _ _ _ T). split.
  - apply StronglySorted_snoc_not_hook; auto.
    apply Forall_app. now split.
  - apply Forall_app. split; auto.
    eapply Forall_impl; [|apply Forall_app; split; [exact Hc|exact Hf]].
    intros [] H; cbn in *; auto; discriminate.
Qed.

Lemma forEach_preserves (body : nat -> @State W -> @State W)
    (Inv : @State W -> Prop) (xs : list nat) (st : @State W) :
  Inv st ->
  (forall x s, In x xs -> Inv s -> Inv (body x s)) ->
  Inv (forEach body xs st).
Proof.
  revert st. induction xs as [|x xs IH]; intros st H0 Hstep; cbn; auto.
  fold (forEach body xs (body x st)).
  apply IH.
  - apply Hstep; cbn; auto.
  - intros y s Hy. apply Hstep. cbn. auto.
Qed.

(** An invariant of every hook invocation holds when the phases have run. *)
Lemma afterPhases_invariant (Inv : @State W -> Prop) (st : @State W) :
  Inv (set_executing true st) ->
  (forall p x s,
     executing s = true -> sequences s = sequences st ->
     In x (elements (sequences st)) ->
     Inv s -> Inv (hookState p x s)) ->
  Inv (afterPhases st) /\
  executing (afterPhases st) = true /\
  sequences (afterPhases st) = sequences st.
Proof.
  intros H0 Hstep. unfold afterPhases.
  pose (J := fun s : @State W =>
               Inv s /\ executing s = true /\ sequences s = sequences st).
  assert (HJ : forall phases s, J s -> J (phasesSnapshot phases s)).
  { induction phases as [|p ps IH]; intros s Hs; cbn; auto.
    fold (phasesSnapshot ps (phaseSnapshot p s)).
    apply IH. unfold phaseSnapshot.
    destruct Hs as (I0 & E0 & Q0). rewrite Q0.
    apply forEach_preserves.
    - unfold J. auto.
    - intros x s' Hx (I' & E' & Q'). unfold J.
      rewrite hookState_executing, hookState_sequences by assumption.
      repeat split; auto. }
  apply (HJ AFTER_RENDER_PHASES (set_executing true st)).
  unfold J. repeat split; auto.
Qed.

(** *** Sequences that stop running *)

Lemma quietAfter_app (t : nat) (d1 d2 : list Event) :
  quietAfter t d1 -> quietAfter t d2 ->
  (existsb (stops t) d1 = true ->
   Forall (fun e => isHookOf t e = false) d2) ->
  quietAfter t (d1 ++ d2).
Proof.
  induction d1 as [|e d1 IH]; cbn; intros H1 H2 H; auto.
  destruct H1 as [Hq H1]. split.
  - intros Hs. apply Forall_app. split; auto.
    apply H. now rewrite Hs.
  - apply IH; auto. intros Hs. apply H. rewrite Hs. apply orb_true_r.
Qed.

Lemma quietAfter_split (t : nat) (l1 l2 : list Event) (e : Event) :
  quietAfter t (l1 ++ e :: l2) -> stops t e = true ->
  Forall (fun e' => isHookOf t e' = false) l2.
Proof.
  induction l1 as [|a l1 IH]; cbn; intros [H1 H2] Hs; auto.
Qed.

Lemma quietAfter_no_stop (t : nat) (d : list Event) :
  existsb (stops t) d = false -> quietAfter t d.
Proof.
  induction d as [|e d IH]; cbn; auto.
  intros [H1 H2]%orb_false_iff. split; auto. congruence.
Qed.

Lemma callEvents_not_hookOf (t : nat) (evs : list Event) :
  Forall (fun e => isCallEvent e = true) evs ->
  Forall (fun e => isHookOf t e = false) evs.
Proof.
  apply Forall_impl. intros [] H; cbn in *; auto; discriminate.
Qed.

Lemma quietAfter_callEvents (t : nat) (evs : list Event) :
  Forall (fun e => isCallEvent e = true) evs -> quietAfter t evs.
Proof.
  induction 1 as [|e evs He C IH]; cbn; auto.
  split; auto. intros _. now apply callEvents_not_hookOf.
Qed.

Lemma callEvents_not_throw (t : nat) (evs : list Event) :
  Forall (fun e => isCallEvent e = true) evs ->
  existsb (isThrowOf t) evs = false.
Proof.
  induction 1 as [|e evs He _ IH]; cbn; auto.
  rewrite IH, orb_false_r. destruct e; cbn in *; auto; discriminate.
Qed.

Lemma existsb_stops (t : nat) (evs : list Event) :
  existsb (stops t) evs =
  existsb (isMarkOf t) evs || existsb (isThrowOf t) evs.
Proof.
  induction evs as [|e evs IH]; cbn; auto.
  rewrite IH. unfold stops.
  destruct (isMarkOf t e), (isThrowOf t e), (existsb (isMarkOf t) evs);
    reflexivity.
Qed.

Lemma errorEvents_no_stop (t : nat) (b : bool) (r : Outcome) :
  existsb (stops t) (errorEvents b r) = false /\
  existsb (isMarkOf t) (errorEvents b r) = false /\
  Forall (fun e => isHookOf t e = false) (errorEvents b r).
Proof. destruct r, b; cbn; auto. Qed.

Lemma hookState_stoppedInv (t : nat) (st0 s : @State W) (p : AfterRenderPhase)
    (x : nat) :
  executing s = true -> sequences s = sequences st0 ->
  stoppedInv t st0 s -> stoppedInv t st0 (hookState p x s).
Proof.
  intros E Q (d & T & Hq & He & Hm).
  destruct (hookState_spec p x s E) as [[-> _]|(h & evs & H)].
  { exists d. auto. }
  destruct H as (Hx & Hh & T' & C & Hheap & _ & M & _).
  set (arg := pipelinedValue (heap s x)) in *.
  set (r := outcome (h arg (world s))) in *.
  set (errs := errorEvents (hasHandler s) r) in *.
  destruct (errorEvents_no_stop t (hasHandler s) r) as (N1 & N2 & N3).
  fold errs in N1, N2, N3.
  pose proof (callEvents_not_hookOf t evs C) as Cq.
  pose proof (callEvents_not_throw t evs C) as Ct.
  exists (d ++ EvHook x p arg r :: evs ++ errs).
  split; [now rewrite T', T, <- app_assoc|].
  assert (Hstop_new :
    existsb (stops t) (EvHook x p arg r :: evs ++ errs) = true ->
    existsb (isMarkOf t) evs = true \/ (x = t /\ exists err, r = Throw err)).
  { cbn. rewrite existsb_app, N1, orb_false_r, existsb_stops, Ct,
      orb_false_r.
    unfold stops. cbn.
    destruct r as [v|err]; cbn.
    - intros H. now left.
    - destruct (Nat.eqb_spec x t) as [->|N]; cbn.
      + intros _. right. eauto.
      + intros H. now left. }
  assert (Herr_new :
    existsb (stops t) (EvHook x p arg r :: evs ++ errs) = true ->
    erroredOrDestroyed (heap (hookState p x s) t) = true).
  { intros H. apply Hstop_new in H. rewrite Hheap. cbn zeta.
    destruct H as [H|[-> [err Hr]]].
    - rewrite H. destruct (Nat.eqb t x); [destruct r|]; reflexivity.
    - rewrite Nat.eqb_refl, Hr. reflexivity. }
  split; [|split].
  - apply quietAfter_app; auto.
    + cbn. split.
      * intros _. apply Forall_app. now split.
      * apply quietAfter_app.
        -- now apply quietAfter_callEvents.
        -- now apply quietAfter_no_stop.
        -- intros _. exact N3.
    + intros Hd. constructor.
      * cbn. destruct (Nat.eqb_spec x t) as [->|N]; auto.
        specialize (He Hd). congruence.
      * apply Forall_app. now split.
  - rewrite existsb_app, orb_true_iff. intros [Hd|Hn]; auto.
    specialize (He Hd). rewrite Hheap. cbn zeta.
    destruct (existsb (isMarkOf t) evs);
      destruct (Nat.eqb t x); try destruct r; cbn; auto.
  - rewrite existsb_app. cbn [existsb isMarkOf].
    rewrite existsb_app, N2, orb_false_r, orb_false_l, orb_true_iff.
    intros [Hd|Hn].
    + destruct (Hm Hd) as [Ho Hin]. split; auto.
      rewrite Hheap. cbn zeta.
      destruct (existsb (isMarkOf t) evs);
        destruct (Nat.eqb t x); try destruct r; cbn; auto.
    + split.
      * rewrite Hheap, Hn. cbn zeta.
        destruct (Nat.eqb t x); try destruct r; reflexivity.
      * rewrite <- Q. now apply M.
Qed.

Lemma afterPhases_stoppedInv (t : nat) (st : @State W) :
  stoppedInv t st (afterPhases st) /\
  executing (afterPhases st) = true /\
  sequences (afterPhases st) = sequences st.
Proof.
  apply afterPhases_invariant.
  - exists []. cbn. rewrite app_nil_r. repeat split; auto; discriminate.
  - intros p x s E Q _ H. now apply hookState_stoppedInv.
Qed.

(** *** The end of an execution *)

Lemma cleanupEvents_epilogue (h : nat -> @AfterRenderSequence W)
    (xs : list nat) :
  Forall (fun e => isEpilogueEvent e = true)
    (flat_map (fun y => if once (h y) then destroyEvents y (h y) else []) xs).
Proof.
  induction xs as [|x xs IH]; cbn; auto.
  apply Forall_app. split; auto.
  unfold destroyEvents.
  destruct (once (h x)), (unregisterOnDestroy (h x)); repeat constructor.
Qed.

(** An event of the phases found in the events of the whole execution. *)
Lemma split_in_prefix {A : Type} (d rest l1 l2 : list A) (e : A) :
  d ++ rest = l1 ++ e :: l2 -> ~ In e rest ->
  exists l2', d = l1 ++ e :: l2' /\ l2 = l2' ++ rest.
Proof.
  revert d. induction l1 as [|a l1 IH]; intros [|b d] H N; cbn in *.
  - subst rest. cbn in N. tauto.
  - injection H as -> H. exists d. auto.
  - subst rest. exfalso. apply N. cbn. right.
    rewrite in_app_iff. cbn. auto.
  - injection H as -> H. destruct (IH d H N) as (l2' & -> & ->).
    exists l2'. auto.
Qed.

(** The parts of an execution, with what each part guarantees. *)
Lemma executeSnapshot_parts (st : @State W) :
  wf (sequences st) ->
  exists dp dc df,
    trace (afterPhases st) = trace st ++ dp /\
    newEvents st (executeSnapshot st) = dp ++ dc ++ df /\
    Forall (fun e => isEpilogueEvent e = true) (dc ++ df) /\
    cleanupSpec (set_executing false (afterPhases st))
      (elements (sequences st)) (untilCleanupSnapshot st) dc /\
    df = (if 0 <? size (deferredRegistrations (untilCleanupSnapshot st))
          then [EvNotify DeferredRenderHook] else []) /\
    heap (executeSnapshot st) = heap (untilCleanupSnapshot st) /\
    (forall y, In y (elements (sequences (executeSnapshot st))) <->
               In y (elements (sequences (untilCleanupSnapshot st))) \/
               In y (elements
                       (deferredRegistrations (untilCleanupSnapshot st)))) /\
    elements (deferredRegistrations (executeSnapshot st)) = [] /\
    executing (executeSnapshot st) = false /\
    wf (sequences (executeSnapshot st)).
Proof.
  intros Hwf.
  destruct (phasesSnapshot_order (set_executing true st) Hwf eq_refl)
    as (E & Q & dp & T & _).
  fold (afterPhases st) in E, Q, T.
  change (sequences (set_executing true st)) with (sequences st) in Q.
  change (trace (set_executing true st)) with (trace st) in T.
  destruct (cleanupSnapshot_spec (set_executing false (afterPhases st)))
    as (dc & Hc).
  { reflexivity. }
  { change (wf (sequences (afterPhases st))). now rewrite Q. }
  change (sequences (set_executing false (afterPhases st)))
    with (sequences (afterPhases st)) in Hc.
  rewrite Q in Hc.
  change (cleanupSnapshot (set_executing false (afterPhases st)))
    with (untilCleanupSnapshot st) in Hc.
  pose proof Hc as (Xc & Tc & Vc & _ & _ & _ & Wc).
  change (trace (set_executing false (afterPhases st)))
    with (trace (afterPhases st)) in Tc.
  destruct (flushSnapshot_spec (untilCleanupSnapshot st))
    as (Xf & Tf & Hf & Df & Sf & Wf).
  fold (executeSnapshot st) in Xf, Tf, Hf, Df, Sf, Wf.
  exists dp, dc. eexists. split; [exact T|].
  split.
  { apply newEvents_app. rewrite Tf, Tc, T, <- !app_assoc. reflexivity. }
  split.
  { apply Forall_app. split.
    - rewrite Vc. apply cleanupEvents_epilogue.
    - destruct (0 <? _); repeat constructor. }
  split; [exact Hc|].
  split; [reflexivity|].
  split; [exact Hf|].
  split; [exact Sf|].
  split; [exact Df|].
  split; [rewrite Xf, Xc; reflexivity|].
  apply Wf, Wc.
Qed.

Lemma epilogue_not_hook (evs : list Event) :
  Forall (fun e => isEpilogueEvent e = true) evs ->
  Forall (fun e => isHook e = false) evs.
Proof. apply Forall_impl. intros [] H; cbn in *; auto; discriminate. Qed.



Lemma unregister_idle (x : nat) (st : @State W) :
  executing st = false ->
  sequences (unregister x st) = delete (sequences st) x /\
  deferredRegistrations (unregister x st) =
    delete (deferredRegistrations st) x.
Proof. intros E. unfold unregister. rewrite E. split; reflexivity. Qed.


(** *** Hooks that throw *)

Lemma forwarded_app (d1 d2 : list Event) :
  forwarded d1 -> forwarded d2 -> forwarded (d1 ++ d2).
Proof.
  induction d1 as [|e d1 IH]; cbn; intros H1 H2; auto.
  destruct H1 as [He H1]. split; auto.
  destruct e; auto. destruct res; auto.
  destruct He as (cs & rest & -> & C).
  exists cs, (rest ++ d2). split; auto.
  now rewrite <- app_assoc.
Qed.

Lemma forwarded_not_hook (d : list Event) :
  Forall (fun e => isHook e = false) d -> forwarded d.
Proof.
  induction 1 as [|e d He _ IH]; cbn; auto.
  split; auto. destruct e; auto. discriminate.
Qed.

Lemma forwarded_split (l1 l2 : list Event) (t : nat) (p : AfterRenderPhase)
    (a err : JsValue) :
  forwarded (l1 ++ EvHook t p a (Throw err) :: l2) ->
  exists cs rest,
    l2 = cs ++ EvHandleError err :: rest /\
    Forall (fun c => isCallEvent c = true) cs.
Proof.
  induction l1 as [|e l1 IH]; cbn; intros [H1 H2]; auto.
Qed.

(** With an error handler, every throw of the phases is forwarded. *)
Lemma afterPhases_forwarded (st : @State W) :
  hasHandler st = true ->
  exists d, trace (afterPhases st) = trace st ++ d /\ forwarded d.
Proof.
  intros Hh.
  apply (afterPhases_invariant
           (fun s => hasHandler s = true /\
                     exists d, trace s = trace st ++ d /\ forwarded d)).
  - split; auto. exists []. cbn. now rewrite app_nil_r.
  - intros p x s E _ _ (Hs & d & T & F).
    unfold hasHandler at 1. rewrite hookState_errorHandler.
    fold (hasHandler s). split; auto.
    destruct (hookState_spec p x s E) as [[-> _]|(h & evs & H)].
    { exists d. auto. }
    destruct H as (_ & _ & T' & C & _).
    eexists. split; [rewrite T', T, <- app_assoc; reflexivity|].
    apply forwarded_app; auto.
    rewrite Hs. cbn. split.
    + destruct (outcome _); auto. cbn. exists evs, []. auto.
    + apply forwarded_not_hook. apply Forall_app. split.
      * eapply Forall_impl; [|exact C]. apply isCallEvent_not_hook.
      * apply errorEvents_not_hook.
Qed.

(** *** Hooks that still run *)

Lemma ranOrStopped_app (u : nat) (q : AfterRenderPhase) (d d' : list Event) :
  ranOrStopped u q d -> ranOrStopped u q (d ++ d').
Proof.
  intros [(b & r & H)|H].
  - left. exists b, r. rewrite in_app_iff. auto.
  - right. rewrite existsb_app, H. reflexivity.
Qed.

Lemma phasesGoal_app (u : nat) (st0 : @State W) (qs : list AfterRenderPhase)
    (d d' : list Event) :
  phasesGoal u st0 qs d -> phasesGoal u st0 qs (d ++ d').
Proof.
  intros H q Hq Hh. apply ranOrStopped_app. now apply H.
Qed.

Lemma hooks_mark (q : @AfterRenderSequence W) : hooks (mark q) = hooks q.
Proof. reflexivity. Qed.

Lemma hooks_finish (r : Outcome) (q : @AfterRenderSequence W) :
  hooks (finish r q) = hooks q.
Proof. destruct r; reflexivity. Qed.

Lemma hookState_causeInv (u : nat) (st0 s : @State W) (d : list Event)
    (p : AfterRenderPhase) (x : nat) :
  executing s = true ->
  causeInv u st0 s d ->
  exists d',
    causeInv u st0 (hookState p x s) (d ++ d') /\
    (x = u -> hookAt (hooks (heap st0 u)) p <> None ->
     ranOrStopped u p (d ++ d')).
Proof.
  intros E (T & Hh & Hc).
  destruct (hookState_spec p x s E) as [[-> Hskip]|(h & evs & H)].
  { exists []. rewrite app_nil_r. split; [repeat split; auto|].
    intros -> Hdef. right. destruct Hskip as [Hs|Hs]; auto.
    rewrite Hh in Hs. contradiction. }
  destruct H as (Hx & Hhook & T' & C & Hheap & _).
  set (arg := pipelinedValue (heap s x)) in *.
  set (r := outcome (h arg (world s))) in *.
  set (errs := errorEvents (hasHandler s) r) in *.
  exists (EvHook x p arg r :: evs ++ errs).
  split; [split; [|split]|].
  - now rewrite T', T, <- app_assoc.
  - rewrite Hheap. cbn zeta.
    destruct (existsb (isMarkOf u) evs), (Nat.eqb u x);
      rewrite ?hooks_finish, ?hooks_mark; exact Hh.
  - rewrite Hheap. cbn zeta. intros Herr.
    rewrite existsb_app. cbn [existsb].
    rewrite existsb_app, (existsb_stops u evs).
    destruct (erroredOrDestroyed (heap s u)) eqn:Eu.
    { now rewrite Hc. }
    destruct (existsb (isMarkOf u) evs) eqn:Em.
    { destruct (existsb (stops u) d), (stops u (EvHook x p arg r));
        reflexivity. }
    destruct (Nat.eqb_spec u x) as [->|N].
    + destruct r as [v|err]; cbn in Herr; [congruence|].
      assert (Hs : stops x (EvHook x p arg (Throw err)) = true).
      { unfold stops, isMarkOf, isThrowOf. now rewrite Nat.eqb_refl. }
      rewrite Hs. destruct (existsb (stops x) d); reflexivity.
    + congruence.
  - intros -> _. left. exists arg, r. rewrite in_app_iff. cbn. auto.
Qed.

Lemma phaseSnapshot_ran (u : nat) (st0 s : @State W)
    (qs : list AfterRenderPhase) (p : AfterRenderPhase) :
  wf (sequences st0) -> In u (elements (sequences st0)) ->
  executing s = true -> sequences s = sequences st0 ->
  (exists d, causeInv u st0 s d /\ phasesGoal u st0 qs d) ->
  exists d, causeInv u st0 (phaseSnapshot p s) d /\
            phasesGoal u st0 (qs ++ [p]) d.
Proof.
  intros Hwf Hu E Q (d0 & Hc0 & Hg0).
  unfold phaseSnapshot. rewrite Q.
  pose (Inv := fun (done : list nat) (s' : @State W) =>
    executing s' = true /\
    exists d, causeInv u st0 s' d /\ phasesGoal u st0 qs d /\
              (In u done -> hookAt (hooks (heap st0 u)) p <> None ->
               ranOrStopped u p d)).
  assert (G : Inv (elements (sequences st0))
                (forEach (hookState p) (elements (sequences st0)) s)).
  { apply forEach_invariant.
    - unfold Inv. split; auto. exists d0.
      split; [exact Hc0|]. split; [exact Hg0|]. intros [].
    - intros done x todo s' _ (E' & d & Hc & Hg & Hr).
      unfold Inv. rewrite hookState_executing. split; auto.
      destruct (hookState_causeInv u st0 s' d p x E' Hc) as (d' & Hc' & Hx).
      exists (d ++ d'). split; [exact Hc'|]. split.
      + now apply phasesGoal_app.
      + rewrite in_app_iff. cbn. intros [Hin|[->|[]]] Hdef; auto.
        apply ranOrStopped_app. auto. }
  destruct G as (_ & d & Hc & Hg & Hr).
  exists d. split; auto.
  intros q. rewrite in_app_iff. cbn. intros [Hq|[<-|[]]] Hdef; auto.
Qed.

Lemma afterPhases_ran (u : nat) (st : @State W) :
  wf (sequences st) -> In u (elements (sequences st)) ->
  erroredOrDestroyed (heap st u) = false ->
  exists d, trace (afterPhases st) = trace st ++ d /\
            phasesGoal u st AFTER_RENDER_PHASES d.
Proof.
  intros Hwf Hu He.
  set (st0 := set_executing true st).
  assert (H0 : exists d, causeInv u st0 st0 d /\ phasesGoal u st0 [] d).
  { exists []. split.
    - unfold causeInv. rewrite app_nil_r. repeat split; auto.
      cbn. congruence.
    - intros q []. }
  assert (Hstep : forall qs p s,
            executing s = true -> sequences s = sequences st0 ->
            (exists d, causeInv u st0 s d /\ phasesGoal u st0 qs d) ->
            executing (phaseSnapshot p s) = true /\
            sequences (phaseSnapshot p s) = sequences st0 /\
            exists d, causeInv u st0 (phaseSnapshot p s) d /\
                      phasesGoal u st0 (qs ++ [p]) d).
  { intros qs p s E Q H.
    destruct (forEach_hookState_frame p (elements (sequences s)) s E)
      as [F1 F2].
    split; [exact F1|]. split; [unfold phaseSnapshot; congruence|].
    now apply phaseSnapshot_ran. }
  destruct (Hstep [] EarlyRead st0 eq_refl eq_refl H0) as (E1 & Q1 & H1).
  destruct (Hstep _ Write _ E1 Q1 H1) as (E2 & Q2 & H2).
  destruct (Hstep _ MixedReadWrite _ E2 Q2 H2) as (E3 & Q3 & H3).
  destruct (Hstep _ Read _ E3 Q3 H3) as (_ & _ & d & Hc & Hg).
  exists d. split.
  - apply Hc.
  - exact Hg.
Qed.

Lemma epilogue_no_hook_event (evs : list Event) (t : nat)
    (p : AfterRenderPhase) (a : JsValue) (r : Outcome) :
  Forall (fun e => isEpilogueEvent e = true) evs ->
  ~ In (EvHook t p a r) evs.
Proof.
  intros F H. rewrite Forall_forall in F. specialize (F _ H). discriminate.
Qed.

Lemma all_phases (q : AfterRenderPhase) : In q AFTER_RENDER_PHASES.
Proof. destruct q; cbn; auto. Qed.

(** *** Hooks that run, or why not *)

Lemma beforePhase_not_hook (k : nat) (e : Event) :
  isHook e = false -> beforePhase k e.
Proof. destruct e; cbn; auto; discriminate. Qed.

Lemma hookDefined_not_hook (u : nat) (hs : @AfterRenderHooks W) (e : Event) :
  isHook e = false -> hookDefined u hs e.
Proof. destruct e; cbn; auto; discriminate. Qed.

Lemma beforePhase_le (k k' : nat) (e : Event) :
  k <= k' -> beforePhase k e -> beforePhase k' e.
Proof. destruct e; cbn; auto. lia. Qed.

Lemma ranOrStoppedBy_app (u : nat) (q : AfterRenderPhase)
    (d d' : list Event) :
  ranOrStoppedBy u q d -> ranOrStoppedBy u q (d ++ d').
Proof.
  intros [(b & r & H)|(d1 & e & d2 & -> & Hs & Hb)].
  - left. exists b, r. rewrite in_app_iff. auto.
  - right. exists d1, e, (d2 ++ d').
    split; [now rewrite <- app_assoc|]. auto.
Qed.

Lemma stopped_so_far (u : nat) (q : AfterRenderPhase) (d : list Event) :
  existsb (stops u) d = true ->
  Forall (beforePhase (S (phase_index q))) d ->
  stoppedBy u q d.
Proof.
  intros Hs Hb. apply existsb_exists in Hs. destruct Hs as (e & Hin & He).
  apply in_split in Hin. destruct Hin as (d1 & d2 & ->).
  exists d1, e, d2. split; [reflexivity|]. split; [exact He|].
  apply Forall_app in Hb. destruct Hb as [H1 H2].
  apply Forall_app. split; [exact H1|].
  constructor; [|constructor]. now inversion H2.
Qed.

Lemma hookState_due (u : nat) (st0 s : @State W) (d : list Event)
    (p : AfterRenderPhase) (x : nat) :
  executing s = true ->
  causeInv u st0 s d ->
  Forall (beforePhase (S (phase_index p))) d ->
  Forall (hookDefined u (hooks (heap st0 u))) d ->
  exists d',
    causeInv u st0 (hookState p x s) (d ++ d') /\
    Forall (beforePhase (S (phase_index p))) (d ++ d') /\
    Forall (hookDefined u (hooks (heap st0 u))) (d ++ d') /\
    (x = u -> hookAt (hooks (heap st0 u)) p <> None ->
     ranOrStoppedBy u p (d ++ d')).
Proof.
  intros E Hc Hb Hd.
  destruct (hookState_causeInv u st0 s d p x E Hc) as (d' & Hc' & _).
  exists d'. split; [exact Hc'|].
  destruct Hc as (T & Hh & Hcause). destruct Hc' as (T' & _).
  destruct (hookState_spec p x s E) as [[Heq Hskip]|(h & evs & H)].
  - assert (d' = []) as ->.
    { rewrite Heq, T in T'. apply app_inv_head in T'.
      rewrite <- (app_nil_r d) in T' at 1. apply app_inv_head in T'.
      now symmetry. }
    rewrite app_nil_r. split; [exact Hb|]. split; [exact Hd|].
    intros -> Hdef. right. apply stopped_so_far; [|exact Hb].
    apply Hcause. destruct Hskip as [Hs|Hs]; [exact Hs|].
    rewrite Hh in Hs. contradiction.
  - destruct H as (_ & Hhook & Ts & C & _).
    set (arg := pipelinedValue (heap s x)) in *.
    set (r := outcome (h arg (world s))) in *.
    set (errs := errorEvents (hasHandler s) r) in *.
    assert (d' = EvHook x p arg r :: evs ++ errs) as ->.
    { rewrite Ts, T in T'. rewrite <- app_assoc in T'.
      apply app_inv_head in T'. now apply app_inv_head in T'. }
    assert (Hrest : Forall (fun e => isHook e = false) (evs ++ errs)).
    { apply Forall_app. split.
      - eapply Forall_impl; [|exact C]. apply isCallEvent_not_hook.
      - apply errorEvents_not_hook. }
    split; [|split].
    + apply Forall_app. split; [exact Hb|]. constructor.
      * cbn. lia.
      * eapply Forall_impl; [|exact Hrest]. intros e. apply beforePhase_not_hook.
    + apply Forall_app. split; [exact Hd|]. constructor.
      * cbn. intros ->. rewrite <- Hh, Hhook. discriminate.
      * eapply Forall_impl; [|exact Hrest].
        intros e. apply hookDefined_not_hook.
    + intros -> _. left. exists arg, r. rewrite in_app_iff. cbn. auto.
Qed.

Lemma phaseSnapshot_due (u : nat) (st0 s : @State W)
    (qs : list AfterRenderPhase) (p : AfterRenderPhase) :
  In u (elements (sequences st0)) ->
  executing s = true -> sequences s = sequences st0 ->
  (exists d,
     causeInv u st0 s d /\
     Forall (beforePhase (S (phase_index p))) d /\
     Forall (hookDefined u (hooks (heap st0 u))) d /\
     (forall q, In q qs -> hookAt (hooks (heap st0 u)) q <> None ->
                ranOrStoppedBy u q d)) ->
  exists d,
    causeInv u st0 (phaseSnapshot p s) d /\
    Forall (beforePhase (S (phase_index p))) d /\
    Forall (hookDefined u (hooks (heap st0 u))) d /\
    (forall q, In q (qs ++ [p]) -> hookAt (hooks (heap st0 u)) q <> None ->
               ranOrStoppedBy u q d).
Proof.
  intros Hu E Q (d0 & Hc0 & Hb0 & Hd0 & Hg0).
  unfold phaseSnapshot. rewrite Q.
  pose (Inv := fun (done : list nat) (s' : @State W) =>
    executing s' = true /\
    exists d,
      causeInv u st0 s' d /\
      Forall (beforePhase (S (phase_index p))) d /\
      Forall (hookDefined u (hooks (heap st0 u))) d /\
      (forall q, In q qs -> hookAt (hooks (heap st0 u)) q <> None ->
                 ranOrStoppedBy u q d) /\
      (In u done -> hookAt (hooks (heap st0 u)) p <> None ->
       ranOrStoppedBy u p d)).
  assert (G : Inv (elements (sequences st0))
                (forEach (hookState p) (elements (sequences st0)) s)).
  { apply forEach_invariant.
    - unfold Inv. split; [exact E|]. exists d0.
      split; [exact Hc0|]. split; [exact Hb0|]. split; [exact Hd0|].
      split; [exact Hg0|]. intros [].
    - intros done x todo s' _ (E' & d & Hc & Hb & Hd & Hg & Hr).
      unfold Inv. rewrite hookState_executing. split; [exact E'|].
      destruct (hookState_due u st0 s' d p x E' Hc Hb Hd)
        as (d' & Hc' & Hb' & Hd' & Hx).
      exists (d ++ d'). split; [exact Hc'|]. split; [exact Hb'|].
      split; [exact Hd'|]. split.
      + intros q Hq Hdef. apply ranOrStoppedBy_app. now apply Hg.
      + rewrite in_app_iff. cbn. intros [Hin|[->|[]]] Hdef.
        * apply ranOrStoppedBy_app. now apply Hr.
        * now apply Hx. }
  destruct G as (_ & d & Hc & Hb & Hd & Hg & Hr).
  exists d. split; [exact Hc|]. split; [exact Hb|]. split; [exact Hd|].
  intros q. rewrite in_app_iff. cbn. intros [Hq|[<-|[]]] Hdef.
  - now apply Hg.
  - now apply Hr.
Qed.

Lemma afterPhases_due (u : nat) (st : @State W) :
  In u (elements (sequences st)) ->
  erroredOrDestroyed (heap st u) = false ->
  exists d,
    trace (afterPhases st) = trace st ++ d /\
    Forall (hookDefined u (hooks (heap st u))) d /\
    (forall q, hookAt (hooks (heap st u)) q <> None ->
               ranOrStoppedBy u q d).
Proof.
  intros Hu He.
  set (st0 := set_executing true st).
  assert (H0 : exists d,
            causeInv u st0 st0 d /\
            Forall (beforePhase (S (phase_index EarlyRead))) d /\
            Forall (hookDefined u (hooks (heap st0 u))) d /\
            (forall q, In q [] -> hookAt (hooks (heap st0 u)) q <> None ->
                       ranOrStoppedBy u q d)).
  { exists []. split; [|split; [constructor|split; [constructor|]]].
    - unfold causeInv. rewrite app_nil_r.
      split; [reflexivity|]. split; [reflexivity|].
      cbn. congruence.
    - intros q []. }
  assert (Hstep : forall qs p p' s,
            phase_index p' = S (phase_index p) \/ p' = p ->
            executing s = true -> sequences s = sequences st0 ->
            (exists d,
               causeInv u st0 s d /\
               Forall (beforePhase (S (phase_index p))) d /\
               Forall (hookDefined u (hooks (heap st0 u))) d /\
               (forall q, In q qs -> hookAt (hooks (heap st0 u)) q <> None ->
                          ranOrStoppedBy u q d)) ->
            executing (phaseSnapshot p s) = true /\
            sequences (phaseSnapshot p s) = sequences st0 /\
            exists d,
              causeInv u st0 (phaseSnapshot p s) d /\
              Forall (beforePhase (S (phase_index p'))) d /\
              Forall (hookDefined u (hooks (heap st0 u))) d /\
              (forall q, In q (qs ++ [p]) ->
                         hookAt (hooks (heap st0 u)) q <> None ->
                         ranOrStoppedBy u q d)).
  { intros qs p p' s Hp E Q H.
    destruct (forEach_hookState_frame p (elements (sequences s)) s E)
      as [F1 F2].
    split; [exact F1|]. split; [unfold phaseSnapshot; congruence|].
    destruct (phaseSnapshot_due u st0 s qs p Hu E Q H)
      as (d & Hc & Hb & Hd & Hg).
    exists d. split; [exact Hc|]. split; [|split; [exact Hd|exact Hg]].
    eapply Forall_impl; [|exact Hb].
    intros e. apply beforePhase_le. destruct Hp as [->| ->]; lia. }
  destruct (Hstep [] EarlyRead Write st0 (or_introl eq_refl) eq_refl eq_refl
              H0) as (E1 & Q1 & H1).
  destruct (Hstep _ Write MixedReadWrite _ (or_introl eq_refl) E1 Q1 H1)
    as (E2 & Q2 & H2).
  destruct (Hstep _ MixedReadWrite Read _ (or_introl eq_refl) E2 Q2 H2)
    as (E3 & Q3 & H3).
  destruct (Hstep _ Read Read _ (or_intror eq_refl) E3 Q3 H3)
    as (_ & _ & d & Hc & _ & Hd & Hg).
  exists d. split; [apply Hc|]. split; [exact Hd|].
  intros q Hdef. apply Hg; [|exact Hdef]. destruct q; cbn; auto.
Qed.

(** Over a whole execution: [u] ran its hook of each phase or was stopped by
    then, and every hook of [u] that was invoked is one [u] has. *)
Lemma executeSnapshot_due (st : @State W) (u : nat) :
  wf (sequences st) ->
  In u (elements (sequences st)) ->
  erroredOrDestroyed (heap st u) = false ->
  Forall (hookDefined u (hooks (heap st u)))
    (newEvents st (executeSnapshot st)) /\
  (forall q, hookAt (hooks (heap st u)) q <> None ->
             ranOrStoppedBy u q (newEvents st (executeSnapshot st))).
Proof.
  intros Hwf Hu He.
  destruct (executeSnapshot_parts st Hwf) as (dp & dc & df & T & N & Hep & _).
  destruct (afterPhases_due u st Hu He) as (d & T' & Hd & G).
  assert (d = dp) as ->.
  { rewrite T in T'. now apply app_inv_head in T'. }
  rewrite N. split.
  - apply Forall_app. split; [exact Hd|].
    eapply Forall_impl; [|exact (epilogue_not_hook _ Hep)].
    intros e. apply hookDefined_not_hook.
  - intros q Hdef. apply ranOrStoppedBy_app. now apply G.
Qed.


(** C1.  Within one call of [execute] that returns, hooks run phase by phase
    in the order EarlyRead, Write, MixedReadWrite, Read.  Only active
    sequences have hooks invoked; whenever a hook of phase [p] and a hook of
    a later phase [q] are both invoked, whatever their sequences, the one of
    [p] is invoked first; no sequence has its hook of one phase invoked
    twice; and every hook of every active sequence is invoked, unless the
    sequence was stopped by the time its turn came: one of its hooks had
    thrown, or it had been unregistered. *)
Theorem execute_phase_order (fuel : nat) (st st' : @State W) :
  wf (sequences st) ->
  execute fuel st = Some (Normal st') ->
  let tr := newEvents st st' in
  (forall s p a r, In (EvHook s p a r) tr -> In s (elements (sequences st))) /\
  (forall i j s t p q a b r1 r2,
     nth_error tr i = Some (EvHook s p a r1) ->
     nth_error tr j = Some (EvHook t q b r2) ->
     phase_index p < phase_index q -> i < j) /\
  (forall i j s p a b r1 r2,
     nth_error tr i = Some (EvHook s p a r1) ->
     nth_error tr j = Some (EvHook s p b r2) -> i = j) /\
  (forall u q,
     In u (elements (sequences st)) ->
     erroredOrDestroyed (heap st u) = false ->
     hookAt (hooks (heap st u)) q <> None ->
     ranOrStoppedBy u q tr).
Proof.
  intros Hwf Hex tr. unfold tr.
  rewrite (execute_snapshot fuel st st' Hwf Hex).
  destruct (executeSnapshot_sorted st Hwf) as [Hs Hm].
  pose proof (StronglySorted_nth hookOrder _ Hs) as Hnth.
  split; [|split; [|split]].
  - intros s p a r Hin. rewrite Forall_forall in Hm.
    exact (Hm _ Hin).
  - intros i j s t p q a b r1 r2 Hi Hj Hpq.
    destruct (Nat.lt_trichotomy i j) as [L|[->|L]]; auto.
    + rewrite Hi in Hj. injection Hj as -> ->. lia.
    + specialize (Hnth j i _ _ L Hj Hi). cbn in Hnth.
      destruct Hnth as [H|[-> _]]; lia.
  - intros i j s p a b r1 r2 Hi Hj.
    destruct (Nat.lt_trichotomy i j) as [L|[->|L]]; auto.
    + specialize (Hnth i j _ _ L Hi Hj). cbn in Hnth.
      destruct Hnth as [H|[_ H]]; [lia|now elim H].
    + specialize (Hnth j i _ _ L Hj Hi). cbn in Hnth.
      destruct Hnth as [H|[_ H]]; [lia|now elim H].
  - intros u q Hu He Hdef.
    now apply (executeSnapshot_due st u Hwf Hu He).
Qed.

(** C9, amended.  Let the error handler never throw.  When a hook of
    sequence [t] throws during [execute]: the error is reported to the error
    handler, if there is one, right after the calls the hook made; [t] is
    flagged [erroredOrDestroyed] and none of its hooks is invoked later in
    that execution; [execute] returns, whatever fuel it is given beyond
    [enoughFuel]; and every sequence that is active, not flagged at the
    start and not stopped itself (no throw of its own, not unregistered)
    has each of its hooks invoked. *)
Theorem hook_throw_contained (fuel : nat) (st st' : @State W) (t : nat)
    (p : AfterRenderPhase) (a err : JsValue) (l1 l2 : list Event) :
  wf (sequences st) ->
  handlerSafe st ->
  execute fuel st = Some (Normal st') ->
  newEvents st st' = l1 ++ EvHook t p a (Throw err) :: l2 ->
  (hasHandler st = true ->
   exists cs rest, l2 = cs ++ EvHandleError err :: rest /\
                   Forall (fun c => isCallEvent c = true) cs) /\
  erroredOrDestroyed (heap (afterPhases st) t) = true /\
  (forall q b r, ~ In (EvHook t q b r) l2) /\
  ((forall fuel', enoughFuel st <= fuel' ->
      execute fuel' st = Some (Normal st')) /\
   executing st' = false) /\
  (forall u q,
     In u (elements (sequences st)) ->
     hookAt (hooks (heap st u)) q <> None ->
     erroredOrDestroyed (heap st u) = false ->
     existsb (stops u) (newEvents st st') = false ->
     exists b r, In (EvHook u q b r) (newEvents st st')).
Proof.
  intros Hwf Hsafe Hex Hsplit.
  rewrite (execute_snapshot fuel st st' Hwf Hex) in *.
  destruct (executeSnapshot_parts st Hwf)
    as (dp & dc & df & T & N & Hep & _ & _ & _ & _ & _ & Xf & _).
  rewrite N in *.
  destruct (split_in_prefix dp (dc ++ df) l1 l2 _ Hsplit
              (epilogue_no_hook_event _ t p a (Throw err) Hep))
    as (l2' & Hdp & ->).
  destruct (afterPhases_stoppedInv t st)
    as ((d & T' & Hq & He & _) & _ & _).
  assert (d = dp) as ->.
  { rewrite T in T'. now apply app_inv_head in T'. }
  assert (Hstop : stops t (EvHook t p a (Throw err)) = true).
  { unfold stops, isMarkOf, isThrowOf. now rewrite Nat.eqb_refl. }
  split; [|split; [|split; [|split]]].
  - intros Hh.
    destruct (afterPhases_forwarded st Hh) as (d & T'' & F).
    assert (d = dp) as ->.
    { rewrite T in T''. now apply app_inv_head in T''. }
    assert (F' : forwarded (dp ++ dc ++ df)).
    { apply forwarded_app; auto.
      now apply forwarded_not_hook, epilogue_not_hook. }
    rewrite Hdp, <- app_assoc in F'. cbn in F'.
    now apply forwarded_split in F'.
  - apply He. rewrite Hdp, existsb_app. cbn [existsb].
    rewrite Hstop. now rewrite orb_true_r.
  - intros q b r. rewrite in_app_iff. intros [H|H].
    + rewrite Hdp in Hq. apply quietAfter_split in Hq; auto.
      rewrite Forall_forall in Hq. specialize (Hq _ H).
      cbn in Hq. now rewrite Nat.eqb_refl in Hq.
    + now apply epilogue_no_hook_event in H.
  - split; [|exact Xf].
    intros fuel' Hf. now apply execute_enough.
  - intros u q Hu Hdef Herr Hns.
    destruct (afterPhases_ran u st Hwf Hu Herr) as (d & T'' & G).
    assert (d = dp) as ->.
    { rewrite T in T''. now apply app_inv_head in T''. }
    destruct (G q (all_phases q) Hdef) as [(b & r & H)|H].
    + exists b, r. rewrite in_app_iff. auto.
    + rewrite existsb_app, H in Hns. discriminate.
Qed.

(** *** The pipelined value *)

















(** *** Registrations made during an execution *)

Lemma replayDeferred_errorEvents (b : bool) (r : Outcome) (s : JsSet.t) :
  fold_left replayDeferred (errorEvents b r) s = s.
Proof. destruct r, b; reflexivity. Qed.

Lemma afterPhases_deferredInv (st : @State W) :
  deferredInv st (afterPhases st).
Proof.
  apply (afterPhases_invariant (deferredInv st)).
  - exists []. cbn. now rewrite app_nil_r.
  - intros p x s E _ _ (d & T & D).
    destruct (hookState_spec p x s E) as [[-> _]|(h & evs & H)].
    { exists d. auto. }
    destruct H as (_ & _ & T' & _ & _ & D' & _).
    eexists. split; [rewrite T', T, <- app_assoc; reflexivity|].
    rewrite fold_left_app. cbn [fold_left replayDeferred].
    rewrite fold_left_app, replayDeferred_errorEvents, D', D.
    reflexivity.
Qed.




(** *** The error handler stays the same *)




End Spec.

(** *** The demo manager *)

Lemma demo_wf : wf (sequences Demo.manager).
Proof. unfold wf. cbn. repeat constructor; cbn; intuition discriminate. Qed.

Lemma demo_safe : handlerSafe Demo.manager.
Proof. intros handler err w H. cbn in H. now injection H as <-. Qed.



Lemma execute_phase_order_witness :
  let tr := newEvents Demo.manager (executeSnapshot Demo.manager) in
  (forall s p a r,
     In (EvHook s p a r) tr -> In s (elements (sequences Demo.manager))) /\
  (forall i j s t p q a b r1 r2,
     nth_error tr i = Some (EvHook s p a r1) ->
     nth_error tr j = Some (EvHook t q b r2) ->
     phase_index p < phase_index q -> i < j) /\
  (forall i j s p a b r1 r2,
     nth_error tr i = Some (EvHook s p a r1) ->
     nth_error tr j = Some (EvHook s p b r2) -> i = j) /\
  (forall u q,
     In u (elements (sequences Demo.manager)) ->
     erroredOrDestroyed (heap Demo.manager u) = false ->
     hookAt (hooks (heap Demo.manager u)) q <> None ->
     ranOrStoppedBy u q tr).
Proof.
  apply (execute_phase_order 5 Demo.manager (executeSnapshot Demo.manager)).
  - exact demo_wf.
  - apply execute_enough;
      [exact demo_wf | exact demo_safe | vm_compute; lia].
Defined.


Lemma hook_throw_contained_witness :
  let tr := newEvents Demo.manager (executeSnapshot Demo.manager) in
  let l2 := [EvHandleError (JsString "boom");
             EvHook 0 Read (JsNumber 2) (Return (JsNumber 2));
             EvDestroy 2; EvUnregister 2 false; EvUnregisterOnDestroy 2;
             EvDestroy 4; EvUnregister 4 false;
             EvNotify DeferredRenderHook] in
  (hasHandler Demo.manager = true ->
   exists cs rest, l2 = cs ++ EvHandleError (JsString "boom") :: rest /\
                   Forall (fun c => isCallEvent c = true) cs) /\
  erroredOrDestroyed (heap (afterPhases Demo.manager) 1) = true /\
  (forall q b r, ~ In (EvHook 1 q b r) l2) /\
  ((forall fuel', enoughFuel Demo.manager <= fuel' ->
      execute fuel' Demo.manager =
      Some (Normal (executeSnapshot Demo.manager))) /\
   executing (executeSnapshot Demo.manager) = false) /\
  (forall u q,
     In u (elements (sequences Demo.manager)) ->
     hookAt (hooks (heap Demo.manager u)) q <> None ->
     erroredOrDestroyed (heap Demo.manager u) = false ->
     existsb (stops u) tr = false ->
     exists b r, In (EvHook u q b r) tr).
Proof.
  apply (hook_throw_contained 5 Demo.manager (executeSnapshot Demo.manager)
           1 Write JsUndefined (JsString "boom")
           [EvHook 0 EarlyRead JsUndefined (Return (JsNumber 1));
            EvHook 2 EarlyRead JsUndefined (Return JsUndefined);
            EvRegister 3 true; EvUnregister 4 true; EvRegister 5 true;
            EvDestroy 5; EvUnregister 5 false;
            EvHook 0 Write (JsNumber 1) (Return (JsNumber 2))]).
  - exact demo_wf.
  - exact demo_safe.
  - apply execute_enough;
      [exact demo_wf | exact demo_safe | vm_compute; lia].
  - reflexivity.
Defined.

(** C9 as stated fails when the error handler itself throws.  In
    [Demo.managerRethrow] the [Write] hook of sequence 1 throws and the
    handler throws in turn: [execute] ends abruptly with what the handler
    threw, whatever the fuel; [executing] is left set, the cleanup step has
    not run, and the [Read] hook of sequence 0, which had not run yet, is
    never invoked. *)
Lemma hook_throw_contained_counterexample :
  (forall fuel,
     match execute fuel Demo.managerRethrow with
     | Some (Normal _) => False
     | _ => True
     end) /\
  match execute 5 Demo.managerRethrow with
  | Some (Abrupt thrown st') =>
      thrown = JsString "boom" /\
      trace st' =
        [EvHook 0 EarlyRead JsUndefined (Return (JsNumber 1));
         EvHook 2 EarlyRead JsUndefined (Return JsUndefined);
         EvRegister 3 true; EvUnregister 4 true; EvRegister 5 true;
         EvDestroy 5; EvUnregister 5 false;
         EvHook 0 Write (JsNumber 1) (Return (JsNumber 2));
         EvHook 1 Write JsUndefined (Throw (JsString "boom"));
         EvHandleError (JsString "boom")] /\
      executing st' = true /\
      In 0 (elements (sequences st')) /\
      erroredOrDestroyed (heap st' 0) = false /\
      existsb (stops 0) (trace st') = false /\
      hookAt (hooks (heap st' 0)) Read <> None /\
      (forall b r, ~ In (EvHook 0 Read b r) (trace st'))
  | _ => False
  end.
Proof.
  split.
  - intros [|[|[|[|[|fuel]]]]]; vm_compute; exact I.
  - vm_compute.
    repeat (split; [try reflexivity; try discriminate; auto|]).
    intros b r H. repeat (destruct H as [H|H]; [discriminate|]). exact H.
Qed.







End AfterRenderSpec.

(** ** The after-render manager: registration, removal and what an
    execution leaves behind *)

Module AfterRenderMore.

Import JsSet JsSetFacts AfterRender AfterRenderLoops AfterRenderTrace
  AfterRenderSpec.

Section More.

Context {W : Type}.

(** *** [register] and [unregister] outside an execution *)

Lemma filter_out_last (x : nat) (l : list nat) :
  ~ In x l ->
  filter (fun y => negb (Nat.eqb x y)) (l ++ [x]) = l.
Proof.
  intros H. rewrite filter_app. cbn. rewrite Nat.eqb_refl. cbn.
  rewrite app_nil_r. induction l as [|y l IH]; cbn; auto.
  destruct (Nat.eqb_spec x y) as [->|N]; cbn.
  - exfalso. apply H. cbn. auto.
  - f_equal. apply IH. intros Hx. apply H. cbn. auto.
Qed.

Lemma register_idle (x : nat) (st : @State W) :
  executing st = false ->
  sequences (register x st) = add (sequences st) x /\
  deferredRegistrations (register x st) = deferredRegistrations st /\
  trace (register x st) =
    trace st ++ [EvRegister x false; EvNotify RenderHook] /\
  heap (register x st) = heap st /\
  views (register x st) = views st /\
  executing (register x st) = false.
Proof.
  intros E. unfold register, notify.
  cbn [executing emit]. rewrite E. cbn.
  rewrite <- app_assoc. repeat split; auto.
Qed.

Lemma register_running (x : nat) (st : @State W) :
  executing st = true ->
  sequences (register x st) = sequences st /\
  deferredRegistrations (register x st) =
    add (deferredRegistrations st) x /\
  trace (register x st) = trace st ++ [EvRegister x true] /\
  heap (register x st) = heap st /\
  views (register x st) = views st /\
  executing (register x st) = true.
Proof.
  intros E. unfold register.
  cbn [executing emit]. rewrite E. cbn. repeat split; auto.
Qed.

(** X1.  Outside an execution, [register] followed by [unregister] of a
    sequence that was not active leaves the active set with the members it
    had, in the order they had, and the sequence is in neither set. *)
Theorem register_unregister_idle (x : nat) (st : @State W) :
  executing st = false ->
  ~ In x (elements (sequences st)) ->
  elements (sequences (unregister x (register x st))) =
    elements (sequences st) /\
  ~ In x (elements (deferredRegistrations (unregister x (register x st)))).
Proof.
  intros E Hx.
  destruct (register_idle x st E) as (S1 & D1 & _ & _ & _ & E1).
  destruct (unregister_idle x (register x st) E1) as [S2 D2].
  rewrite S2, D2, S1. split.
  - rewrite elements_delete, elements_add.
    apply has_false_In in Hx. rewrite Hx.
    apply filter_out_last. now apply has_false_In.
  - rewrite In_elements_delete. tauto.
Qed.

(** X2.  Outside an execution, [unregister] followed by [register] leaves
    the sequence active and last in the order in which hooks run; the other
    members keep their order. *)
Theorem unregister_register_idle (x : nat) (st : @State W) :
  executing st = false ->
  elements (sequences (register x (unregister x st))) =
    filter (fun y => negb (Nat.eqb x y)) (elements (sequences st)) ++ [x].
Proof.
  intros E.
  destruct (unregister_idle x st E) as [S1 _].
  assert (E1 : executing (unregister x st) = false).
  { pose proof (unregister_sameConfig x st) as (H & _). congruence. }
  destruct (register_idle x (unregister x st) E1) as (S2 & _).
  rewrite S2, S1, elements_add.
  assert (H : has (delete (sequences st) x) x = false).
  { apply has_false_In. rewrite In_elements_delete. tauto. }
  rewrite H, elements_delete. reflexivity.
Qed.

(** *** Registration through a view *)

Lemma upd_same {A : Type} (f : nat -> A) (k : nat) (v : A) : upd f k v k = v.
Proof. unfold upd. now rewrite Nat.eqb_refl. Qed.

Lemma upd_other {A : Type} (f : nat -> A) (k j : nat) (v : A) :
  j <> k -> upd f k v j = f j.
Proof.
  intros H. unfold upd. now apply Nat.eqb_neq in H as ->.
Qed.

Lemma register_fields (x : nat) (st : @State W) :
  sequences (register x st) =
    (if executing st then sequences st else add (sequences st) x) /\
  deferredRegistrations (register x st) =
    (if executing st then add (deferredRegistrations st) x
     else deferredRegistrations st) /\
  trace (register x st) = trace st ++ registerEvents (executing st) [x] /\
  heap (register x st) = heap st /\
  views (register x st) = views st /\
  executing (register x st) = executing st.
Proof.
  destruct (executing st) eqn:E.
  - destruct (register_running x st E) as (A & B & C & D & F & G).
    repeat split; auto.
  - destruct (register_idle x st E) as (A & B & C & D & F & G).
    repeat split; auto.
Qed.

Lemma registerEvents_cons (b : bool) (x : nat) (q : list nat) :
  registerEvents b (x :: q) = registerEvents b [x] ++ registerEvents b q.
Proof. unfold registerEvents. cbn. now rewrite app_nil_r. Qed.

(** The run of [registerAfterRendersInView] with enough fuel. *)
Lemma registerAfterRendersInView_run (q : list nat) :
  forall (fuel v : nat) (st : @State W),
    queueOf v st = Some q ->
    length q < fuel ->
    exists st',
      registerAfterRendersInView fuel v st = Some st' /\
      queueOf v st' = Some [] /\
      (forall w, w <> v -> views st' w = views st w) /\
      heap st' = heap st /\
      trace st' = trace st ++ registerEvents (executing st) q /\
      sequences st' =
        (if executing st then sequences st
         else fold_left add q (sequences st)) /\
      deferredRegistrations st' =
        (if executing st then fold_left add q (deferredRegistrations st)
         else deferredRegistrations st).
Proof.
  induction q as [|x q IH]; intros fuel v st Hq Hfuel;
    (destruct fuel as [|fuel]; [cbn in Hfuel; lia|]);
    unfold queueOf in Hq; cbn [registerAfterRendersInView]; rewrite Hq.
  - exists st. unfold queueOf. rewrite app_nil_r.
    repeat split; auto; destruct (executing st); reflexivity.
  - set (st1 := set_views _ st).
    destruct (register_fields x st1) as (A & B & C & D & F & G).
    change (executing st1) with (executing st) in *.
    change (sequences st1) with (sequences st) in *.
    change (deferredRegistrations st1) with (deferredRegistrations st) in *.
    change (trace st1) with (trace st) in *.
    change (heap st1) with (heap st) in *.
    destruct (IH fuel v (register x st1)) as (st' & R & Q' & V' & H' & T' & S' & D').
    { unfold queueOf. rewrite F. unfold st1. cbn. now rewrite upd_same. }
    { cbn in Hfuel. lia. }
    exists st'. split; [exact R|]. split; [exact Q'|].
    split.
    { intros w Hw. rewrite (V' w Hw), F. unfold st1. cbn.
      now apply upd_other. }
    split; [now rewrite H', D|].
    split.
    { rewrite T', C, G, (registerEvents_cons _ x q), <- app_assoc.
      reflexivity. }
    rewrite S', D', A, B, G.
    destruct (executing st); auto.
Qed.

(** With less fuel the loop does not finish. *)
Lemma registerAfterRendersInView_starved (q : list nat) :
  forall (fuel v : nat) (st : @State W),
    queueOf v st = Some q ->
    fuel <= length q ->
    registerAfterRendersInView fuel v st = None.
Proof.
  induction q as [|x q IH]; intros fuel v st Hq Hfuel;
    (destruct fuel as [|fuel]; [reflexivity|]);
    [cbn in Hfuel; lia|].
  unfold queueOf in Hq. cbn [registerAfterRendersInView]. rewrite Hq.
  apply IH.
  - unfold queueOf.
    destruct (register_fields x
                (set_views
                   (upd (views st) v
                      {| afterRenderSequencesToRegister := Some q;
                         hasChildViewsToRefresh :=
                           hasChildViewsToRefresh (views st v) |}) st))
      as (_ & _ & _ & _ & F & _).
    rewrite F. cbn. now rewrite upd_same.
  - cbn in Hfuel. lia.
Qed.

(** X3.  [registerAfterRendersInView] needs as much fuel as the view has
    queued sequences, plus one: with less it does not finish, with that much
    it returns.  It then has registered every queued sequence, in the order
    of the queue, and left the queue empty; the other views and the sequence
    objects are as they were.  Outside an execution the sequences join the
    active set and the scheduler is notified with [RenderHook] once per
    sequence; during an execution they join the deferred registrations. *)
Theorem registerAfterRendersInView_drains (fuel v : nat) (st : @State W)
    (q : list nat) :
  queueOf v st = Some q ->
  (fuel <= length q -> registerAfterRendersInView fuel v st = None) /\
  (length q < fuel ->
   exists st',
     registerAfterRendersInView fuel v st = Some st' /\
     queueOf v st' = Some [] /\
     (forall w, w <> v -> views st' w = views st w) /\
     heap st' = heap st /\
     trace st' = trace st ++ registerEvents (executing st) q /\
     sequences st' =
       (if executing st then sequences st
        else fold_left add q (sequences st)) /\
     deferredRegistrations st' =
       (if executing st then fold_left add q (deferredRegistrations st)
        else deferredRegistrations st)).
Proof.
  intros Hq. split.
  - now apply registerAfterRendersInView_starved.
  - now apply registerAfterRendersInView_run.
Qed.

(** A view that has no queue at all: nothing happens. *)
Lemma registerAfterRendersInView_no_queue (fuel v : nat) (st : @State W) :
  queueOf v st = None ->
  registerAfterRendersInView (S fuel) v st = Some st.
Proof. unfold queueOf. intros H. cbn. now rewrite H. Qed.

Lemma In_fold_add (q : list nat) (s : JsSet.t) (y : nat) :
  In y (elements (fold_left add q s)) <-> In y (elements s) \/ In y q.
Proof.
  revert s. induction q as [|x q IH]; intros s; cbn.
  - tauto.
  - rewrite IH, In_elements_add. intuition.
Qed.



Lemma modify_readonly (x : nat)
    (f : @AfterRenderSequence W -> @AfterRenderSequence W) (st : @State W) :
  (forall q, view (f q) = view q /\
             unregisterOnDestroy (f q) = unregisterOnDestroy q) ->
  views (modify x f st) = views st /\
  (forall y, view (heap (modify x f st) y) = view (heap st y)) /\
  (forall y, unregisterOnDestroy (heap (modify x f st) y) =
             unregisterOnDestroy (heap st y)).
Proof.
  intros Hf. split; [reflexivity|].
  split; intros y; unfold modify, set_heap, upd; cbn [heap];
    (destruct (Nat.eqb_spec y x) as [->|N]; [apply Hf|reflexivity]).
Qed.

Lemma unregister_views (x : nat) (st : @State W) :
  views (unregister x st) = views st /\
  (forall y, view (heap (unregister x st) y) = view (heap st y)) /\
  (forall y, unregisterOnDestroy (heap (unregister x st) y) =
             unregisterOnDestroy (heap st y)).
Proof.
  unfold unregister.
  destruct (executing st && has (sequences st) x).
  - set (st0 := emit (EvUnregister x true) st).
    set (st1 := modify x (with_erroredOrDestroyed true) st0).
    set (st2 := modify x (with_pipelinedValue JsUndefined) st1).
    destruct (modify_readonly x (with_erroredOrDestroyed true) st0)
      as (A1 & B1 & C1); [intros q; split; reflexivity|].
    destruct (modify_readonly x (with_pipelinedValue JsUndefined) st1)
      as (A2 & B2 & C2); [intros q; split; reflexivity|].
    destruct (modify_readonly x (with_once true) st2)
      as (A3 & B3 & C3); [intros q; split; reflexivity|].
    fold st1 in A1, B1, C1. fold st2 in A2, B2, C2.
    split; [rewrite A3, A2, A1; reflexivity|].
    split; intros y.
    + rewrite B3, B2, B1. reflexivity.
    + rewrite C3, C2, C1. reflexivity.
  - repeat split.
Qed.

(** X5.  [destroy] takes the sequence out of the queue of its view, keeping
    the other queued sequences in order; outside an execution it also takes
    it out of the active set and of the deferred registrations.  So a
    registration queued on a view and destroyed before the view is
    traversed never becomes active. *)
Theorem destroy_cancels_queue (x v : nat) (st : @State W) (q : list nat) :
  view (heap st x) = Some v ->
  queueOf v st = Some q ->
  queueOf v (destroy x st) =
    Some (filter (fun s => negb (Nat.eqb s x)) q) /\
  (executing st = false ->
   ~ In x (elements (sequences (destroy x st))) /\
   ~ In x (elements (deferredRegistrations (destroy x st))) /\
   forall fuel st',
     registerAfterRendersInView fuel v (destroy x st) = Some st' ->
     ~ In x (elements (sequences st'))).
Proof.
  intros Hv Hq.
  assert (Hd : queueOf v (destroy x st) =
               Some (filter (fun s => negb (Nat.eqb s x)) q) /\
               sequences (destroy x st) =
                 sequences (unregister x (emit (EvDestroy x) st)) /\
               deferredRegistrations (destroy x st) =
                 deferredRegistrations (unregister x (emit (EvDestroy x) st))
               /\ executing (destroy x st) = executing st).
  { unfold destroy.
    set (st1 := unregister x (emit (EvDestroy x) st)).
    destruct (unregister_views x (emit (EvDestroy x) st)) as (V1 & W1 & _).
    fold st1 in V1, W1.
    assert (E1 : executing st1 = executing st).
    { apply (unregister_sameConfig x (emit (EvDestroy x) st)). }
    set (st2 := if unregisterOnDestroy (heap st1 x)
                then emit (EvUnregisterOnDestroy x) st1 else st1).
    assert (H2 : views st2 = views st1 /\ heap st2 = heap st1 /\
                 sequences st2 = sequences st1 /\
                 deferredRegistrations st2 = deferredRegistrations st1 /\
                 executing st2 = executing st1).
    { unfold st2. destruct (unregisterOnDestroy (heap st1 x)); auto. }
    destruct H2 as (V2 & H2 & S2 & D2 & E2).
    rewrite H2, W1. cbn [emit heap]. rewrite Hv, V2, V1. cbn [emit views].
    unfold queueOf in Hq. rewrite Hq. unfold queueOf. cbn.
    rewrite upd_same. cbn. repeat split; auto. congruence. }
  destruct Hd as (Q & Sq & D & X). split; [exact Q|].
  intros E.
  destruct (unregister_idle x (emit (EvDestroy x) st) E) as [S1 D1].
  rewrite S1 in Sq. rewrite D1 in D.
  assert (Hs : ~ In x (elements (sequences (destroy x st)))).
  { rewrite Sq, In_elements_delete. tauto. }
  split; [exact Hs|]. split.
  { rewrite D, In_elements_delete. tauto. }
  intros fuel st' R.
  set (q' := filter (fun s => negb (Nat.eqb s x)) q) in *.
  assert (Hlen : length q' < fuel).
  { destruct (Nat.lt_ge_cases (length q') fuel) as [L|L]; auto.
    rewrite (registerAfterRendersInView_starved q' fuel v _ Q L) in R.
    discriminate. }
  destruct (registerAfterRendersInView_run q' fuel v (destroy x st) Q Hlen)
    as (st'' & R' & _ & _ & _ & _ & S' & _).
  rewrite R in R'. injection R' as <-.
  rewrite S', X, E, In_fold_add. intros [H|H]; [now apply Hs|].
  unfold q' in H. apply filter_In in H. destruct H as [_ H].
  rewrite Nat.eqb_refl in H. discriminate.
Qed.

End More.

Section Ledger.

Context {W : Type}.

(** *** What an execution leaves behind *)

Lemma callEvents_phase (evs : list Event) :
  Forall (fun e => isCallEvent e = true) evs ->
  Forall (fun e => isPhaseEvent e = true) evs.
Proof. apply Forall_impl. intros [] H; cbn in *; auto. Qed.

Lemma errorEvents_phase (b : bool) (r : Outcome) :
  Forall (fun e => isPhaseEvent e = true) (errorEvents b r).
Proof. destruct r, b; cbn; auto. Qed.

Lemma errorEvents_no_unregister (b : bool) (r : Outcome) (y : nat) (m : bool) :
  ~ In (EvUnregister y m) (errorEvents b r).
Proof. destruct r, b; cbn; intuition discriminate. Qed.

Lemma once_finish (r : Outcome) (q : @AfterRenderSequence W) :
  once (finish r q) = once q.
Proof. destruct r; reflexivity. Qed.

Lemma hookState_ledgerInv (st0 s : @State W) (p : AfterRenderPhase) (x : nat) :
  executing s = true -> sequences s = sequences st0 ->
  In x (elements (sequences st0)) ->
  ledgerInv st0 s -> ledgerInv st0 (hookState p x s).
Proof.
  intros E Q Hx (d & T & Hp & Hu & Ho & Hh & Hf).
  destruct (hookState_spec p x s E) as [[-> _]|(h & evs & H)].
  { exists d. repeat split; auto. }
  destruct H as (_ & _ & T' & C & Hheap & _ & M & U).
  set (arg := pipelinedValue (heap s x)) in *.
  set (r := outcome (h arg (world s))) in *.
  set (errs := errorEvents (hasHandler s) r) in *.
  assert (Hmark : forall t,
            existsb (isMarkOf t) (d ++ EvHook x p arg r :: evs ++ errs) =
            existsb (isMarkOf t) d || existsb (isMarkOf t) evs).
  { intros t. rewrite existsb_app. cbn [existsb isMarkOf].
    rewrite existsb_app.
    destruct (errorEvents_no_stop t (hasHandler s) r) as (_ & N & _).
    fold errs in N. rewrite N, orb_false_r. reflexivity. }
  exists (d ++ EvHook x p arg r :: evs ++ errs).
  split; [now rewrite T', T, <- app_assoc|].
  split.
  { apply Forall_app. split; auto. constructor; [reflexivity|].
    apply Forall_app. split.
    - now apply callEvents_phase.
    - apply errorEvents_phase. }
  split.
  { intros y. rewrite in_app_iff. cbn [In]. rewrite in_app_iff.
    intros [H|[H|[H|H]]].
    - now apply Hu.
    - discriminate.
    - rewrite <- Q. now apply U.
    - now apply errorEvents_no_unregister in H. }
  split.
  { intros t. rewrite Hmark, Hheap. cbn zeta.
    assert (G : once (if existsb (isMarkOf t) evs then mark (heap s t)
                      else heap s t) =
                once (heap s t) || existsb (isMarkOf t) evs).
    { destruct (existsb (isMarkOf t) evs); cbn.
      - now rewrite orb_true_r.
      - now rewrite orb_false_r. }
    destruct (Nat.eqb t x); rewrite ?once_finish, G, Ho, orb_assoc;
      reflexivity. }
  split.
  { intros t. rewrite Hheap. cbn zeta.
    destruct (existsb (isMarkOf t) evs), (Nat.eqb t x);
      rewrite ?hooks_finish, ?hooks_mark; apply Hh. }
  intros t Ht. rewrite Hheap. cbn zeta.
  destruct (existsb (isMarkOf t) evs) eqn:Em.
  { exfalso. apply Ht. rewrite <- Q. now apply M. }
  destruct (Nat.eqb_spec t x) as [->|N]; [contradiction|].
  now apply Hf.
Qed.

Lemma afterPhases_ledgerInv (st : @State W) :
  ledgerInv st (afterPhases st) /\
  executing (afterPhases st) = true /\
  sequences (afterPhases st) = sequences st.
Proof.
  apply (afterPhases_invariant (ledgerInv st)).
  - exists []. cbn. rewrite app_nil_r. repeat split; auto.
    intros t. now rewrite orb_false_r.
  - intros p x s E Q Hx H. now apply hookState_ledgerInv.
Qed.

(** The whole execution in one statement: its events, and the objects and
    the active set it leaves, in terms of the state when the phases are
    over. *)
Lemma executeSnapshot_summary (st : @State W) :
  wf (sequences st) ->
  let S0 := elements (sequences st) in
  let ph := afterPhases st in
  exists dp dc df,
    trace ph = trace st ++ dp /\
    newEvents st (executeSnapshot st) = dp ++ dc ++ df /\
    Forall (fun e => isPhaseEvent e = true) dp /\
    Forall (fun e => isEpilogueEvent e = true) (dc ++ df) /\
    dc = flat_map (fun y => if once (heap ph y)
                            then destroyEvents y (heap ph y) else []) S0 /\
    df = (if 0 <? size (deferredRegistrations (untilCleanupSnapshot st))
          then [EvNotify DeferredRenderHook] else []) /\
    (forall y, In (EvUnregister y false) dp -> ~ In y S0) /\
    (forall t, once (heap ph t) =
               once (heap st t) || existsb (isMarkOf t) dp) /\
    (forall t, hooks (heap ph t) = hooks (heap st t)) /\
    (forall t, ~ In t S0 -> heap ph t = heap st t) /\
    deferredRegistrations ph =
      fold_left replayDeferred dp (deferredRegistrations st) /\
    (forall t, heap (executeSnapshot st) t =
               if memb t S0 then resetSequence (heap ph t) else heap ph t) /\
    (forall t, In t (elements (deferredRegistrations
                                 (untilCleanupSnapshot st))) <->
               In t (elements (deferredRegistrations ph)) /\
               ~ (In t S0 /\ once (heap ph t) = true)) /\
    (forall t, In t (elements (sequences (executeSnapshot st))) <->
               (In t S0 /\ once (heap ph t) = false) \/
               (In t (elements (deferredRegistrations ph)) /\
                ~ (In t S0 /\ once (heap ph t) = true))).
Proof.
  intros Hwf S0 ph.
  destruct (executeSnapshot_parts st Hwf)
    as (dp & dc & df & T & N & Hep & Hc & Hdf & Hheap & Sf & _).
  destruct (afterPhases_ledgerInv st)
    as ((d & T' & Hp & Hu & Ho & Hh & Hf) & _ & Q).
  assert (d = dp) as ->.
  { rewrite T in T'. now apply app_inv_head in T'. }
  destruct (afterPhases_deferredInv st) as (d & T'' & D).
  assert (d = dp) as ->.
  { rewrite T in T''. now apply app_inv_head in T''. }
  destruct Hc as (_ & _ & Vc & Hreset & Sc & Dc & _).
  change (heap (set_executing false (afterPhases st))) with (heap ph) in *.
  change (sequences (set_executing false (afterPhases st)))
    with (sequences ph) in *.
  change (deferredRegistrations (set_executing false (afterPhases st)))
    with (deferredRegistrations ph) in *.
  fold S0 in Vc, Hreset, Sc, Dc.
  exists dp, dc, df.
  split; [exact T|].
  split; [exact N|]. split; [exact Hp|]. split; [exact Hep|].
  split; [exact Vc|].
  split; [exact Hdf|]. split; [exact Hu|]. split; [exact Ho|].
  split; [exact Hh|]. split; [exact Hf|]. split; [exact D|].
  split; [intros t; rewrite Hheap; apply Hreset|].
  split; [exact Dc|].
  intros t. rewrite Sf, Sc, Dc. unfold ph. rewrite Q. fold S0.
  destruct (once (heap (afterPhases st) t)); intuition congruence.
Qed.

(** An event of the phases found in the events of the whole execution, or
    an event of what follows them. *)
Lemma split_app {A : Type} (d rest l1 l2 : list A) (e : A) :
  d ++ rest = l1 ++ e :: l2 ->
  (exists l2', d = l1 ++ e :: l2' /\ l2 = l2' ++ rest) \/ In e rest.
Proof.
  revert d. induction l1 as [|a l1 IH]; intros [|b d] H; cbn in *.
  - right. subst rest. cbn. auto.
  - injection H as -> H. left. exists d. auto.
  - right. subst rest. cbn. right. rewrite in_app_iff. cbn. auto.
  - injection H as -> H. destruct (IH d H) as [(l2' & -> & ->)|Hin]; auto.
    left. exists l2'. auto.
Qed.

Lemma phaseEvents_not_notify (d : list Event) :
  Forall (fun e => isPhaseEvent e = true) d ->
  Forall (fun e => isNotify e = false) d.
Proof. apply Forall_impl. intros [] H; cbn in *; auto; discriminate. Qed.

Lemma cleanupEvents_not_notify (h : nat -> @AfterRenderSequence W)
    (xs : list nat) :
  Forall (fun e => isNotify e = false)
    (flat_map (fun y => if once (h y) then destroyEvents y (h y) else []) xs).
Proof.
  induction xs as [|x xs IH]; cbn; auto.
  apply Forall_app. split; auto.
  unfold destroyEvents.
  destruct (once (h x)), (unregisterOnDestroy (h x)); repeat constructor.
Qed.

Lemma executeUntilCleanup_returns (fuel : nat) (st st' : @State W) :
  wf (sequences st) -> execute fuel st = Some (Normal st') ->
  executeUntilCleanup fuel st = Some (Normal (untilCleanupSnapshot st)).
Proof.
  apply execute_until.
Qed.

(** X6.  During one call of [execute] the scheduler is notified at most
    once, as the last thing [execute] does, and with [DeferredRenderHook]:
    it is notified exactly when, once the cleanup step is over, some
    registration is deferred.  In particular a registration made by a hook
    never notifies with [RenderHook]. *)
Theorem execute_notifies_last (fuel : nat) (st st' : @State W) :
  wf (sequences st) ->
  execute fuel st = Some (Normal st') ->
  exists mid l,
    executeUntilCleanup fuel st = Some (Normal mid) /\
    Forall (fun e => isNotify e = false) l /\
    newEvents st st' =
      l ++ (if 0 <? size (deferredRegistrations mid)
            then [EvNotify DeferredRenderHook] else []).
Proof.
  intros Hwf Hex.
  pose proof (executeUntilCleanup_returns fuel st st' Hwf Hex) as Hmid.
  rewrite (execute_snapshot fuel st st' Hwf Hex). clear Hex.
  destruct (executeSnapshot_summary st Hwf)
    as (dp & dc & df & _ & N & Hp & _ & Vc & Hdf & _).
  exists (untilCleanupSnapshot st), (dp ++ dc).
  split; [exact Hmid|]. split.
  - apply Forall_app. split.
    + now apply phaseEvents_not_notify.
    + rewrite Vc. apply cleanupEvents_not_notify.
  - rewrite N, Hdf, <- app_assoc. reflexivity.
Qed.

Lemma epilogue_no_mark_b (t : nat) (evs : list Event) :
  Forall (fun e => isEpilogueEvent e = true) evs ->
  existsb (isMarkOf t) evs = false.
Proof.
  induction 1 as [|e evs He _ IH]; cbn; auto.
  rewrite IH, orb_false_r. destruct e; cbn in *; auto.
  destruct marked; [discriminate|reflexivity].
Qed.


(** The summary, with the events of the phases tied to the state when the
    phases are over. *)
Lemma executeSnapshot_summary_marks (st : @State W) (t : nat) :
  wf (sequences st) ->
  once (heap (afterPhases st) t) =
    once (heap st t) ||
    existsb (isMarkOf t) (newEvents st (executeSnapshot st)).
Proof.
  intros Hwf.
  destruct (executeSnapshot_parts st Hwf)
    as (dp & dc & df & T & N & Hep & _).
  destruct (afterPhases_ledgerInv st)
    as ((d & T' & _ & _ & Ho & _) & _ & _).
  assert (d = dp) as ->.
  { rewrite T in T'. now apply app_inv_head in T'. }
  rewrite N, existsb_app, (epilogue_no_mark_b t _ Hep), orb_false_r.
  apply Ho.
Qed.

Lemma In_destroyEvents (t : nat) (h : nat -> @AfterRenderSequence W)
    (xs : list nat) :
  In t xs -> once (h t) = true ->
  In (EvDestroy t)
    (flat_map (fun y => if once (h y) then destroyEvents y (h y) else []) xs).
Proof.
  intros Hin Ho. apply in_flat_map. exists t. split; auto.
  rewrite Ho. cbn. auto.
Qed.

(** X7.  A sequence that is active when [execute] starts is still active
    when it returns exactly if it is not one-shot and was not unregistered
    during the execution; otherwise it has been destroyed.  In both cases
    [afterRun] has reset it: [erroredOrDestroyed] is false and
    [pipelinedValue] is undefined, also when one of its hooks threw. *)
Theorem active_after_execute (fuel : nat) (st st' : @State W) (t : nat) :
  wf (sequences st) ->
  execute fuel st = Some (Normal st') ->
  In t (elements (sequences st)) ->
  (In t (elements (sequences st')) <->
   once (heap st t) = false /\
   existsb (isMarkOf t) (newEvents st st') = false) /\
  (~ In t (elements (sequences st')) -> In (EvDestroy t) (newEvents st st')) /\
  erroredOrDestroyed (heap st' t) = false /\
  pipelinedValue (heap st' t) = JsUndefined.
Proof.
  intros Hwf Hex Ht.
  rewrite (execute_snapshot fuel st st' Hwf Hex). clear Hex.
  pose proof (executeSnapshot_summary_marks st t Hwf) as Ho.
  destruct (executeSnapshot_summary st Hwf)
    as (dp & dc & df & _ & N & _ & _ & Vc & _ & _ & _ & _ & _ & _ & Hheap
        & _ & Sf).
  assert (Hiff : In t (elements (sequences (executeSnapshot st))) <->
                 once (heap (afterPhases st) t) = false).
  { rewrite Sf. destruct (once (heap (afterPhases st) t));
      intuition congruence. }
  split; [|split; [|split]].
  - rewrite Hiff, Ho, orb_false_iff. reflexivity.
  - intros Hout. rewrite N, !in_app_iff. right. left. rewrite Vc.
    apply In_destroyEvents; auto.
    destruct (once (heap (afterPhases st) t)) eqn:E; auto.
    exfalso. apply Hout. now apply Hiff.
  - rewrite Hheap. apply memb_In in Ht. rewrite Ht. reflexivity.
  - rewrite Hheap. apply memb_In in Ht. rewrite Ht. reflexivity.
Qed.

(** X8.  [execute] does not touch the sequences that are not active when it
    starts: their flags, pipelined value and hooks are what they were, also
    for a sequence registered or unregistered by a hook meanwhile. *)
Theorem execute_frame (fuel : nat) (st st' : @State W) (t : nat) :
  wf (sequences st) ->
  execute fuel st = Some (Normal st') ->
  ~ In t (elements (sequences st)) ->
  heap st' t = heap st t.
Proof.
  intros Hwf Hex Ht.
  rewrite (execute_snapshot fuel st st' Hwf Hex). clear Hex.
  destruct (executeSnapshot_summary st Hwf)
    as (dp & dc & df & _ & _ & _ & _ & _ & _ & _ & _ & _ & Hf & _ & Hheap
        & _).
  rewrite Hheap. pose proof Ht as Hm. apply memb_false_In in Hm.
  rewrite Hm. apply Hf. exact Ht.
Qed.





Lemma replayDeferred_drops (t : nat) (l : list Event) (s : JsSet.t) :
  ~ In t (elements s) ->
  ~ In (EvRegister t true) l ->
  ~ In t (elements (fold_left replayDeferred l s)).
Proof.
  revert s. induction l as [|e l IH]; intros s Hs Hl; cbn; auto.
  apply IH.
  - destruct e; cbn; auto.
    + destruct deferred; auto. rewrite In_elements_add.
      intros [->|H]; [|contradiction]. apply Hl. cbn. auto.
    + destruct marked; auto. rewrite In_elements_delete. tauto.
  - intros H. apply Hl. cbn. auto.
Qed.

Lemma In_cleanup_unregister (t : nat) (h : nat -> @AfterRenderSequence W)
    (xs : list nat) (b : bool) :
  In (EvUnregister t b)
    (flat_map (fun y => if once (h y) then destroyEvents y (h y) else []) xs) ->
  In t xs /\ once (h t) = true.
Proof.
  intros H. apply in_flat_map in H. destruct H as (y & Hy & H).
  destruct (once (h y)) eqn:E; [|contradiction].
  unfold destroyEvents in H. cbn in H.
  destruct H as [H|[H|H]]; try discriminate.
  - injection H as -> _. auto.
  - destruct (unregisterOnDestroy (h y)); cbn in H;
      intuition discriminate.
Qed.

(** X11.  When [unregister] takes its removing branch during a call of
    [execute] (event [EvUnregister t false]: the sequence was not active, or
    the cleanup step destroyed it) and no [register] of the sequence
    follows, the sequence is not active when [execute] returns: a deferred
    registration that is cancelled is dropped. *)
Theorem unregister_drops_deferred (fuel : nat) (st st' : @State W) (t : nat)
    (l1 l2 : list Event) :
  wf (sequences st) ->
  execute fuel st = Some (Normal st') ->
  newEvents st st' = l1 ++ EvUnregister t false :: l2 ->
  ~ In (EvRegister t true) l2 ->
  ~ In t (elements (sequences st')).
Proof.
  intros Hwf Hex Hsplit Hnone.
  rewrite (execute_snapshot fuel st st' Hwf Hex) in *. clear Hex.
  destruct (executeSnapshot_summary st Hwf)
    as (dp & dc & df & _ & N & _ & _ & Vc & Hdf & Hu & _ & _ & _ & D & _ & _
        & Sf).
  rewrite N in Hsplit. rewrite Sf.
  destruct (split_app dp (dc ++ df) l1 l2 _ Hsplit)
    as [(l2' & Hdp & ->)|Hin].
  - assert (Ht : ~ In t (elements (sequences st))).
    { apply Hu. rewrite Hdp, in_app_iff. cbn. auto. }
    assert (Hd : ~ In t (elements (deferredRegistrations (afterPhases st)))).
    { rewrite D, Hdp, fold_left_app. cbn [fold_left replayDeferred].
      apply replayDeferred_drops.
      - rewrite In_elements_delete. tauto.
      - intros H. apply Hnone. rewrite in_app_iff. auto. }
    tauto.
  - rewrite in_app_iff in Hin. destruct Hin as [Hin|Hin].
    + rewrite Vc in Hin. apply In_cleanup_unregister in Hin.
      destruct Hin as [Hin Ho]. rewrite Ho. intuition congruence.
    + rewrite Hdf in Hin. destruct (0 <? _); cbn in Hin;
        intuition discriminate.
Qed.

End Ledger.

Section Views.

Context {W : Type}.

(** *** An execution and the queues of the views *)














End Views.

Section Throws.

Context {W : Type}.

(** *** An execution that throws *)

Lemma forOf_invariant (I : @State W -> Prop) (set : @State W -> JsSet.t)
    (body : nat -> @State W -> Completion) :
  (forall x st s1, I st -> body x st = Normal s1 -> I s1) ->
  forall fuel i st c, I st ->
    forOf fuel set body i st = Some c ->
    match c with
    | Normal s1 => I s1
    | Abrupt thrown s1 => exists s x, I s /\ body x s = Abrupt thrown s1
    end.
Proof.
  intros Hstep. induction fuel as [|fuel IH]; intros i st c HI H;
    [discriminate|].
  simpl forOf in H. destruct (nth_error (set st) i) as [[x|]|].
  - destruct (body x st) as [s1|thrown s1] eqn:B.
    + apply (IH (S i) s1 c); [|exact H]. now apply (Hstep x st).
    + injection H as <-. exists st, x. auto.
  - now apply (IH (S i) st c).
  - injection H as <-. exact HI.
Qed.

(** A loop whose body completes does not end abruptly. *)
Lemma forOf_completes (set : @State W -> JsSet.t)
    (body : nat -> @State W -> @State W) (fuel i : nat) (st st' : @State W)
    (thrown : JsValue) :
  forOf fuel set (completes body) i st <> Some (Abrupt thrown st').
Proof.
  intros H.
  apply (forOf_invariant (fun _ => True) set (completes body)) in H; auto.
  destruct H as (s & x & _ & B). discriminate.
Qed.

Lemma runHook_running (st0 s s1 : @State W) (p : AfterRenderPhase)
    (x : nat) :
  running st0 s -> runHook p x s = Normal s1 -> running st0 s1.
Proof.
  intros (E & Q & H & d & T) R.
  assert (s1 = hookState p x s) as ->.
  { unfold hookState. now rewrite R. }
  split; [now rewrite hookState_executing|].
  split; [now rewrite hookState_sequences|].
  split; [now rewrite hookState_errorHandler|].
  destruct (hookState_events p x s E) as (evs & T' & _).
  exists (d ++ evs). now rewrite T', T, <- app_assoc.
Qed.

Lemma runPhases_abrupt (st0 : @State W) (fuel : nat)
    (phases : list AfterRenderPhase) :
  forall st thrown st',
    running st0 st ->
    runPhases fuel phases st = Some (Abrupt thrown st') ->
    exists s p x, running st0 s /\ runHook p x s = Abrupt thrown st'.
Proof.
  induction phases as [|p ps IH]; intros st thrown st' Hr H;
    cbn [runPhases] in H; [discriminate|].
  destruct (forOf fuel sequences (runHook p) 0 st) as [[s1|e s1]|] eqn:F;
    try discriminate.
  - apply (forOf_invariant (running st0) sequences (runHook p)) in F;
      [|intros x s s2; apply runHook_running|exact Hr].
    apply (IH s1 thrown st' F H).
  - injection H as <- <-.
    apply (forOf_invariant (running st0) sequences (runHook p)) in F;
      [|intros x s s2; apply runHook_running|exact Hr].
    destruct F as (s & x & Hs & B). exists s, p, x. auto.
Qed.

(** X20.  [execute] throws only when the error handler throws while it is
    told of the error of a hook.  What [execute] throws is what the handler
    threw; telling the handler is the last thing that happened; the hook
    that threw belongs to an active sequence, which is left flagged; and the
    manager is left with [executing] set and the active set it had: neither
    the cleanup step nor the move of the deferred registrations has run. *)
Theorem execute_throws (fuel : nat) (st st' : @State W) (thrown : JsValue) :
  execute fuel st = Some (Abrupt thrown st') ->
  executing st' = true /\
  sequences st' = sequences st /\
  exists handler t p a err w l,
    errorHandler st = Some handler /\
    handlerThrows (handler err w) = Some thrown /\
    newEvents st st' = l ++ [EvHandleError err] /\
    In (EvHook t p a (Throw err)) l /\
    erroredOrDestroyed (heap st' t) = true.
Proof.
  unfold execute, executeUntilCleanup.
  destruct (runPhases fuel AFTER_RENDER_PHASES (set_executing true st))
    as [[s1|e s1]|] eqn:R; try discriminate.
  { destruct (forOf fuel sequences (completes cleanupOne) 0
                (set_executing false s1)) as [[s2|e s2]|] eqn:C;
      try discriminate.
    - unfold flushDeferred.
      destruct (forOf fuel deferredRegistrations (completes addDeferred) 0 s2)
        as [[s3|e s3]|] eqn:F; try discriminate.
      now apply forOf_completes in F.
    - now apply forOf_completes in C. }
  intros [= <- <-].
  apply (runPhases_abrupt (set_executing true st)) in R.
  2:{ split; [reflexivity|]. split; [reflexivity|]. split; [reflexivity|].
      exists []. now rewrite app_nil_r. }
  destruct R as (s & p & x & (E & Q & H & d & T) & B).
  change (sequences (set_executing true st)) with (sequences st) in Q.
  change (errorHandler (set_executing true st)) with (errorHandler st) in H.
  change (trace (set_executing true st)) with (trace st) in T.
  unfold runHook in B.
  destruct (erroredOrDestroyed (heap s x)); [discriminate|].
  destruct (hookAt (hooks (heap s x)) p) as [h|]; [|discriminate].
  cbn zeta in B.
  set (arg := pipelinedValue (heap s x)) in *.
  set (r := h arg (world s)) in *.
  destruct (outcome r) as [v|err] eqn:O; [discriminate|].
  set (s2 := runCalls (calls r)
               (set_world (world' r) (emit (EvHook x p arg (Throw err)) s)))
    in *.
  assert (E2 : executing s2 = true).
  { unfold s2. now rewrite runCalls_executing. }
  assert (Q2 : sequences s2 = sequences st).
  { unfold s2. rewrite runCalls_sequences; [exact Q|exact E]. }
  assert (H2 : errorHandler s2 = errorHandler st).
  { unfold s2. now rewrite runCalls_errorHandler. }
  destruct (runCalls_spec (calls r)
              (set_world (world' r) (emit (EvHook x p arg (Throw err)) s)) E)
    as (evs & T2 & _).
  fold s2 in T2.
  change (trace (set_world (world' r)
                   (emit (EvHook x p arg (Throw err)) s)))
    with (trace s ++ [EvHook x p arg (Throw err)]) in T2.
  unfold handleError in B.
  change (errorHandler (modify x (with_erroredOrDestroyed true) s2))
    with (errorHandler s2) in B.
  rewrite H2 in B.
  destruct (errorHandler st) as [handler|] eqn:EH; [|discriminate].
  cbn zeta in B.
  destruct (handlerThrows _) as [e'|] eqn:HT; [|discriminate].
  injection B as <- <-.
  cbn [executing set_world emit modify set_heap sequences].
  split; [exact E2|]. split; [exact Q2|].
  exists handler, x, p, arg, err,
    (world (modify x (with_erroredOrDestroyed true) s2)),
    (d ++ EvHook x p arg (Throw err) :: evs).
  split; [reflexivity|]. split; [exact HT|]. split; [|split].
  - unfold newEvents. cbn [trace set_world emit modify set_heap].
    assert (Tfull : trace s2 ++ [EvHandleError err] =
                    trace st ++
                    (d ++ EvHook x p arg (Throw err) :: evs) ++
                    [EvHandleError err]).
    { rewrite T2, T. repeat rewrite <- app_assoc. reflexivity. }
    rewrite Tfull, skipn_app, skipn_all, Nat.sub_diag. reflexivity.
  - rewrite in_app_iff. cbn. auto.
  - cbn [heap set_world emit modify set_heap]. unfold upd.
    now rewrite Nat.eqb_refl.
Qed.

End Throws.

(** *** The demo managers *)

Lemma register_unregister_idle_witness :
  elements (sequences (unregister 3 (register 3 Demo.manager))) =
    elements (sequences Demo.manager) /\
  ~ In 3 (elements (deferredRegistrations
                      (unregister 3 (register 3 Demo.manager)))).
Proof.
  apply (register_unregister_idle 3 Demo.manager).
  - reflexivity.
  - cbn. intuition discriminate.
Defined.

Lemma unregister_register_idle_witness :
  elements (sequences (register 1 (unregister 1 Demo.manager))) =
    filter (fun y => negb (Nat.eqb 1 y))
      (elements (sequences Demo.manager)) ++ [1].
Proof.
  apply (unregister_register_idle 1 Demo.manager). reflexivity.
Defined.

Lemma registerAfterRendersInView_drains_witness :
  (2 <= length [7] -> registerAfterRendersInView 2 9 Demo.managerView = None) /\
  (length [7] < 2 ->
   exists st',
     registerAfterRendersInView 2 9 Demo.managerView = Some st' /\
     queueOf 9 st' = Some [] /\
     (forall w, w <> 9 -> views st' w = views Demo.managerView w) /\
     heap st' = heap Demo.managerView /\
     trace st' =
       trace Demo.managerView ++
       registerEvents (executing Demo.managerView) [7] /\
     sequences st' =
       (if executing Demo.managerView then sequences Demo.managerView
        else fold_left add [7] (sequences Demo.managerView)) /\
     deferredRegistrations st' =
       (if executing Demo.managerView
        then fold_left add [7] (deferredRegistrations Demo.managerView)
        else deferredRegistrations Demo.managerView)).
Proof.
  apply (registerAfterRendersInView_drains 2 9 Demo.managerView [7]).
  reflexivity.
Defined.


Lemma destroy_cancels_queue_witness :
  queueOf 9 (destroy 7 Demo.managerView) =
    Some (filter (fun s => negb (Nat.eqb s 7)) [7]) /\
  (executing Demo.managerView = false ->
   ~ In 7 (elements (sequences (destroy 7 Demo.managerView))) /\
   ~ In 7 (elements (deferredRegistrations (destroy 7 Demo.managerView))) /\
   forall fuel st',
     registerAfterRendersInView fuel 9 (destroy 7 Demo.managerView) =
       Some st' ->
     ~ In 7 (elements (sequences st'))).
Proof.
  apply (destroy_cancels_queue 7 9 Demo.managerView [7]); reflexivity.
Defined.

Lemma execute_notifies_last_witness :
  exists mid l,
    executeUntilCleanup 5 Demo.manager = Some (Normal mid) /\
    Forall (fun e => isNotify e = false) l /\
    newEvents Demo.manager (executeSnapshot Demo.manager) =
      l ++ (if 0 <? size (deferredRegistrations mid)
            then [EvNotify DeferredRenderHook] else []).
Proof.
  apply (execute_notifies_last 5 Demo.manager (executeSnapshot Demo.manager)).
  - exact demo_wf.
  - apply execute_enough;
      [exact demo_wf | exact demo_safe | vm_compute; lia].
Defined.

Lemma active_after_execute_witness :
  let st' := executeSnapshot Demo.manager in
  (In 2 (elements (sequences st')) <->
   once (heap Demo.manager 2) = false /\
   existsb (isMarkOf 2) (newEvents Demo.manager st') = false) /\
  (~ In 2 (elements (sequences st')) ->
   In (EvDestroy 2) (newEvents Demo.manager st')) /\
  erroredOrDestroyed (heap st' 2) = false /\
  pipelinedValue (heap st' 2) = JsUndefined.
Proof.
  apply (active_after_execute 5 Demo.manager (executeSnapshot Demo.manager) 2).
  - exact demo_wf.
  - apply execute_enough;
      [exact demo_wf | exact demo_safe | vm_compute; lia].
  - cbn. auto.
Defined.

Lemma execute_frame_witness :
  heap (executeSnapshot Demo.manager) 3 = heap Demo.manager 3.
Proof.
  apply (execute_frame 5 Demo.manager (executeSnapshot Demo.manager) 3).
  - exact demo_wf.
  - apply execute_enough;
      [exact demo_wf | exact demo_safe | vm_compute; lia].
  - cbn. intuition discriminate.
Defined.



Example demoFlaky_events :
  newEvents Demo.managerFlaky (executeSnapshot Demo.managerFlaky) =
    [EvHook 0 Write JsUndefined (Throw (JsString "once"))] /\
  newEvents (executeSnapshot Demo.managerFlaky)
    (executeSnapshot (executeSnapshot Demo.managerFlaky)) =
    [EvHook 0 Write JsUndefined (Return (JsNumber 1));
     EvHook 0 Read (JsNumber 1) (Return (JsNumber 1))].
Proof. split; reflexivity. Qed.



Lemma unregister_drops_deferred_witness :
  ~ In 5 (elements (sequences (executeSnapshot Demo.manager))).
Proof.
  apply (unregister_drops_deferred 5 Demo.manager
           (executeSnapshot Demo.manager) 5
           [EvHook 0 EarlyRead JsUndefined (Return (JsNumber 1));
            EvHook 2 EarlyRead JsUndefined (Return JsUndefined);
            EvRegister 3 true; EvUnregister 4 true; EvRegister 5 true;
            EvDestroy 5]
           [EvHook 0 Write (JsNumber 1) (Return (JsNumber 2));
            EvHook 1 Write JsUndefined (Throw (JsString "boom"));
            EvHandleError (JsString "boom");
            EvHook 0 Read (JsNumber 2) (Return (JsNumber 2));
            EvDestroy 2; EvUnregister 2 false; EvUnregisterOnDestroy 2;
            EvDestroy 4; EvUnregister 4 false;
            EvNotify DeferredRenderHook]).
  - exact demo_wf.
  - apply execute_enough;
      [exact demo_wf | exact demo_safe | vm_compute; lia].
  - reflexivity.
  - cbn. intuition discriminate.
Defined.

Lemma abrupt_result (c : option (@Completion nat)) (thrown : JsValue)
    (otherwise : @State nat) :
  match c with
  | Some (Abrupt e _) => e = thrown
  | _ => False
  end ->
  c = Some (Abrupt thrown
              (match c with
               | Some r => stateOf r
               | None => otherwise
               end)).
Proof.
  destruct c as [[s|e s]|]; try contradiction. now intros ->.
Qed.

Lemma execute_throws_witness :
  let st' := match execute 5 Demo.managerRethrow with
             | Some r => stateOf r
             | None => Demo.managerRethrow
             end in
  executing st' = true /\
  sequences st' = sequences Demo.managerRethrow /\
  exists handler t p a err w l,
    errorHandler Demo.managerRethrow = Some handler /\
    handlerThrows (handler err w) = Some (JsString "boom") /\
    newEvents Demo.managerRethrow st' = l ++ [EvHandleError err] /\
    In (EvHook t p a (Throw err)) l /\
    erroredOrDestroyed (heap st' t) = true.
Proof.
  apply (execute_throws 5 Demo.managerRethrow).
  apply abrupt_result. vm_compute. reflexivity.
Defined.


End AfterRenderMore.

(** ** Signal-graph debug extraction: properties *)

Module SignalDebugSpec.

Import SignalDebug.

(** *** The dependency map *)

Lemma map_has_In (m : JsMap) (k : nat) :
  map_has m k = true <-> In k (map_keys m).
Proof.
  unfold map_has, map_keys. rewrite existsb_exists, in_map_iff. split.
  - intros (e & He & Hk). apply Nat.eqb_eq in Hk. exists e. auto.
  - intros (e & Hk & He). exists e. split; auto. now apply Nat.eqb_eq.
Qed.

Lemma map_has_false_In (m : JsMap) (k : nat) :
  map_has m k = false <-> ~ In k (map_keys m).
Proof.
  rewrite <- map_has_In. destruct (map_has m k); intuition congruence.
Qed.

Lemma map_set_fresh (m : JsMap) (k : nat) (v : list nat) :
  map_has m k = false -> map_set m k v = m ++ [(k, v)].
Proof. intros H. unfold map_set. now rewrite H. Qed.

Lemma map_keys_app (m1 m2 : JsMap) :
  map_keys (m1 ++ m2) = map_keys m1 ++ map_keys m2.
Proof. apply map_app. Qed.

(** *** Extraction leaves the store alone and closes the map *)

Lemma incl_map_keys (m m' : JsMap) : incl m m' -> incl (map_keys m) (map_keys m').
Proof. apply incl_map. Qed.

Lemma extends_refl (h : Store) (m : JsMap) : extends h m m.
Proof. split; [apply incl_refl | auto]. Qed.

Lemma extends_trans (h : Store) (m1 m2 m3 : JsMap) :
  extends h m1 m2 -> extends h m2 m3 -> extends h m1 m3.
Proof.
  intros [I1 C1] [I2 C2]. split.
  - eapply incl_tran; eauto.
  - intros k ps H. destruct (C2 k ps H) as [H2|H2]; auto.
    destruct (C1 k ps H2) as [H1|[E1 K1]]; auto.
    right. split; auto.
    eapply incl_tran; [exact K1|]. now apply incl_map_keys.
Qed.

Lemma extract_spec (fuel : nat) :
  forall roots m h m' h',
    extractSignalNodesAndEdgesFromRoots fuel roots m h = Some (m', h') ->
    h' = h /\
    extends h m m' /\
    incl roots (map_keys m') /\
    (NoDup (map_keys m) -> NoDup (map_keys m')).
Proof.
  induction fuel as [|fuel IH]; intros roots m h m' h' H; [discriminate|].
  cbn [extractSignalNodesAndEdgesFromRoots] in H.
  destruct roots as [|node rest].
  { injection H as <- <-.
    split; [reflexivity|]. split; [apply extends_refl|].
    split; [apply incl_nil_l|auto]. }
  destruct (map_has m node) eqn:Hhas.
  - destruct (IH _ _ _ _ _ H) as (-> & E & R & N).
    split; [reflexivity|]. split; [exact E|]. split; [|exact N].
    intros x [<-|Hx]; auto.
    apply map_has_In in Hhas.
    apply (incl_map_keys _ _ (proj1 E)). exact Hhas.
  - unfold readNode in H. fold (producersOf h node) in H.
    rewrite (map_set_fresh _ _ _ Hhas) in H.
    destruct (extractSignalNodesAndEdgesFromRoots fuel (producersOf h node)
                (m ++ [(node, producersOf h node)]) h)
      as [[m1 h1]|] eqn:H1; [|discriminate].
    destruct (IH _ _ _ _ _ H1) as (-> & E1 & R1 & N1).
    destruct (IH _ _ _ _ _ H) as (-> & E2 & R2 & N2).
    assert (E0 : extends h (m ++ [(node, producersOf h node)]) m').
    { eapply extends_trans; eauto. }
    split; [reflexivity|]. split; [|split].
    + split.
      * intros e He. apply (proj1 E0). rewrite in_app_iff. auto.
      * intros k ps Hin. destruct (proj2 E0 k ps Hin) as [Hold|Hnew]; auto.
        rewrite in_app_iff in Hold. destruct Hold as [Hold|[[= <- <-]|[]]];
          auto.
        right. split; auto.
        eapply incl_tran; [exact R1|].
        apply incl_map_keys. apply E2.
    + intros x [<-|Hx]; auto.
      apply (incl_map_keys _ _ (proj1 E0)).
      rewrite map_keys_app, in_app_iff. cbn. auto.
    + intros Hnd. apply N2, N1. rewrite map_keys_app. cbn.
      apply NoDup_rev in Hnd.
      rewrite <- (rev_involutive (map_keys m ++ [node])).
      apply NoDup_rev. rewrite rev_app_distr. cbn. constructor; auto.
      rewrite <- in_rev. now apply map_has_false_In.
Qed.

Lemma describeNodes_spec (toLowerCase : string -> string) (xs : list nat)
    (h : Store) :
  snd (describeNodes toLowerCase xs h) = h /\
  length (fst (describeNodes toLowerCase xs h)) = length xs.
Proof.
  induction xs as [|x xs IH]; cbn; auto.
  unfold describeNode, readNode.
  destruct (describeNodes toLowerCase xs h) as [ds h'] eqn:E. cbn in IH.
  destruct IH as [-> IH].
  destruct (isComputedNode (h x)); [|destruct (isTemplateNode (h x));
    [|destruct (isEffectNode (h x)); [|destruct (isSignalNode (h x))]]];
    rewrite E; cbn; auto.
Qed.

(** C5.  [getSignalGraph] only reads the reactive graph: whatever the
    injector, and whether it returns a graph or throws, the store of
    [ReactiveNode] objects after the call is the store before the call
    (producer lists, values and debug names included); what it returns is a
    value built from scratch. *)
Theorem getSignalGraph_read_only (toLowerCase : string -> string)
    (fuel : nat) (resolverToEffects : nat -> option (list nat))
    (lViews : LViews) (injector : Injector) (h : Store)
    (res : Result DebugSignalGraph * Store) :
  getSignalGraph toLowerCase fuel resolverToEffects lViews injector h =
    Some res ->
  snd res = h.
Proof.
  unfold getSignalGraph. destruct injector as [|tNode lView|].
  - now intros [= <-].
  - destruct (getTemplateConsumer lViews tNode lView) as [tc|msg|failed];
      [|now intros [= <-]|now intros [= <-]].
    destruct (extractSignalNodesAndEdgesFromRoots fuel _ [] h)
      as [[m h1]|] eqn:E; [|discriminate].
    apply extract_spec in E. destruct E as (-> & _).
    unfold getNodesAndEdgesFromSignalMap.
    pose proof (describeNodes_spec toLowerCase (map_keys m) h) as [D _].
    destruct (describeNodes toLowerCase (map_keys m) h) as [ds h2].
    cbn in D.
    now intros [= <-].
  - now intros [= <-].
Qed.

(** *** Indices of edges *)

Lemma indexOfFrom_In (l : list nat) (x : nat) (i : Z) :
  In x l ->
  (i <= indexOfFrom i l x < i + Z.of_nat (length l))%Z.
Proof.
  revert i. induction l as [|y l IH]; intros i H; [contradiction|].
  cbn [indexOfFrom length]. destruct (Nat.eqb_spec y x) as [->|N].
  - lia.
  - destruct H as [->|H]; [congruence|].
    specialize (IH (i + 1)%Z H). lia.
Qed.

Lemma indexOf_In (l : list nat) (x : nat) :
  In x l -> (0 <= indexOf l x < Z.of_nat (length l))%Z.
Proof. intros H. apply (indexOfFrom_In l x 0 H). Qed.

(** Without the key, [indexOf] answers -1. *)
Lemma indexOf_absent (l : list nat) (x : nat) :
  ~ In x l -> indexOf l x = (-1)%Z.
Proof.
  unfold indexOf. generalize 0%Z.
  induction l as [|y l IH]; intros i H; cbn; auto.
  destruct (Nat.eqb_spec y x) as [->|N].
  - exfalso. apply H. cbn. auto.
  - apply IH. intros Hx. apply H. cbn. auto.
Qed.

(** C10.  In the graph [getSignalGraph] returns, the consumer and producer
    indices of every edge are indices into the returned nodes: at least 0
    and less than the number of nodes. *)
Theorem getSignalGraph_edges_in_range (toLowerCase : string -> string)
    (fuel : nat) (resolverToEffects : nat -> option (list nat))
    (lViews : LViews) (injector : Injector) (h h' : Store)
    (g : DebugSignalGraph) (e : DebugSignalGraphEdge) :
  getSignalGraph toLowerCase fuel resolverToEffects lViews injector h =
    Some (Ok g, h') ->
  In e (edges g) ->
  (0 <= consumer e < Z.of_nat (length (nodes g)))%Z /\
  (0 <= producer e < Z.of_nat (length (nodes g)))%Z.
Proof.
  unfold getSignalGraph.
  destruct injector as [|tNode lView|]; try discriminate.
  destruct (getTemplateConsumer lViews tNode lView) as [tc|msg|failed];
    try discriminate.
  destruct (extractSignalNodesAndEdgesFromRoots fuel _ [] h)
    as [[m h1]|] eqn:E; [|discriminate].
  apply extract_spec in E. destruct E as (-> & [_ C] & _).
  unfold getNodesAndEdgesFromSignalMap.
  pose proof (describeNodes_spec toLowerCase (map_keys m) h) as [_ L].
  destruct (describeNodes toLowerCase (map_keys m) h) as [ds h2]. cbn in L.
  intros [= <- _]. cbn [edges nodes]. rewrite L.
  intros He. apply in_flat_map in He. destruct He as ([k ps] & Hin & He).
  unfold edgesOf in He. cbn [fst snd] in He.
  apply in_map_iff in He. destruct He as (p & <- & Hp).
  cbn [consumer producer].
  destruct (C k ps Hin) as [[]|[_ Hps]].
  split; apply indexOf_In.
  - unfold map_keys. apply in_map_iff. exists (k, ps). auto.
  - apply Hps, Hp.
Qed.

Lemma getSignalGraph_edges_in_range_witness :
  (0 <= 4 < Z.of_nat 6)%Z /\ (0 <= 1 < Z.of_nat 6)%Z.
Proof.
  apply (getSignalGraph_edges_in_range demoLowerCase 10 demoEffects
           demoLViews demoInjector demoStore demoStore
           {| nodes :=
                [ {| kind := "template"; label := Some "app-root"%string;
                     nodeValue := None |};
                  {| kind := "computed"; label := Some "double"%string;
                     nodeValue := Some (JsNumber 4) |};
                  {| kind := "computed"; label := Some "again"%string;
                     nodeValue := Some (JsNumber 4) |};
                  {| kind := "signal"; label := Some "count"%string;
                     nodeValue := Some (JsNumber 2) |};
                  {| kind := "effect"; label := Some "log"%string;
                     nodeValue := None |};
                  {| kind := "unknown"; label := None; nodeValue := None |} ];
              edges :=
                [ {| consumer := 0; producer := 1 |};
                  {| consumer := 0; producer := 2 |};
                  {| consumer := 1; producer := 2 |};
                  {| consumer := 1; producer := 3 |};
                  {| consumer := 2; producer := 1 |};
                  {| consumer := 4; producer := 3 |};
                  {| consumer := 4; producer := 1 |};
                  {| consumer := 5; producer := 5 |} ] |}
           {| consumer := 4; producer := 1 |}).
  - reflexivity.
  - cbn. auto 10.
Defined.

(** *** Termination of the extraction *)

Lemma map_has_app (m1 m2 : JsMap) (k : nat) :
  map_has (m1 ++ m2) k = map_has m1 k || map_has m2 k.
Proof. unfold map_has. apply existsb_app. Qed.

Lemma unvisited_le (U : list nat) (m m' : JsMap) :
  (forall x, map_has m x = true -> map_has m' x = true) ->
  length (unvisited U m') <= length (unvisited U m).
Proof.
  intros H. unfold unvisited.
  induction U as [|x U IH]; cbn; auto.
  destruct (map_has m x) eqn:E.
  - rewrite (H x E). cbn. exact IH.
  - destruct (map_has m' x); cbn; lia.
Qed.

Lemma unvisited_lt (U : list nat) (m : JsMap) (x : nat) (v : list nat) :
  In x U -> map_has m x = false ->
  length (unvisited U (m ++ [(x, v)])) < length (unvisited U m).
Proof.
  intros Hx Hm. unfold unvisited.
  induction U as [|y U IH]; [contradiction|].
  assert (Hle : length (filter (fun z => negb (map_has (m ++ [(x, v)]) z)) U)
                <= length (filter (fun z => negb (map_has m z)) U)).
  { apply (unvisited_le U m (m ++ [(x, v)])).
    intros z Hz. rewrite map_has_app, Hz. reflexivity. }
  cbn [filter]. destruct Hx as [->|Hx].
  - rewrite Hm, map_has_app, Hm. cbn. rewrite Nat.eqb_refl. cbn. lia.
  - specialize (IH Hx). rewrite map_has_app.
    destruct (map_has m y); cbn; [lia|].
    destruct (Nat.eqb y x); cbn; lia.
Qed.

Lemma extract_terminates_aux (h : Store) (U : list nat) :
  closed h U ->
  forall n m roots,
    length (unvisited U m) <= n -> incl roots U ->
    exists fuel m',
      (forall x, map_has m x = true -> map_has m' x = true) /\
      forall fuel', fuel <= fuel' ->
        extractSignalNodesAndEdgesFromRoots fuel' roots m h = Some (m', h).
Proof.
  intros Hclosed. induction n as [|n IHn].
  - intros m roots Hn. induction roots as [|x rest IHr]; intros Hincl.
    + exists 1, m. split; auto.
      intros [|f] Hf; [lia|reflexivity].
    + destruct IHr as (fuel & m' & Hmono & Hrun).
      { intros y Hy. apply Hincl. cbn. auto. }
      assert (Hx : map_has m x = true).
      { destruct (map_has m x) eqn:E; auto.
        assert (Hin : In x (unvisited U m)).
        { apply filter_In. split; [apply Hincl; cbn; auto|].
          now rewrite E. }
        destruct (unvisited U m); [contradiction|cbn in Hn; lia]. }
      exists (S fuel), m'. split; auto.
      intros [|f] Hf; [lia|].
      cbn [extractSignalNodesAndEdgesFromRoots]. rewrite Hx.
      apply Hrun. lia.
  - intros m roots. revert m. induction roots as [|x rest IHr];
      intros m Hn Hincl.
    + exists 1, m. split; auto.
      intros [|f] Hf; [lia|reflexivity].
    + assert (Hrest : incl rest U).
      { intros y Hy. apply Hincl. cbn. auto. }
      destruct (map_has m x) eqn:Hx.
      * destruct (IHr m Hn Hrest) as (fuel & m' & Hmono & Hrun).
        exists (S fuel), m'. split; auto.
        intros [|f] Hf; [lia|].
        cbn [extractSignalNodesAndEdgesFromRoots]. rewrite Hx.
        apply Hrun. lia.
      * assert (HxU : In x U) by (apply Hincl; cbn; auto).
        set (ps := producersOf h x).
        set (m1 := m ++ [(x, ps)]).
        assert (Hlt : length (unvisited U m1) <= n).
        { pose proof (unvisited_lt U m x ps HxU Hx). unfold m1. lia. }
        destruct (IHn m1 ps Hlt (Hclosed x HxU))
          as (fuel1 & m2 & Hmono1 & Hrun1).
        assert (Hle2 : length (unvisited U m2) <= S n).
        { pose proof (unvisited_le U m1 m2 Hmono1). lia. }
        destruct (IHr m2 Hle2 Hrest) as (fuel2 & m3 & Hmono2 & Hrun2).
        exists (S (Nat.max fuel1 fuel2)), m3. split.
        -- intros y Hy. apply Hmono2, Hmono1. unfold m1.
           rewrite map_has_app, Hy. reflexivity.
        -- intros [|f] Hf; [lia|].
           cbn [extractSignalNodesAndEdgesFromRoots]. rewrite Hx.
           unfold readNode. fold (producersOf h x). fold ps.
           rewrite (map_set_fresh _ _ _ Hx). fold m1.
           rewrite Hrun1 by lia. apply Hrun2. lia.
Qed.

(** C6.  [extractSignalNodesAndEdgesFromRoots] terminates on every finite
    reactive graph, cycles included: when the roots lie in a finite list of
    nodes closed under producers, some amount of fuel, and any larger one,
    lets the extraction return; it leaves the store alone, and as no node
    already in the map is entered again the map it returns has each key
    once. *)
Theorem extract_terminates (h : Store) (U roots : list nat) (m : JsMap) :
  closed h U -> incl roots U -> NoDup (map_keys m) ->
  exists fuel m',
    (forall fuel', fuel <= fuel' ->
       extractSignalNodesAndEdgesFromRoots fuel' roots m h = Some (m', h)) /\
    NoDup (map_keys m') /\
    incl roots (map_keys m').
Proof.
  intros Hclosed Hincl Hnd.
  destruct (extract_terminates_aux h U Hclosed (length (unvisited U m)) m
              roots (le_n _) Hincl) as (fuel & m' & _ & Hrun).
  exists fuel, m'. split; auto.
  destruct (extract_spec fuel roots m h m' h (Hrun fuel (le_n _)))
    as (_ & _ & R & N).
  auto.
Qed.

Lemma demo_closed : closed demoStore [0; 1; 2; 3; 4; 5].
Proof.
  intros x Hx y. cbn in Hx.
  destruct Hx as [<-|[<-|[<-|[<-|[<-|[<-|[]]]]]]]; cbn; tauto.
Qed.

Lemma extract_terminates_witness :
  exists fuel m',
    (forall fuel', fuel <= fuel' ->
       extractSignalNodesAndEdgesFromRoots fuel' [0; 4; 5] [] demoStore =
       Some (m', demoStore)) /\
    NoDup (map_keys m') /\
    incl [0; 4; 5] (map_keys m').
Proof.
  apply (extract_terminates demoStore [0; 1; 2; 3; 4; 5] [0; 4; 5] []).
  - exact demo_closed.
  - intros x Hx. cbn in *. tauto.
  - constructor.
Defined.

Example demo_graph :
  getSignalGraph demoLowerCase 10 demoEffects demoLViews demoInjector
    demoStore =
  Some (Ok {| nodes :=
                [ {| kind := "template"; label := Some "app-root"%string;
                     nodeValue := None |};
                  {| kind := "computed"; label := Some "double"%string;
                     nodeValue := Some (JsNumber 4) |};
                  {| kind := "computed"; label := Some "again"%string;
                     nodeValue := Some (JsNumber 4) |};
                  {| kind := "signal"; label := Some "count"%string;
                     nodeValue := Some (JsNumber 2) |};
                  {| kind := "effect"; label := Some "log"%string;
                     nodeValue := None |};
                  {| kind := "unknown"; label := None; nodeValue := None |} ];
              edges :=
                [ {| consumer := 0; producer := 1 |};
                  {| consumer := 0; producer := 2 |};
                  {| consumer := 1; producer := 2 |};
                  {| consumer := 1; producer := 3 |};
                  {| consumer := 2; producer := 1 |};
                  {| consumer := 4; producer := 3 |};
                  {| consumer := 4; producer := 1 |};
                  {| consumer := 5; producer := 5 |} ] |},
        demoStore).
Proof. reflexivity. Qed.

Lemma getSignalGraph_read_only_witness :
  exists res,
    getSignalGraph demoLowerCase 10 demoEffects demoLViews demoInjector
      demoStore = Some res /\
    snd res = demoStore.
Proof.
  eexists. split.
  - reflexivity.
  - apply (getSignalGraph_read_only demoLowerCase 10 demoEffects demoLViews
             demoInjector demoStore).
    reflexivity.
Defined.

End SignalDebugSpec.

(** ** Signal-graph debug extraction: the map and the graph *)

Module SignalDebugMore.

Import SignalDebug SignalDebugSpec.

(** *** Reachability *)

Lemma reachable_mono (h : Store) (avoid avoid' roots roots' : list nat)
    (x : nat) :
  incl avoid avoid' -> incl roots' roots ->
  reachable h avoid' roots' x -> reachable h avoid roots x.
Proof.
  intros Ha Hr H. induction H as [x Hx Hn|x y _ IH Hy Hn].
  - apply reach_root; auto.
  - apply (reach_step h avoid roots x y); auto.
Qed.

Lemma reachable_via (h : Store) (avoid roots : list nat) (n x : nat) :
  reachable h avoid roots n ->
  reachable h avoid (producersOf h n) x ->
  reachable h avoid roots x.
Proof.
  intros Hn H. induction H as [x Hx Ha|x y _ IH Hy Ha].
  - apply (reach_step h avoid roots n x); auto.
  - apply (reach_step h avoid roots x y); auto.
Qed.

Lemma reachable_fresh (h : Store) (avoid roots : list nat) (x : nat) :
  reachable h avoid roots x -> ~ In x avoid.
Proof. intros H. destruct H; assumption. Qed.

Lemma reachable_closed (h : Store) (U avoid roots : list nat) (x : nat) :
  closed h U -> incl roots U -> reachable h avoid roots x -> In x U.
Proof.
  intros Hc Hr H. induction H as [x Hx _|x y _ IH Hy _].
  - apply Hr, Hx.
  - apply (Hc x IH y Hy).
Qed.

(** *** The entries an extraction adds *)

Lemma not_in_keys_app (m1 m2 : JsMap) (k : nat) :
  ~ In k (map_keys (m1 ++ m2)) -> ~ In k (map_keys m1).
Proof.
  intros H Hk. apply H. rewrite map_keys_app, in_app_iff. auto.
Qed.

Lemma extract_app (fuel : nat) :
  forall roots m h m' h',
    extractSignalNodesAndEdgesFromRoots fuel roots m h = Some (m', h') ->
    exists new,
      m' = m ++ new /\
      NoDup (map_keys new) /\
      (forall k ps, In (k, ps) new -> ps = producersOf h k) /\
      (forall k, In k (map_keys new) ->
         ~ In k (map_keys m) /\ reachable h (map_keys m) roots k).
Proof.
  induction fuel as [|fuel IH]; intros roots m h m' h' H; [discriminate|].
  cbn [extractSignalNodesAndEdgesFromRoots] in H.
  destruct roots as [|node rest].
  { injection H as <- <-. exists []. rewrite app_nil_r.
    split; [reflexivity|]. split; [constructor|].
    split; intros k; cbn; contradiction. }
  destruct (map_has m node) eqn:Hhas.
  - destruct (IH _ _ _ _ _ H) as (new & -> & N & P & F).
    exists new. split; [reflexivity|]. split; [exact N|]. split; [exact P|].
    intros k Hk. destruct (F k Hk) as [F1 F2]. split; [exact F1|].
    apply (reachable_mono h (map_keys m) (map_keys m) (node :: rest) rest);
      [apply incl_refl|apply incl_tl, incl_refl|exact F2].
  - unfold readNode in H. fold (producersOf h node) in H.
    rewrite (map_set_fresh _ _ _ Hhas) in H.
    set (ps := producersOf h node) in *.
    destruct (extractSignalNodesAndEdgesFromRoots fuel ps
                (m ++ [(node, ps)]) h)
      as [[m1 h1]|] eqn:H1; [|discriminate].
    pose proof (extract_spec fuel _ _ _ _ _ H1) as (-> & _).
    destruct (IH _ _ _ _ _ H1) as (new1 & -> & N1 & P1 & F1).
    destruct (IH _ _ _ _ _ H) as (new2 & -> & N2 & P2 & F2).
    apply map_has_false_In in Hhas.
    assert (Hnode : In node (map_keys (m ++ [(node, ps)]))).
    { rewrite map_keys_app, in_app_iff. cbn. auto. }
    assert (Hroot : reachable h (map_keys m) (node :: rest) node).
    { apply reach_root; [cbn; auto|exact Hhas]. }
    assert (R1 : forall k, In k (map_keys new1) ->
                 ~ In k (map_keys m) /\
                 reachable h (map_keys m) (node :: rest) k).
    { intros k Hk. destruct (F1 k Hk) as [A B].
      split; [exact (not_in_keys_app _ _ _ A)|].
      apply (reachable_via h (map_keys m) (node :: rest) node k Hroot).
      apply (reachable_mono h (map_keys m) (map_keys (m ++ [(node, ps)]))
               ps ps); [|apply incl_refl|exact B].
      rewrite map_keys_app. apply incl_appl, incl_refl. }
    assert (R2 : forall k, In k (map_keys new2) ->
                 ~ In k (map_keys m) /\
                 reachable h (map_keys m) (node :: rest) k).
    { intros k Hk. destruct (F2 k Hk) as [A B].
      split; [exact (not_in_keys_app _ _ _ (not_in_keys_app _ _ _ A))|].
      apply (reachable_mono h (map_keys m)
               (map_keys ((m ++ [(node, ps)]) ++ new1)) (node :: rest) rest);
        [|apply incl_tl, incl_refl|exact B].
      rewrite !map_keys_app, <- app_assoc. apply incl_appl, incl_refl. }
    exists ((node, ps) :: new1 ++ new2).
    split; [rewrite <- !app_assoc; reflexivity|].
    split; [|split].
    + change (map_keys ((node, ps) :: new1 ++ new2))
        with (node :: map_keys (new1 ++ new2)).
      rewrite map_keys_app. constructor.
      * rewrite in_app_iff. intros [Hk|Hk].
        -- apply (proj1 (F1 node Hk)), Hnode.
        -- apply (proj1 (F2 node Hk)).
           rewrite map_keys_app, in_app_iff. auto.
      * apply NoDup_app; auto.
        intros k Hk1 Hk2. apply (proj1 (F2 k Hk2)).
        rewrite map_keys_app, in_app_iff. auto.
    + intros k qs [[= <- <-]|Hin]; [reflexivity|].
      rewrite in_app_iff in Hin. destruct Hin as [Hin|Hin]; eauto.
    + intros k Hk.
      change (map_keys ((node, ps) :: new1 ++ new2))
        with (node :: map_keys (new1 ++ new2)) in Hk.
      rewrite map_keys_app in Hk. destruct Hk as [<-|Hk].
      * split; [exact Hhas|exact Hroot].
      * rewrite in_app_iff in Hk. destruct Hk as [Hk|Hk]; auto.
Qed.

Lemma extract_complete (fuel : nat) (roots : list nat) (m m' : JsMap)
    (h h' : Store) (x : nat) :
  extractSignalNodesAndEdgesFromRoots fuel roots m h = Some (m', h') ->
  reachable h (map_keys m) roots x -> In x (map_keys m').
Proof.
  intros H Hx.
  destruct (extract_spec fuel _ _ _ _ _ H) as (_ & [_ C] & R & _).
  induction Hx as [x Hx _|x y Hx IH Hy _].
  - apply R, Hx.
  - unfold map_keys in IH. apply in_map_iff in IH.
    destruct IH as ([k ps] & Hk & Hin). cbn in Hk. subst k.
    destruct (C x ps Hin) as [Hold|[-> Hps]].
    + exfalso. apply (reachable_fresh _ _ _ _ Hx).
      unfold map_keys. apply in_map_iff. exists (x, ps). auto.
    + apply Hps, Hy.
Qed.

(** X13.  An extraction only appends to the map it is given: every entry
    of that map keeps its position and its producer list, and each entry
    behind them holds the current producers of a node the map had no key
    for; keys that were distinct stay distinct. *)
Theorem extract_appends (fuel : nat) (roots : list nat) (m m' : JsMap)
    (h h' : Store) :
  extractSignalNodesAndEdgesFromRoots fuel roots m h = Some (m', h') ->
  (forall i e, nth_error m i = Some e -> nth_error m' i = Some e) /\
  (forall i k ps, length m <= i -> nth_error m' i = Some (k, ps) ->
     ps = producersOf h k /\ map_has m k = false) /\
  (NoDup (map_keys m) -> NoDup (map_keys m')).
Proof.
  intros H.
  destruct (extract_app fuel _ _ _ _ _ H) as (new & -> & _ & P & F).
  split; [|split].
  - intros i e Hi. rewrite nth_error_app1; auto.
    apply nth_error_Some. congruence.
  - intros i k ps Hi Hn. rewrite nth_error_app2 in Hn by exact Hi.
    apply nth_error_In in Hn. split; [exact (P k ps Hn)|].
    apply map_has_false_In. apply F.
    unfold map_keys. apply in_map_iff. exists (k, ps). auto.
  - apply (extract_spec fuel _ _ _ _ _ H).
Qed.

(** X14.  The keys of the map an extraction returns are the keys it was
    given and the nodes that can be reached from the roots along producer
    lists without passing through a node that was a key already. *)
Theorem extract_reachable (fuel : nat) (roots : list nat) (m m' : JsMap)
    (h h' : Store) (x : nat) :
  extractSignalNodesAndEdgesFromRoots fuel roots m h = Some (m', h') ->
  In x (map_keys m') <->
  In x (map_keys m) \/ reachable h (map_keys m) roots x.
Proof.
  intros H. split.
  - destruct (extract_app fuel _ _ _ _ _ H) as (new & -> & _ & _ & F).
    rewrite map_keys_app, in_app_iff. intros [Hx|Hx]; [auto|].
    right. apply F, Hx.
  - intros [Hx|Hx].
    + destruct (extract_spec fuel _ _ _ _ _ H) as (_ & [I _] & _).
      apply (incl_map_keys _ _ I), Hx.
    + apply (extract_complete fuel roots m m' h h' x H Hx).
Qed.

(** *** Fuel and composition *)

Lemma extract_fuel_mono (fuel : nat) :
  forall fuel' roots m h r,
    extractSignalNodesAndEdgesFromRoots fuel roots m h = Some r ->
    fuel <= fuel' ->
    extractSignalNodesAndEdgesFromRoots fuel' roots m h = Some r.
Proof.
  induction fuel as [|fuel IH]; intros fuel' roots m h r H Hle;
    [discriminate|].
  destruct fuel' as [|fuel']; [lia|].
  cbn [extractSignalNodesAndEdgesFromRoots] in *.
  destruct roots as [|node rest]; [exact H|].
  destruct (map_has m node).
  - apply IH; [exact H|lia].
  - unfold readNode in *.
    destruct (extractSignalNodesAndEdgesFromRoots fuel _ _ h)
      as [[m1 h1]|] eqn:H1; [|discriminate].
    rewrite (IH fuel' _ _ _ _ H1) by lia.
    apply IH; [exact H|lia].
Qed.

Lemma extract_app_roots (f1 : nat) :
  forall f2 r1 r2 m h m1 h1 res,
    extractSignalNodesAndEdgesFromRoots f1 r1 m h = Some (m1, h1) ->
    extractSignalNodesAndEdgesFromRoots f2 r2 m1 h1 = Some res ->
    extractSignalNodesAndEdgesFromRoots (f1 + f2) (r1 ++ r2) m h = Some res.
Proof.
  induction f1 as [|f1 IH]; intros f2 r1 r2 m h m1 h1 res H1 H2;
    [discriminate|].
  cbn [extractSignalNodesAndEdgesFromRoots] in H1.
  destruct r1 as [|node rest].
  - injection H1 as <- <-. cbn [app].
    apply (extract_fuel_mono f2); [exact H2|lia].
  - cbn [app Nat.add extractSignalNodesAndEdgesFromRoots].
    destruct (map_has m node).
    + apply (IH f2 rest r2 m h m1 h1 res H1 H2).
    + unfold readNode in *.
      destruct (extractSignalNodesAndEdgesFromRoots f1 _ _ h)
        as [[ma ha]|] eqn:Ha; [|discriminate].
      rewrite (extract_fuel_mono f1 (f1 + f2) _ _ _ _ Ha) by lia.
      apply (IH f2 rest r2 ma ha m1 h1 res H1 H2).
Qed.

Lemma extract_split_roots (fuel : nat) :
  forall r1 r2 m h res,
    extractSignalNodesAndEdgesFromRoots fuel (r1 ++ r2) m h = Some res ->
    exists m1 h1,
      extractSignalNodesAndEdgesFromRoots fuel r1 m h = Some (m1, h1) /\
      extractSignalNodesAndEdgesFromRoots fuel r2 m1 h1 = Some res.
Proof.
  induction fuel as [|fuel IH]; intros r1 r2 m h res H; [discriminate|].
  destruct r1 as [|node rest].
  - exists m, h. split; [reflexivity|exact H].
  - cbn [app extractSignalNodesAndEdgesFromRoots] in H.
    destruct (map_has m node) eqn:Hhas.
    + destruct (IH _ _ _ _ _ H) as (m1 & h1 & A & B).
      exists m1, h1. split.
      * cbn [extractSignalNodesAndEdgesFromRoots]. rewrite Hhas. exact A.
      * apply (extract_fuel_mono fuel); [exact B|lia].
    + unfold readNode in H.
      destruct (extractSignalNodesAndEdgesFromRoots fuel _ _ h)
        as [[ma ha]|] eqn:Ha; [|discriminate].
      destruct (IH _ _ _ _ _ H) as (m1 & h1 & A & B).
      exists m1, h1. split.
      * cbn [extractSignalNodesAndEdgesFromRoots]. rewrite Hhas.
        unfold readNode. rewrite Ha. exact A.
      * apply (extract_fuel_mono fuel); [exact B|lia].
Qed.

(** X15.  Extracting from the roots [r1 ++ r2] is extracting from [r1] and
    then from [r2] into the map the first extraction returned: one returns
    exactly when the other two do, and with the same map. *)
Theorem extract_roots_app (r1 r2 : list nat) (m : JsMap) (h : Store)
    (res : JsMap * Store) :
  (exists fuel,
     extractSignalNodesAndEdgesFromRoots fuel (r1 ++ r2) m h = Some res) <->
  (exists f1 f2 m1 h1,
     extractSignalNodesAndEdgesFromRoots f1 r1 m h = Some (m1, h1) /\
     extractSignalNodesAndEdgesFromRoots f2 r2 m1 h1 = Some res).
Proof.
  split.
  - intros (fuel & H).
    destruct (extract_split_roots fuel _ _ _ _ _ H) as (m1 & h1 & A & B).
    exists fuel, fuel, m1, h1. auto.
  - intros (f1 & f2 & m1 & h1 & A & B).
    exists (f1 + f2). apply (extract_app_roots f1 f2 r1 r2 m h m1 h1 res A B).
Qed.

Lemma extract_visited (roots : list nat) :
  forall fuel m h,
    incl roots (map_keys m) -> length roots < fuel ->
    extractSignalNodesAndEdgesFromRoots fuel roots m h = Some (m, h).
Proof.
  induction roots as [|x rest IH]; intros fuel m h Hin Hf;
    (destruct fuel as [|fuel]; [cbn in Hf; lia|]);
    cbn [extractSignalNodesAndEdgesFromRoots]; [reflexivity|].
  assert (Hx : map_has m x = true).
  { apply map_has_In, Hin. cbn. auto. }
  rewrite Hx. apply IH.
  - intros y Hy. apply Hin. cbn. auto.
  - cbn in Hf. lia.
Qed.

(** X16.  Extracting again from the same roots into the map an extraction
    returned changes nothing: every root is a key by then, so no node is
    entered, and one unit of fuel per root and one more are enough. *)
Theorem extract_again (fuel fuel' : nat) (roots : list nat) (m m' : JsMap)
    (h h' : Store) :
  extractSignalNodesAndEdgesFromRoots fuel roots m h = Some (m', h') ->
  length roots < fuel' ->
  extractSignalNodesAndEdgesFromRoots fuel' roots m' h' = Some (m', h').
Proof.
  intros H Hf.
  destruct (extract_spec fuel _ _ _ _ _ H) as (_ & _ & R & _).
  apply (extract_visited roots fuel' m' h' R Hf).
Qed.

(** *** The graph *)

Lemma describeNode_store (toLowerCase : string -> string) (x : nat)
    (h : Store) :
  snd (describeNode toLowerCase x h) = h.
Proof.
  unfold describeNode, readNode.
  destruct (isComputedNode (h x)); [reflexivity|].
  destruct (isTemplateNode (h x)); [reflexivity|].
  destruct (isEffectNode (h x)); [reflexivity|].
  destruct (isSignalNode (h x)); reflexivity.
Qed.

Lemma describeNodes_map (toLowerCase : string -> string) (xs : list nat)
    (h : Store) :
  describeNodes toLowerCase xs h = (map (describe toLowerCase h) xs, h).
Proof.
  induction xs as [|x xs IH]; [reflexivity|].
  cbn [describeNodes map]. unfold describe at 1.
  pose proof (describeNode_store toLowerCase x h) as Hs.
  destruct (describeNode toLowerCase x h) as [d h1]. cbn in Hs. subst h1.
  rewrite IH. reflexivity.
Qed.

Lemma indexOfFrom_nth (l : list nat) (x : nat) :
  forall i n,
    NoDup l -> nth_error l n = Some x ->
    indexOfFrom i l x = (i + Z.of_nat n)%Z.
Proof.
  induction l as [|y l IH]; intros i n Hnd Hn.
  - destruct n; discriminate.
  - cbn [indexOfFrom]. destruct n as [|n]; cbn in Hn.
    + injection Hn as ->. rewrite Nat.eqb_refl. lia.
    + inversion Hnd as [|? ? Hy Hl]; subst.
      destruct (Nat.eqb_spec y x) as [->|Ne].
      * exfalso. apply Hy. apply (nth_error_In _ _ Hn).
      * rewrite (IH (i + 1)%Z n Hl Hn). lia.
Qed.

Lemma indexOf_nth (l : list nat) (x : nat) (n : nat) :
  NoDup l -> nth_error l n = Some x -> indexOf l x = Z.of_nat n.
Proof. intros Hnd Hn. apply (indexOfFrom_nth l x 0%Z n Hnd Hn). Qed.

Lemma extract_from_empty (fuel : nat) (roots : list nat) (m : JsMap)
    (h h' : Store) :
  extractSignalNodesAndEdgesFromRoots fuel roots [] h = Some (m, h') ->
  h' = h /\
  NoDup (map_keys m) /\
  (forall x, In x (map_keys m) <-> reachable h [] roots x) /\
  (forall k ps, In (k, ps) m ->
     ps = producersOf h k /\ incl ps (map_keys m)).
Proof.
  intros H.
  destruct (extract_spec fuel _ _ _ _ _ H) as (-> & [_ C] & _ & N).
  destruct (extract_app fuel _ _ _ _ _ H) as (new & E & _ & _ & F).
  cbn [app] in E. subst new.
  split; [reflexivity|]. split; [apply N; constructor|]. split.
  - intros x. split.
    + intros Hx. apply (F x Hx).
    + apply (extract_complete fuel roots [] m h h x H).
  - intros k ps Hin. destruct (C k ps Hin) as [[]|Hc]. exact Hc.
Qed.

(** X17.  The graph [getSignalGraph] returns for a [NodeInjector] is the
    reactive graph below its roots: [getTemplateConsumer] has returned, and
    the graph has one node for each reactive node that can be reached from
    the template consumer and the effects along producer lists, none twice,
    described by the callback of [nodes.map]; its edges are exactly the
    pairs of the positions of a node and one of that node's producers. *)
Theorem getSignalGraph_graph (toLowerCase : string -> string) (fuel : nat)
    (resolverToEffects : nat -> option (list nat)) (lViews : LViews)
    (tNode lView : ViewValue) (h h' : Store) (g : DebugSignalGraph) :
  getSignalGraph toLowerCase fuel resolverToEffects lViews
    (NodeInjector tNode lView) h = Some (Ok g, h') ->
  exists templateConsumer keys,
    getTemplateConsumer lViews tNode lView = Ok templateConsumer /\
    NoDup keys /\
    (forall x, In x keys <->
       reachable h [] (signalNodes resolverToEffects lView templateConsumer)
         x) /\
    nodes g = map (describe toLowerCase h) keys /\
    (forall e, In e (edges g) <->
       exists i j c p,
         nth_error keys i = Some c /\ nth_error keys j = Some p /\
         In p (producersOf h c) /\
         e = {| consumer := Z.of_nat i; producer := Z.of_nat j |}).
Proof.
  unfold getSignalGraph.
  destruct (getTemplateConsumer lViews tNode lView) as [tc|msg|failed];
    try discriminate.
  fold (signalNodes resolverToEffects lView tc).
  destruct (extractSignalNodesAndEdgesFromRoots fuel _ [] h)
    as [[m h1]|] eqn:E; [|discriminate].
  destruct (extract_from_empty fuel _ _ _ _ E) as (-> & N & R & P).
  unfold getNodesAndEdgesFromSignalMap. rewrite describeNodes_map.
  intros [= <- _]. cbn [nodes edges].
  exists tc, (map_keys m).
  split; [reflexivity|].
  split; [exact N|]. split; [exact R|]. split; [reflexivity|].
  intros e. rewrite in_flat_map. split.
  - intros ([c ps] & Hin & He).
    unfold edgesOf in He. cbn [fst snd] in He.
    apply in_map_iff in He. destruct He as (p & <- & Hp).
    destruct (P c ps Hin) as [-> Hps].
    destruct (In_nth_error m (c, producersOf h c) Hin) as (i & Hi).
    destruct (In_nth_error (map_keys m) p (Hps p Hp)) as (j0 & Hj0).
    assert (Hc : nth_error (map_keys m) i = Some c).
    { unfold map_keys. rewrite nth_error_map, Hi. reflexivity. }
    exists i, j0, c, p.
    split; [exact Hc|]. split; [exact Hj0|]. split; [exact Hp|].
    rewrite (indexOf_nth _ _ _ N Hc), (indexOf_nth _ _ _ N Hj0).
    reflexivity.
  - intros (i & j & c & p & Hc & Hp & Hin & ->).
    pose proof (nth_error_In _ _ Hc) as Hk.
    unfold map_keys in Hk. apply in_map_iff in Hk.
    destruct Hk as ([c' ps] & Hfst & Hm). cbn in Hfst. subst c'.
    destruct (P c ps Hm) as [-> _].
    exists (c, producersOf h c). split; [exact Hm|].
    unfold edgesOf. cbn [fst snd]. apply in_map_iff.
    exists p. split; [|exact Hin].
    rewrite (indexOf_nth _ _ _ N Hc), (indexOf_nth _ _ _ N Hp).
    reflexivity.
Qed.

(** X18.  When [getTemplateConsumer] finds a template consumer, that
    consumer is node 0 of the graph [getSignalGraph] returns, and the edges
    that come first are its edges, one for each of its producers in their
    order. *)
Theorem getSignalGraph_template_first (toLowerCase : string -> string)
    (fuel : nat) (resolverToEffects : nat -> option (list nat))
    (lViews : LViews) (tNode lView : ViewValue) (c : nat) (h h' : Store)
    (g : DebugSignalGraph) :
  getTemplateConsumer lViews tNode lView = Ok (Some c) ->
  getSignalGraph toLowerCase fuel resolverToEffects lViews
    (NodeInjector tNode lView) h = Some (Ok g, h') ->
  nth_error (nodes g) 0 = Some (describe toLowerCase h c) /\
  map consumer (firstn (length (producersOf h c)) (edges g)) =
    map (fun _ => 0%Z) (producersOf h c).
Proof.
  intros Htc. unfold getSignalGraph. rewrite Htc.
  destruct fuel as [|fuel]; [discriminate|].
  cbn [extractSignalNodesAndEdgesFromRoots map_has existsb].
  unfold readNode. fold (producersOf h c).
  unfold map_set. cbn [map_has existsb app].
  destruct (extractSignalNodesAndEdgesFromRoots fuel (producersOf h c)
              [(c, producersOf h c)] h) as [[m1 h1]|] eqn:E1;
    [|discriminate].
  destruct (extract_app fuel _ _ _ _ _ E1) as (new1 & -> & _).
  destruct (extractSignalNodesAndEdgesFromRoots fuel _ _ h1)
    as [[m2 h2]|] eqn:E2; [|discriminate].
  destruct (extract_app fuel _ _ _ _ _ E2) as (new2 & -> & _).
  destruct (extract_spec fuel _ _ _ _ _ E1) as (-> & _).
  destruct (extract_spec fuel _ _ _ _ _ E2) as (-> & _).
  unfold getNodesAndEdgesFromSignalMap. rewrite describeNodes_map.
  intros [= <- _]. cbn [nodes edges app map_keys map fst nth_error flat_map].
  split; [reflexivity|].
  unfold edgesOf at 1. cbn [fst snd].
  rewrite firstn_app, length_map, Nat.sub_diag. cbn [firstn].
  rewrite app_nil_r. rewrite firstn_all2 by (rewrite length_map; lia).
  rewrite map_map. cbn [consumer]. unfold indexOf. cbn [indexOfFrom].
  rewrite Nat.eqb_refl. reflexivity.
Qed.

(** X19.  On a finite reactive graph [getSignalGraph] always comes to an
    end.  For a [NodeInjector] it throws the assertion error of
    [getTemplateConsumer] when one of the three assertions fails, and
    otherwise returns a graph that has no more nodes than the reactive
    graph; for an [R3Injector] and for any other injector it throws the
    error of that case, with its message, and never returns a graph. *)
Theorem getSignalGraph_returns (toLowerCase : string -> string)
    (resolverToEffects : nat -> option (list nat)) (lViews : LViews)
    (injector : Injector) (h : Store) (U : list nat) :
  closed h U ->
  (forall tNode lView tc,
     injector = NodeInjector tNode lView ->
     getTemplateConsumer lViews tNode lView = Ok tc ->
     incl (signalNodes resolverToEffects lView tc) U) ->
  exists fuel r,
    (forall fuel', fuel <= fuel' ->
       getSignalGraph toLowerCase fuel' resolverToEffects lViews injector h =
       Some (r, h)) /\
    match injector, r with
    | NodeInjector tNode lView, Ok g =>
        assertTNode tNode = true /\ assertLView lView = true /\
        (exists tc, getTemplateConsumer lViews tNode lView = Ok tc) /\
        length (nodes g) <= length U
    | NodeInjector tNode lView, AssertionError failed =>
        getTemplateConsumer lViews tNode lView = AssertionError failed /\
        (assertTNode tNode = false \/ assertLView lView = false \/
         exists index id,
           tNode = VTNode index /\ lView = VLView id /\
           assertLView (slot lViews id index) = false)
    | R3Injector, ThrowError msg =>
        msg =
        "getSignalGraph does not currently support environment injectors"%string
    | OtherInjector, ThrowError msg =>
        msg =
        "getSignalGraph must be called with a NodeInjector or an R3Injector"%string
    | _, _ => False
    end.
Proof.
  intros Hc Hroots. destruct injector as [|tNode lView|].
  - exists 0, (ThrowError
       "getSignalGraph does not currently support environment injectors").
    split; [reflexivity|reflexivity].
  - destruct (getTemplateConsumer lViews tNode lView) as [tc|msg|failed]
      eqn:Htc.
    + specialize (Hroots tNode lView tc eq_refl Htc).
      destruct (extract_terminates_aux h U Hc (length (unvisited U [])) []
                  (signalNodes resolverToEffects lView tc) (le_n _) Hroots)
        as (fuel & m & _ & Hrun).
      exists fuel,
        (Ok {| nodes := map (describe toLowerCase h) (map_keys m);
               edges := flat_map (edgesOf (map_keys m)) m |}).
      split.
      * intros fuel' Hf. unfold getSignalGraph. rewrite Htc.
        fold (signalNodes resolverToEffects lView tc).
        rewrite (Hrun fuel' Hf).
        unfold getNodesAndEdgesFromSignalMap. rewrite describeNodes_map.
        reflexivity.
      * split; [|split; [|split]].
        -- destruct tNode; [reflexivity|discriminate|discriminate].
        -- destruct tNode; try discriminate.
           destruct lView; [discriminate|reflexivity|discriminate].
        -- exists tc. reflexivity.
        -- cbn [nodes]. rewrite length_map.
           destruct (extract_from_empty fuel _ _ _ _ (Hrun fuel (le_n _)))
             as (_ & N & R & _).
           apply (NoDup_incl_length N).
           intros x Hx. apply R in Hx.
           apply (reachable_closed h U [] _ x Hc Hroots Hx).
    + destruct tNode as [index| |]; try discriminate.
      destruct lView as [|id|]; try discriminate.
      cbn in Htc. destruct (slot lViews id index); discriminate.
    + exists 0, (AssertionError failed). split.
      * intros fuel' _. unfold getSignalGraph. rewrite Htc. reflexivity.
      * split; [reflexivity|].
        destruct tNode as [index| |]; [|left; reflexivity|left; reflexivity].
        destruct lView as [|id|];
          [right; left; reflexivity| |right; left; reflexivity].
        right. right. exists index, id.
        split; [reflexivity|]. split; [reflexivity|].
        cbn in Htc. destruct (slot lViews id index);
          [reflexivity|discriminate|reflexivity].
  - exists 0, (ThrowError
       "getSignalGraph must be called with a NodeInjector or an R3Injector").
    split; [reflexivity|reflexivity].
Qed.

(** *** The demo store *)

Lemma demo_extract :
  extractSignalNodesAndEdgesFromRoots 10 [0; 4; 5] [] demoStore =
  Some (demoMap, demoStore).
Proof. reflexivity. Qed.

(** For the injector of a plain element the third assertion fails. *)
Lemma demo_element :
  getSignalGraph demoLowerCase 10 demoEffects demoLViews demoElementInjector
    demoStore = Some (AssertionError NotAnLView, demoStore).
Proof. reflexivity. Qed.

Lemma extract_appends_witness :
  (forall i e,
     nth_error [(3, [9])] i = Some e ->
     nth_error [(3, [9]); (0, [1; 2]); (1, [2; 3]); (2, [1]); (4, [3; 1]);
                (5, [5])] i = Some e) /\
  (forall i k ps,
     length [(3, [9])] <= i ->
     nth_error [(3, [9]); (0, [1; 2]); (1, [2; 3]); (2, [1]); (4, [3; 1]);
                (5, [5])] i = Some (k, ps) ->
     ps = producersOf demoStore k /\ map_has [(3, [9])] k = false) /\
  (NoDup (map_keys [(3, [9])]) ->
   NoDup (map_keys [(3, [9]); (0, [1; 2]); (1, [2; 3]); (2, [1]);
                    (4, [3; 1]); (5, [5])])).
Proof.
  apply (extract_appends 10 [0; 4; 5] [(3, [9])]
           [(3, [9]); (0, [1; 2]); (1, [2; 3]); (2, [1]); (4, [3; 1]);
            (5, [5])] demoStore demoStore).
  reflexivity.
Defined.

Lemma extract_reachable_witness :
  In 3 (map_keys demoMap) <->
  In 3 (map_keys []) \/ reachable demoStore (map_keys []) [0; 4; 5] 3.
Proof.
  apply (extract_reachable 10 [0; 4; 5] [] demoMap demoStore demoStore 3).
  reflexivity.
Defined.

Lemma extract_again_witness :
  extractSignalNodesAndEdgesFromRoots 4 [0; 4; 5] demoMap demoStore =
  Some (demoMap, demoStore).
Proof.
  apply (extract_again 10 4 [0; 4; 5] [] demoMap demoStore demoStore).
  - reflexivity.
  - cbn. lia.
Defined.

Lemma getSignalGraph_graph_witness :
  exists templateConsumer keys,
    getTemplateConsumer demoLViews (VTNode 2) (VLView 7) =
      Ok templateConsumer /\
    NoDup keys /\
    (forall x, In x keys <->
       reachable demoStore []
         (signalNodes demoEffects (VLView 7) templateConsumer) x) /\
    nodes demoGraph = map (describe demoLowerCase demoStore) keys /\
    (forall e, In e (edges demoGraph) <->
       exists i j c p,
         nth_error keys i = Some c /\ nth_error keys j = Some p /\
         In p (producersOf demoStore c) /\
         e = {| consumer := Z.of_nat i; producer := Z.of_nat j |}).
Proof.
  apply (getSignalGraph_graph demoLowerCase 10 demoEffects demoLViews
           (VTNode 2) (VLView 7) demoStore demoStore demoGraph).
  reflexivity.
Defined.

Lemma getSignalGraph_template_first_witness :
  nth_error (nodes demoGraph) 0 = Some (describe demoLowerCase demoStore 0) /\
  map consumer (firstn (length (producersOf demoStore 0)) (edges demoGraph)) =
    map (fun _ => 0%Z) (producersOf demoStore 0).
Proof.
  apply (getSignalGraph_template_first demoLowerCase 10 demoEffects
           demoLViews (VTNode 2) (VLView 7) 0 demoStore demoStore demoGraph).
  - reflexivity.
  - reflexivity.
Defined.

Lemma getSignalGraph_returns_witness :
  exists fuel r,
    (forall fuel', fuel <= fuel' ->
       getSignalGraph demoLowerCase fuel' demoEffects demoLViews demoInjector
         demoStore = Some (r, demoStore)) /\
    match demoInjector, r with
    | NodeInjector tNode lView, Ok g =>
        assertTNode tNode = true /\ assertLView lView = true /\
        (exists tc, getTemplateConsumer demoLViews tNode lView = Ok tc) /\
        length (nodes g) <= length [0; 1; 2; 3; 4; 5]
    | NodeInjector tNode lView, AssertionError failed =>
        getTemplateConsumer demoLViews tNode lView = AssertionError failed /\
        (assertTNode tNode = false \/ assertLView lView = false \/
         exists index id,
           tNode = VTNode index /\ lView = VLView id /\
           assertLView (slot demoLViews id index) = false)
    | R3Injector, ThrowError msg =>
        msg =
        "getSignalGraph does not currently support environment injectors"%string
    | OtherInjector, ThrowError msg =>
        msg =
        "getSignalGraph must be called with a NodeInjector or an R3Injector"%string
    | _, _ => False
    end.
Proof.
  apply (getSignalGraph_returns demoLowerCase demoEffects demoLViews
           demoInjector demoStore [0; 1; 2; 3; 4; 5]).
  - exact demo_closed.
  - intros tNode lView tc [= <- <-] [= <-] x Hx. cbn in Hx. cbn. tauto.
Defined.

End SignalDebugMore.
